(** * T132 event database: ingestion, identity resolution and fuzzy search

    A shallow embedding of the JavaScript modules [HistoryManager],
    [GoogleSheet], the application script and [Search], with the
    properties of their specification.

    Modelling conventions.
    - A JavaScript string is a [string]: a sequence of code units below
      256 (the Latin-1 range).  [toLowerCase], [trim] and the regular
      expression classes [\s] and [\d] are written out for that range.
    - Counts (lengths, edit distances, indices) are [nat].
    - Scores are JavaScript numbers.  [SearchN] has the search over the
      operations on numbers, with binary64 as [SearchN.Double]; [Search]
      reads the scores as exact rationals ([Q]).
    - A [Map] and an array are lists in insertion order; a row object is
      an association list from column name to cell text, holding the
      properties of the row itself: a lookup that [Object.prototype]
      would answer, and an assignment to ["__proto__"], are outside it
      (see [Ref.ownLookups]).
    - [Array.prototype.sort] is the stable sort of ECMAScript 2019. *)

From Stdlib Require Import Bool Arith List Lia ZArith QArith Qminmax Lqa.
From Stdlib Require Import Ascii String DecimalString Permutation Sorted.
From Stdlib Require Import Uint63 Floats.
Import ListNotations.

Set Implicit Arguments.
Close Scope Q_scope.

(* ================================================================== *)
(** * JavaScript string primitives *)
(* ================================================================== *)

Module JS.

Local Open Scope N_scope.

(** [WhiteSpace] and [LineTerminator] code units below 256: TAB, LF, VT,
    FF, CR, SPACE and NBSP.  This is the class stripped by [trim] and
    matched by [\s]. *)
Definition isWhiteSpace (c : ascii) : bool :=
  let n := N_of_ascii c in
  ((9 <=? n) && (n <=? 13)) || (n =? 32) || (n =? 160).

(** [\d]: the ten ASCII digits. *)
Definition isDigit (c : ascii) : bool :=
  let n := N_of_ascii c in (48 <=? n) && (n <=? 57).

(** Lower-casing of one code unit: A-Z and the Latin-1 capitals
    U+00C0..U+00DE (without the multiplication sign U+00D7). *)
Definition toLowerChar (c : ascii) : ascii :=
  let n := N_of_ascii c in
  if ((65 <=? n) && (n <=? 90)) ||
     ((192 <=? n) && (n <=? 222) && negb (n =? 215))
  then ascii_of_N (n + 32)
  else c.

Local Close Scope N_scope.
Local Open Scope string_scope.

(** [s.toLowerCase()] *)
Fixpoint toLowerCase (s : string) : string :=
  match s with
  | EmptyString => EmptyString
  | String c s' => String (toLowerChar c) (toLowerCase s')
  end.

(** [s.trimStart()] *)
Fixpoint trimStart (s : string) : string :=
  match s with
  | EmptyString => EmptyString
  | String c s' => if isWhiteSpace c then trimStart s' else s
  end.

(** [s.trimEnd()] *)
Fixpoint trimEnd (s : string) : string :=
  match s with
  | EmptyString => EmptyString
  | String c s' =>
      match trimEnd s' with
      | EmptyString => if isWhiteSpace c then EmptyString
                       else String c EmptyString
      | r => String c r
      end
  end.

(** [s.trim()] *)
Definition trim (s : string) : string := trimEnd (trimStart s).

(** [t] is a prefix of [s] *)
Fixpoint startsWith (s t : string) : bool :=
  match t, s with
  | EmptyString, _ => true
  | String _ _, EmptyString => false
  | String d t', String c s' => Ascii.eqb c d && startsWith s' t'
  end.

(** [s.includes(t)] *)
Fixpoint includes (s t : string) : bool :=
  startsWith s t ||
  match s with
  | EmptyString => false
  | String _ s' => includes s' t
  end.

(** Truthiness of a string value: every string but the empty one. *)
Definition truthy (s : string) : bool :=
  match s with EmptyString => false | String _ _ => true end.

(** [a || b] on strings. *)
Definition or_else (a b : string) : string := if truthy a then a else b.

(** [s.padStart(n, "0")] *)
Definition padStart0 (n : nat) (s : string) : string :=
  string_of_list_ascii (repeat "0"%char (n - String.length s)) ++ s.

(** [`${n}`] for a non-negative integer. *)
Definition decimal (n : nat) : string :=
  NilEmpty.string_of_uint (Nat.to_uint n).

(** A plain object with string values, keys in insertion order. *)
Definition Obj := list (string * string).

(** [o[k]] ([None] is [undefined]). *)
Fixpoint obj_get (o : Obj) (k : string) : option string :=
  match o with
  | [] => None
  | (k', v) :: o' => if String.eqb k' k then Some v else obj_get o' k
  end.

(** [o[k] = v] *)
Fixpoint obj_set (o : Obj) (k v : string) : Obj :=
  match o with
  | [] => [(k, v)]
  | (k', v') :: o' =>
      if String.eqb k' k then (k', v) :: o' else (k', v') :: obj_set o' k v
  end.

(** [Object.values(o)] *)
Definition obj_values (o : Obj) : list string := map snd o.

(** A [Map] with string keys: the entries in insertion order. *)
Definition JSMap (A : Type) := list (string * A).

(** [m.has(k)] *)
Definition map_has {A} (m : JSMap A) (k : string) : bool :=
  existsb (fun e => String.eqb (fst e) k) m.

(** [m.get(k)] *)
Fixpoint map_get {A} (m : JSMap A) (k : string) : option A :=
  match m with
  | [] => None
  | (k', v) :: m' => if String.eqb k' k then Some v else map_get m' k
  end.

(** [m.set(k, v)]: a present key keeps its place. *)
Fixpoint map_set {A} (m : JSMap A) (k : string) (v : A) : JSMap A :=
  match m with
  | [] => [(k, v)]
  | (k', v') :: m' =>
      if String.eqb k' k then (k', v) :: m' else (k', v') :: map_set m' k v
  end.

(** In-place change of the object stored under [k] (the value of
    [m.get(k)] is mutated). *)
Fixpoint map_modify {A} (m : JSMap A) (k : string) (f : A -> A) : JSMap A :=
  match m with
  | [] => []
  | (k', v) :: m' =>
      if String.eqb k' k then (k', f v) :: m'
      else (k', v) :: map_modify m' k f
  end.

(** [Array.from(m.values())] *)
Definition map_values {A} (m : JSMap A) : list A := map snd m.

(** [arr.sort(cmp)]: the stable sort of ECMAScript 2019.  [x] goes before
    the first [y] of the sorted rest that must not precede it, that is
    with [cmp(x, y) <= 0]. *)
Fixpoint sort_insert {A} (cmp : A -> A -> Q) (x : A) (l : list A) : list A :=
  match l with
  | [] => [x]
  | y :: l' =>
      if Qle_bool (cmp x y) 0 then x :: l else y :: sort_insert cmp x l'
  end.

Definition sort {A} (cmp : A -> A -> Q) (l : list A) : list A :=
  fold_right (sort_insert cmp) [] l.

(** [x > y] on numbers. *)
Definition Qgtb (x y : Q) : bool := negb (Qle_bool x y).

(** [x || d] where [x] is a string or [undefined]. *)
Definition opt_or (x : option string) (d : string) : string :=
  match x with
  | Some s => or_else s d
  | None => d
  end.

(** [arr.includes(x)] on an array of strings. *)
Definition arr_includes (arr : list string) (x : string) : bool :=
  existsb (String.eqb x) arr.

(** [s.split(/\s+/)]: the pieces between maximal runs of white space;
    white space at either end leaves an empty piece there. *)
Fixpoint split_ws (s : string) : list string :=
  match s with
  | EmptyString => [EmptyString]
  | String c s' =>
      if isWhiteSpace c then
        match s' with
        | String c' _ =>
            if isWhiteSpace c' then split_ws s' else EmptyString :: split_ws s'
        | EmptyString => EmptyString :: split_ws s'
        end
      else
        match split_ws s' with
        | t :: ts => String c t :: ts
        | [] => [String c EmptyString]
        end
  end.

(** [parts.join(" ")] *)
Fixpoint join_sp (parts : list string) : string :=
  match parts with
  | [] => EmptyString
  | [p] => p
  | p :: ps => p ++ " " ++ join_sp ps
  end.

End JS.

(* ================================================================== *)
(** * Data model *)
(* ================================================================== *)

Module Data.

(** The category strings assigned by [extractEventFromRow]. *)
Inductive Category : Type :=
  | EagleProject | ServiceProject | Fundraiser | Camping | Other.

Definition categoryLabel (c : Category) : string :=
  match c with
  | EagleProject => "Eagle Project"
  | ServiceProject => "Service Project"
  | Fundraiser => "Fundraiser"
  | Camping => "Camping"
  | Other => "Other"
  end.

(** The object returned by [extractEventFromRow] (one signup). *)
Record EventInfo : Type := mkEventInfo {
  scoutName : string;
  eventName : string;
  startDate : string;
  endDate : string;
  category : Category;
  isAdult : bool;
  rawRow : JS.Obj
}.

(** An event object of [convertSheetToEvents]. *)
Record Event : Type := mkEvent {
  ev_eventName : string;
  ev_startDate : string;
  ev_endDate : string;
  ev_category : Category;
  scouts : list string;
  adults : list string
}.

(** A scout object of [extractUniqueScouts]. *)
Record Identity : Type := mkIdentity {
  fullName : string;
  firstName : string;
  lastName : string;
  normalized : string
}.

(** The value of [parseSheetData]. *)
Record SheetData : Type := mkSheetData {
  columns : list string;
  rows : list JS.Obj
}.

End Data.

(* ================================================================== *)
(** * GoogleSheet module *)
(* ================================================================== *)

Module GoogleSheet.

Import JS Data.
Local Open Scope string_scope.
Local Open Scope list_scope.

Section ParseSheetData.

(** The value [v] of a cell and JavaScript's [String(v)]. *)
Variable V : Type.
Variable String_ : V -> string.

(** A cell is [None] when the cell is [null] or its [v] is [null] or
    [undefined]; a row is [None] when it has no array [c]; a column is
    [None] when it is [null] or has no [label]. *)
Record Table : Type := mkTable {
  cols : list (option string);
  t_rows : list (option (list (option V)))
}.

(** [table.cols.map(col => (col && col.label) ? col.label : '')
              .filter(col => col !== '')] *)
Definition sheetColumns (t : Table) : list string :=
  filter (fun col => negb (String.eqb col ""))
         (map (fun col => opt_or col "") (cols t)).

(** [columns[index] ? columns[index] : `Column${index + 1}`] *)
Definition columnName (columns : list string) (index : nat) : string :=
  opt_or (nth_error columns index) ("Column" ++ decimal (index + 1)).

Definition cellValue (cell : option V) : string :=
  match cell with
  | Some v => String_ v
  | None => ""
  end.

(** [row.c.forEach((cell, index) => ...)], from [index] on. *)
Fixpoint fillRow (columns : list string) (cells : list (option V))
         (index : nat) (rowData : Obj) : Obj :=
  match cells with
  | [] => rowData
  | cell :: cells' =>
      fillRow columns cells' (S index)
              (obj_set rowData (columnName columns index) (cellValue cell))
  end.

(** [Object.values(rowData).some(val => val && val.trim() !== '')] *)
Definition hasData (rowData : Obj) : bool :=
  existsb (fun val => truthy val && negb (String.eqb (trim val) ""))
          (obj_values rowData).

(** The body of [table.rows.forEach]. *)
Definition addRow (columns : list string) (rows : list Obj)
           (row : option (list (option V))) : list Obj :=
  match row with
  | Some c =>
      let rowData := fillRow columns c 0 [] in
      if hasData rowData then rows ++ [rowData] else rows
  | None => rows
  end.

Definition parseSheetData (t : Table) : SheetData :=
  let columns := sheetColumns t in
  mkSheetData columns (fold_left (addRow columns) (t_rows t) []).

End ParseSheetData.

(** [columns.find(pred)] *)
Definition findCol (pred : string -> bool) (columns : list string)
  : option string := find pred columns.

Definition has (word : string) (col : string) : bool :=
  includes (toLowerCase col) word.

Definition eventColOf (columns : list string) : string :=
  opt_or (findCol (fun col => has "event" col && has "signup" col) columns)
   (opt_or (findCol (fun col => has "event" col || has "activity" col) columns)
     (opt_or (nth_error columns 1) "Event")).

Definition firstNameColOf (columns : list string) : string :=
  opt_or (findCol (fun col => has "first" col && has "name" col) columns)
   (opt_or (nth_error columns 2) "First Name").

Definition lastNameColOf (columns : list string) : string :=
  opt_or (findCol (fun col => has "last" col && has "name" col) columns)
   (opt_or (nth_error columns 3) "Last Name").

Definition patrolColOf (columns : list string) : string :=
  opt_or (findCol (fun col => has "patrol" col || has "leader" col) columns)
   (opt_or (nth_error columns 6) "Patrol Leader - Patrol?").

(** [\s*]: greedy, and nothing that follows it in the two expressions
    starts with white space. *)
Fixpoint skip_ws (l : list ascii) : list ascii :=
  match l with
  | c :: l' => if isWhiteSpace c then skip_ws l' else l
  | [] => []
  end.

(** [\d{1,2}]: greedy; what follows it in the two expressions never
    starts with a digit, so giving a digit back cannot help. *)
Definition digits12 (l : list ascii) : option (list ascii * list ascii) :=
  match l with
  | a :: b :: r =>
      if isDigit a then
        if isDigit b then Some ([a; b], r) else Some ([a], b :: r)
      else None
  | [a] => if isDigit a then Some ([a], []) else None
  | [] => None
  end.

(** [(\d{4})\s*-\s*(\d{1,2})\/(\d{1,2})] matched at the head of [l]:
    the three groups and the rest of the input. *)
Definition dateAt (l : list ascii)
  : option (list ascii * list ascii * list ascii * list ascii) :=
  match l with
  | y1 :: y2 :: y3 :: y4 :: r =>
      if isDigit y1 && isDigit y2 && isDigit y3 && isDigit y4 then
        match skip_ws r with
        | "-"%char :: r1 =>
            match digits12 (skip_ws r1) with
            | Some (m, "/"%char :: r2) =>
                match digits12 r2 with
                | Some (d, r3) => Some ([y1; y2; y3; y4], m, d, r3)
                | None => None
                end
            | _ => None
            end
        | _ => None
        end
      else None
  | _ => None
  end.

(** [s.match(/(\d{4})\s*-\s*(\d{1,2})\/(\d{1,2})/)]: the leftmost match. *)
Fixpoint dateMatch (l : list ascii)
  : option (list ascii * list ascii * list ascii) :=
  match dateAt l with
  | Some (y, m, d, _) => Some (y, m, d)
  | None =>
      match l with
      | [] => None
      | _ :: l' => dateMatch l'
      end
  end.

(** [s.replace(/^\d{4}\s*-\s*\d{1,2}\/\d{1,2}\s*-\s*/, '')] *)
Definition stripDatePrefix (l : list ascii) : list ascii :=
  match dateAt l with
  | Some (_, _, _, r) =>
      match skip_ws r with
      | "-"%char :: r1 => skip_ws r1
      | _ => l
      end
  | None => l
  end.

Definition categoryOf (eventName : string) : Category :=
  let lower := toLowerCase eventName in
  if includes lower "eagle project" then EagleProject
  else if includes lower "service project" then ServiceProject
  else if includes lower "fundraiser" then Fundraiser
  else if includes lower "camp" then Camping
  else Other.

Definition extractEventFromRow (row : Obj) (columns : list string)
  : EventInfo :=
  let eventCol := eventColOf columns in
  let firstNameCol := firstNameColOf columns in
  let lastNameCol := lastNameColOf columns in
  let patrolCol := patrolColOf columns in
  let eventNameFull := opt_or (obj_get row eventCol) "" in
  let firstName := opt_or (obj_get row firstNameCol) "" in
  let lastName := opt_or (obj_get row lastNameCol) "" in
  let patrolValue := opt_or (obj_get row patrolCol) "" in
  let scoutName := trim (firstName ++ " " ++ lastName)%string in
  let isAdult :=
    truthy patrolValue && includes (toLowerCase patrolValue) "adult" in
  let eventName0 := trim eventNameFull in
  let startDate :=
    match dateMatch (list_ascii_of_string eventName0) with
    | Some (year, month, day) =>
        (string_of_list_ascii year ++ "-" ++
         padStart0 2 (string_of_list_ascii month) ++ "-" ++
         padStart0 2 (string_of_list_ascii day))%string
    | None => ""
    end in
  let endDate := startDate in
  let eventName :=
    trim (string_of_list_ascii
            (stripDatePrefix (list_ascii_of_string eventName0))) in
  mkEventInfo scoutName eventName startDate endDate
              (categoryOf eventName) isAdult row.

End GoogleSheet.

(* ================================================================== *)
(** * Search module *)
(* ================================================================== *)

Module Search.

Import JS Data.

(** [Math.min(a, b, c)] *)
Definition min3 (a b c : nat) : nat := Nat.min a (Nat.min b c).

(** The inner loop [for (j = 1; j <= len2; j++)] of one row [i >= 1].
    [c] is [s1[i-1]], [s2] the characters [s2[j-1..]] still to visit,
    [diag] is [matrix[i-1][j-1]], [up] holds [matrix[i-1][j..]] and
    [left] is [matrix[i][j-1]]. *)
Fixpoint fill_row (c : ascii) (s2 : list ascii)
         (diag : nat) (up : list nat) (left : nat) : list nat :=
  match s2, up with
  | d :: s2', u :: up' =>
      let cost := if Ascii.eqb c d then 0 else 1 in
      let v := min3 (u + 1) (left + 1) (diag + cost) in
      v :: fill_row c s2' u up' v
  | _, _ => []
  end.

(** The outer loop [for (i = 1; i <= len1; i++)]: the rows
    [matrix[i..len1]], given [prev = matrix[i-1]].  Row [i] starts as
    [[i]] (the first loop of the source). *)
Fixpoint fill_rows (s1 s2 : list ascii) (i : nat) (prev : list nat)
  : list (list nat) :=
  match s1 with
  | [] => []
  | c :: s1' =>
      let row := i :: fill_row c s2 (hd 0 prev) (tl prev) i in
      row :: fill_rows s1' s2 (S i) row
  end.

(** The whole matrix; row 0 is [[0, 1, ..., len2]]. *)
Definition matrix (s1 s2 : list ascii) : list (list nat) :=
  let row0 := seq 0 (S (List.length s2)) in
  row0 :: fill_rows s1 s2 1 row0.

(** [matrix[len1][len2]] *)
Definition distance (s1 s2 : list ascii) : nat :=
  nth (List.length s2) (nth (List.length s1) (matrix s1 s2) []) 0.

Definition Qnat (n : nat) : Q := inject_Z (Z.of_nat n).

(** [calculateSimilarity(str1, str2)] *)
Definition calculateSimilarity (str1 str2 : string) : Q :=
  if negb (truthy str1) || negb (truthy str2) then 0%Q
  else
    let s1 := trim (toLowerCase str1) in
    let s2 := trim (toLowerCase str2) in
    if String.eqb s1 s2 then 1%Q
    else if includes s1 s2 || includes s2 s1 then (8 # 10)%Q
    else
      let len1 := String.length s1 in
      let len2 := String.length s2 in
      if Nat.eqb len1 0 then (if Nat.eqb len2 0 then 1%Q else 0%Q)
      else if Nat.eqb len2 0 then 0%Q
      else
        let d := distance (list_ascii_of_string s1) (list_ascii_of_string s2) in
        let maxLen := Nat.max len1 len2 in
        (1 - Qnat d / Qnat maxLen)%Q.

Local Open Scope string_scope.
Local Open Scope list_scope.

(** The body of [event.scouts.forEach]. *)
Definition addScout (scoutMap : JSMap Identity) (scoutName : string)
  : JSMap Identity :=
  let name := trim scoutName in
  if truthy name then
    let normalized := toLowerCase name in
    if negb (map_has scoutMap normalized) then
      let parts := split_ws name in
      map_set scoutMap normalized
        (mkIdentity name
                    (opt_or (nth_error parts 0) "")
                    (or_else (join_sp (tl parts)) "")
                    normalized)
    else scoutMap
  else scoutMap.

(** The body of [futureEvents.forEach] and of [pastEvents.forEach]. *)
Definition addEventScouts (scoutMap : JSMap Identity) (event : Event)
  : JSMap Identity :=
  fold_left addScout (scouts event) scoutMap.

Definition extractUniqueScouts (futureEvents pastEvents : list Event)
  : list Identity :=
  let scoutMap := fold_left addEventScouts futureEvents [] in
  let scoutMap := fold_left addEventScouts pastEvents scoutMap in
  map_values scoutMap.

(** The score computed for one scout inside [allScouts.forEach]. *)
Definition scoutScore (searchTerm : string) (scout : Identity) : Q :=
  let score := 0%Q in
  let fullNameScore := calculateSimilarity (fullName scout) searchTerm in
  let score :=
    if Qgtb fullNameScore (3 # 10) then Qmax score fullNameScore else score in
  let firstNameScore := calculateSimilarity (firstName scout) searchTerm in
  let score :=
    if Qgtb firstNameScore (3 # 10)
    then Qmax score (firstNameScore * (9 # 10)) else score in
  let lastNameScore := calculateSimilarity (lastName scout) searchTerm in
  let score :=
    if Qgtb lastNameScore (3 # 10)
    then Qmax score (lastNameScore * (9 # 10)) else score in
  let score :=
    if includes (toLowerCase (fullName scout)) searchTerm ||
       includes (toLowerCase (firstName scout)) searchTerm ||
       includes (toLowerCase (lastName scout)) searchTerm
    then Qmax score (7 # 10) else score in
  score.

(** The body of [allScouts.forEach]. *)
Definition addResult (searchTerm : string) (results : list (Identity * Q))
           (scout : Identity) : list (Identity * Q) :=
  let score := scoutScore searchTerm scout in
  if Qgtb score (3 # 10) then results ++ [(scout, score)] else results.

(** The array [results] once [allScouts.forEach] is over. *)
Definition scoredResults (searchTerm : string) (allScouts : list Identity)
  : list (Identity * Q) :=
  fold_left (addResult searchTerm) allScouts [].

(** [(a, b) => b.score - a.score] *)
Definition byScore (a b : Identity * Q) : Q := (snd b - snd a)%Q.

Definition searchScouts (query : string) (allScouts : list Identity)
  : list Identity :=
  if negb (truthy query) || negb (truthy (trim query)) then []
  else if Nat.eqb (List.length allScouts) 0 then []
  else
    let searchTerm := toLowerCase (trim query) in
    let results := scoredResults searchTerm allScouts in
    map fst (sort byScore results).

(** The body of [event.adults.forEach] in [extractUniqueAdults]; the
    source repeats the text of the scouts loop. *)
Definition addAdult (adultMap : JSMap Identity) (adultName : string)
  : JSMap Identity :=
  let name := trim adultName in
  if truthy name then
    let normalized := toLowerCase name in
    if negb (map_has adultMap normalized) then
      let parts := split_ws name in
      map_set adultMap normalized
        (mkIdentity name
                    (opt_or (nth_error parts 0) "")
                    (or_else (join_sp (tl parts)) "")
                    normalized)
    else adultMap
  else adultMap.

Definition addEventAdults (adultMap : JSMap Identity) (event : Event)
  : JSMap Identity :=
  fold_left addAdult (adults event) adultMap.

Definition extractUniqueAdults (futureEvents pastEvents : list Event)
  : list Identity :=
  let adultMap := fold_left addEventAdults futureEvents [] in
  let adultMap := fold_left addEventAdults pastEvents adultMap in
  map_values adultMap.

(** [event.scouts.some(name =>
       String(name).toLowerCase().trim() === normalizedName)] *)
Definition hasScout (normalizedName : string) (event : Event) : bool :=
  existsb (fun name => String.eqb (trim (toLowerCase name)) normalizedName)
          (scouts event).

(** The value of [getScoutEvents]. *)
Record ScoutEvents : Type := mkScoutEvents {
  se_future : list Event;
  se_past : list Event
}.

Definition getScoutEvents (scoutName : string)
           (futureEvents pastEvents : list Event) : ScoutEvents :=
  let normalizedName := trim (toLowerCase scoutName) in
  mkScoutEvents (filter (hasScout normalizedName) futureEvents)
                (filter (hasScout normalizedName) pastEvents).

End Search.

(* ================================================================== *)
(** * HistoryManager module and the application script *)
(* ================================================================== *)

Module App.

Import JS Data GoogleSheet Search.
Local Open Scope string_scope.
Local Open Scope list_scope.

(** [`${eventInfo.eventName}_${eventInfo.startDate}_${eventInfo.endDate}`
     .toLowerCase()] *)
Definition eventKeyOf (eventInfo : EventInfo) : string :=
  toLowerCase (eventName eventInfo ++ "_" ++ startDate eventInfo ++ "_" ++
               endDate eventInfo)%string.

(** [if (!arr.includes(x)) arr.push(x)] *)
Definition pushNew (arr : list string) (x : string) : list string :=
  if negb (arr_includes arr x) then arr ++ [x] else arr.

Definition addPerson (adult : bool) (personName : string) (event : Event)
  : Event :=
  if adult then
    mkEvent (ev_eventName event) (ev_startDate event) (ev_endDate event)
            (ev_category event) (scouts event)
            (pushNew (adults event) personName)
  else
    mkEvent (ev_eventName event) (ev_startDate event) (ev_endDate event)
            (ev_category event) (pushNew (scouts event) personName)
            (adults event).

(** What [sheetData.rows.forEach] does with one extracted signup. *)
Definition addSignup (eventsMap : JSMap Event) (eventInfo : EventInfo)
  : JSMap Event :=
  if truthy (eventName eventInfo) && truthy (startDate eventInfo) &&
     truthy (scoutName eventInfo)
  then
    let eventKey := eventKeyOf eventInfo in
    let eventsMap :=
      if negb (map_has eventsMap eventKey) then
        map_set eventsMap eventKey
          (mkEvent (eventName eventInfo) (startDate eventInfo)
                   (or_else (endDate eventInfo) (startDate eventInfo))
                   (category eventInfo) [] [])
      else eventsMap in
    let personName := trim (scoutName eventInfo) in
    if truthy personName then
      map_modify eventsMap eventKey (addPerson (isAdult eventInfo) personName)
    else eventsMap
  else eventsMap.

(** The fold of [sheetData.rows.forEach] over signups already extracted. *)
Definition aggregate (infos : list EventInfo) : JSMap Event :=
  fold_left addSignup infos [].

Definition convertSheetToEvents (sheetData : SheetData) : list Event :=
  let columns := columns sheetData in
  map_values
    (aggregate (map (fun row => extractEventFromRow row columns)
                    (rows sheetData))).

Section Dates.

(** [new Date(s)] as milliseconds since the epoch, [None] for an invalid
    date; [setHours(0, 0, 0, 0)] in the local time zone. *)
Variable parseDate : string -> option Z.
Variable startOfDay : Z -> Z.

(** [d < today] for a possibly invalid [d]: a comparison with [NaN] is
    false. *)
Definition dateBefore (d : option Z) (today : Z) : bool :=
  match d with
  | Some t => Z.ltb t today
  | None => false
  end.

(** [HistoryManager.isEventPast(endDate)], with [today] the current day
    at midnight. *)
Definition isEventPast (today : Z) (endDate : string) : bool :=
  if negb (truthy endDate) then false
  else dateBefore (parseDate endDate) today.

(** The test [eventDate < today] of [initializeApp]. *)
Definition isPast (today : Z) (event : Event) : bool :=
  let eventDate :=
    option_map startOfDay
               (parseDate (or_else (ev_endDate event) (ev_startDate event))) in
  dateBefore eventDate today.

(** The global variables of the script. *)
Record AppState : Type := mkAppState {
  futureEvents : list Event;
  pastEvents : list Event;
  allScouts : list Identity;
  selectedScout : option string
}.

(** The body of [allEvents.forEach]. *)
Definition classify (today : Z) (st : AppState) (event : Event) : AppState :=
  if isPast today event then
    mkAppState (futureEvents st) (pastEvents st ++ [event])
               (allScouts st) (selectedScout st)
  else
    mkAppState (futureEvents st ++ [event]) (pastEvents st)
               (allScouts st) (selectedScout st).

(** The effect of [initializeApp] (and of one auto-refresh) on the global
    variables, given the sheet that was fetched and the current time. *)
Definition loadEvents (sheetData : SheetData) (now : Z) (st : AppState)
  : AppState :=
  let allEvents := convertSheetToEvents sheetData in
  let today := startOfDay now in
  let st := mkAppState [] [] (allScouts st) (selectedScout st) in
  let st := fold_left (classify today) allEvents st in
  mkAppState (futureEvents st) (pastEvents st)
             (extractUniqueScouts (futureEvents st) (pastEvents st))
             (selectedScout st).

Variable V : Type.
Variable String_ : V -> string.

(** The same from the table of the feed, through [parseSheetData]. *)
Definition initializeApp (table : Table V) (now : Z) (st : AppState)
  : AppState :=
  loadEvents (parseSheetData String_ table) now st.

End Dates.

(** [selectScout(scoutName)]: the new value of the global variables. *)
Definition selectScout (scoutName : string) (st : AppState) : AppState :=
  mkAppState (futureEvents st) (pastEvents st) (allScouts st)
             (Some scoutName).

(** [clearSearch()] *)
Definition clearSearch (st : AppState) : AppState :=
  mkAppState (futureEvents st) (pastEvents st) (allScouts st) None.

(** [handleSearch(query)]: an exact match among the suggestions is
    selected. *)
Definition handleSearch (query : string) (st : AppState) : AppState :=
  if negb (truthy query) || Nat.eqb (String.length query) 0 then st
  else
    let suggestions := searchScouts query (allScouts st) in
    match find (fun s => String.eqb (toLowerCase (fullName s))
                                    (toLowerCase query)) suggestions with
    | Some exactMatch => selectScout (fullName exactMatch) st
    | None => st
    end.

(** The [keydown] listener on Enter, [value] being the text typed. *)
Definition pressEnter (value : string) (st : AppState) : AppState :=
  let query := trim value in
  if truthy query then
    match searchScouts query (allScouts st) with
    | first :: _ => selectScout (fullName first) st
    | [] => st
    end
  else st.

End App.

(* ================================================================== *)
(** * UI module: the figures shown *)
(* ================================================================== *)

Module UI.

Import JS Data.
Local Open Scope string_scope.
Local Open Scope list_scope.

(** [set.add(x)] on a [Set] of strings, in insertion order. *)
Definition set_add (set : list string) (x : string) : list string :=
  if arr_includes set x then set else set ++ [x].

(** [if (scout) uniqueScouts.add(String(scout).toLowerCase().trim())] *)
Definition countName (set : list string) (name : string) : list string :=
  if truthy name then set_add set (trim (toLowerCase name)) else set.

(** The body of [futureEvents.forEach] and [pastEvents.forEach] in
    [renderStatistics]: the sets [uniqueScouts] and [uniqueAdults]. *)
Definition countEvent (sets : list string * list string) (event : Event)
  : list string * list string :=
  (fold_left countName (scouts event) (fst sets),
   fold_left countName (adults event) (snd sets)).

(** The four numbers written by [renderStatistics]. *)
Record Statistics : Type := mkStatistics {
  totalScouts : nat;
  totalAdults : nat;
  totalFutureEvents : nat;
  totalPastEvents : nat
}.

Definition renderStatistics (futureEvents pastEvents : list Event)
  : Statistics :=
  let sets := fold_left countEvent futureEvents ([], []) in
  let sets := fold_left countEvent pastEvents sets in
  mkStatistics (List.length (fst sets)) (List.length (snd sets))
               (List.length futureEvents) (List.length pastEvents).

Section History.

(** [new Date(s)] in milliseconds, [None] for an invalid date. *)
Variable parseDate : string -> option Z.

Local Open Scope Z_scope.

(** [Math.ceil(x / d)] for integers [x] and [d > 0]. *)
Definition ceilDiv (x d : Z) : Z := - ((- x) / d).

(** [Math.ceil((end - start) / (1000 * 60 * 60 * 24)) + 1]; [None] is
    [NaN], the value when a date is invalid. *)
Definition dayCount (start end_ : option Z) : option Z :=
  match start, end_ with
  | Some s, Some e => Some (ceilDiv (e - s) (1000 * 60 * 60 * 24) + 1)
  | _, _ => None
  end.

(** The body of [pastEvents.forEach] in [renderScoutHistory]:
    [totalDays += days].  Nothing is thrown for an invalid date, so the
    [catch] is never entered. *)
Definition addDays (totalDays : option Z) (event : Event) : option Z :=
  if truthy (ev_startDate event) && truthy (ev_endDate event) then
    match totalDays,
          dayCount (parseDate (ev_startDate event))
                   (parseDate (ev_endDate event)) with
    | Some t, Some days => Some (t + days)
    | _, _ => None
    end
  else totalDays.

(** The figure "Total Days" of [renderScoutHistory]. *)
Definition totalDays (pastEvents : list Event) : option Z :=
  fold_left addDays pastEvents (Some 0).

End History.

End UI.

(* ================================================================== *)
(** * PasswordProtection module *)
(* ================================================================== *)

Module PasswordProtection.

Local Open Scope string_scope.
Local Open Scope Z_scope.

Definition CORRECT_PASSWORD : string := "Security4987!".

Definition checkPassword (password : string) : bool :=
  String.eqb password CORRECT_PASSWORD.

(** What [JSON.parse] makes of the stored text: it throws, or gives a
    value whose [authenticated] is [true] or not, and whose [expires]
    is a number (0 when missing). *)
Inductive StoredItem : Type :=
  | Unparsable
  | Parsed (authenticated : bool) (expires : Z).

(** [localStorage.getItem(AUTH_STORAGE_KEY)]; [None] is [null]. *)
Definition Storage := option StoredItem.

(** [setAuthenticated(authenticated)] at time [now]. *)
Definition setAuthenticated (authenticated : bool) (now : Z)
           (storage : Storage) : Storage :=
  if authenticated then Some (Parsed true (now + 7 * 24 * 60 * 60 * 1000))
  else None.

(** [isAuthenticated()] at time [now]: the answer and the storage left. *)
Definition isAuthenticated (now : Z) (storage : Storage) : bool * Storage :=
  match storage with
  | None => (false, storage)
  | Some Unparsable => (false, storage)
  | Some (Parsed authenticated expires) =>
      if now >? expires then (false, None)
      else (authenticated, storage)
  end.

(** The [submit] listener: whether the application is started, and the
    storage left. *)
Definition submitPassword (enteredPassword : string) (now : Z)
           (storage : Storage) : bool * Storage :=
  if checkPassword enteredPassword
  then (true, setAuthenticated true now storage)
  else (false, storage).

End PasswordProtection.

(* ================================================================== *)
(** * Search module, over the numbers of JavaScript *)
(* ================================================================== *)

(** The scores of the search are JavaScript numbers (binary64).  Here
    the same functions are written over an arithmetic given by its
    operations: [Double] is the arithmetic of the source, [Exact] the
    rational one used by [Search] above. *)
Module SearchN.

Import JS Data App.
Local Open Scope string_scope.
Local Open Scope list_scope.

(** The operations on numbers that the search uses. *)
Record Arith : Type := mkArith {
  num : Type;
  zero : num;                 (* 0 *)
  one : num;                  (* 1 *)
  lit03 : num;                (* 0.3 *)
  lit07 : num;                (* 0.7 *)
  lit08 : num;                (* 0.8 *)
  lit09 : num;                (* 0.9 *)
  ofNat : nat -> num;         (* a length or a distance as a number *)
  sub : num -> num -> num;    (* x - y *)
  div : num -> num -> num;    (* x / y *)
  mul : num -> num -> num;    (* x * y *)
  gt : num -> num -> bool;    (* x > y *)
  max : num -> num -> num;    (* Math.max(x, y) *)
  isNaN : num -> bool         (* x !== x *)
}.

Section Generic.

Variable A : Arith.

(** [calculateSimilarity(str1, str2)] *)
Definition calculateSimilarity (str1 str2 : string) : num A :=
  if negb (truthy str1) || negb (truthy str2) then zero A
  else
    let s1 := trim (toLowerCase str1) in
    let s2 := trim (toLowerCase str2) in
    if String.eqb s1 s2 then one A
    else if includes s1 s2 || includes s2 s1 then lit08 A
    else
      let len1 := String.length s1 in
      let len2 := String.length s2 in
      if Nat.eqb len1 0 then (if Nat.eqb len2 0 then one A else zero A)
      else if Nat.eqb len2 0 then zero A
      else
        let d := Search.distance (list_ascii_of_string s1)
                                 (list_ascii_of_string s2) in
        let maxLen := Nat.max len1 len2 in
        sub A (one A) (div A (ofNat A d) (ofNat A maxLen)).

(** The score computed for one scout inside [allScouts.forEach]. *)
Definition scoutScore (searchTerm : string) (scout : Identity) : num A :=
  let score := zero A in
  let fullNameScore := calculateSimilarity (fullName scout) searchTerm in
  let score :=
    if gt A fullNameScore (lit03 A) then max A score fullNameScore
    else score in
  let firstNameScore := calculateSimilarity (firstName scout) searchTerm in
  let score :=
    if gt A firstNameScore (lit03 A)
    then max A score (mul A firstNameScore (lit09 A)) else score in
  let lastNameScore := calculateSimilarity (lastName scout) searchTerm in
  let score :=
    if gt A lastNameScore (lit03 A)
    then max A score (mul A lastNameScore (lit09 A)) else score in
  let score :=
    if includes (toLowerCase (fullName scout)) searchTerm ||
       includes (toLowerCase (firstName scout)) searchTerm ||
       includes (toLowerCase (lastName scout)) searchTerm
    then max A score (lit07 A) else score in
  score.

(** The body of [allScouts.forEach]. *)
Definition addResult (searchTerm : string) (results : list (Identity * num A))
           (scout : Identity) : list (Identity * num A) :=
  let score := scoutScore searchTerm scout in
  if gt A score (lit03 A) then results ++ [(scout, score)] else results.

(** The array [results] once [allScouts.forEach] is over. *)
Definition scoredResults (searchTerm : string) (allScouts : list Identity)
  : list (Identity * num A) :=
  fold_left (addResult searchTerm) allScouts [].

(** [(a, b) => b.score - a.score] *)
Definition byScore (a b : Identity * num A) : num A := sub A (snd b) (snd a).

(** [arr.sort(cmp)], the stable sort of ECMAScript 2019: [x] goes after
    [y] only when [cmp(x, y) > 0]. *)
Fixpoint sort_insert {X} (cmp : X -> X -> num A) (x : X) (l : list X)
  : list X :=
  match l with
  | [] => [x]
  | y :: l' =>
      if gt A (cmp x y) (zero A) then y :: sort_insert cmp x l' else x :: l
  end.

Definition sort {X} (cmp : X -> X -> num A) (l : list X) : list X :=
  fold_right (sort_insert cmp) [] l.

Definition searchScouts (query : string) (allScouts : list Identity)
  : list Identity :=
  if negb (truthy query) || negb (truthy (trim query)) then []
  else if Nat.eqb (List.length allScouts) 0 then []
  else
    let searchTerm := toLowerCase (trim query) in
    let results := scoredResults searchTerm allScouts in
    map fst (sort byScore results).

(** The [keydown] listener on Enter, [value] being the text typed. *)
Definition pressEnter (value : string) (st : AppState) : AppState :=
  let query := trim value in
  if truthy query then
    match searchScouts query (allScouts st) with
    | first :: _ => selectScout (fullName first) st
    | [] => st
    end
  else st.

(** Descending order: the later entry has no greater score. *)
Definition desc (a b : Identity * num A) : Prop :=
  gt A (snd b) (snd a) = false.

(** Two numbers neither of which is greater than the other. *)
Definition sameScore (x y : num A) : bool :=
  negb (gt A x y) && negb (gt A y x).

(** A name contributes its weighted similarity when the similarity
    itself exceeds 0.3. *)
Definition contribution (raw weighted : num A) : list (num A) :=
  if gt A raw (lit03 A) then [weighted] else [].

(** The contributing candidate scores of one identity: full name at
    full weight, first and last name times 0.9, and 0.7 when the search
    term is found in a name. *)
Definition candidates (searchTerm : string) (r : Identity) : list (num A) :=
  let full := calculateSimilarity (fullName r) searchTerm in
  let first := calculateSimilarity (firstName r) searchTerm in
  let last := calculateSimilarity (lastName r) searchTerm in
  contribution full full ++
  contribution first (mul A first (lit09 A)) ++
  contribution last (mul A last (lit09 A)) ++
  (if includes (toLowerCase (fullName r)) searchTerm ||
      includes (toLowerCase (firstName r)) searchTerm ||
      includes (toLowerCase (lastName r)) searchTerm
   then [lit07 A] else []).

(** What the statements below use of the numbers, NaN included where
    it is not excluded.  Binary64 with [Math.max] has these properties
    ([Double_laws]), and so have the rationals ([Exact_laws]). *)
Record Laws : Prop := mkLaws {
  max_cases : forall a b, max A a b = a \/ max A a b = b;
  max_ge_l : forall a b, gt A a (max A a b) = false;
  max_ge_r : forall a b, gt A b (max A a b) = false;
  max_mono : forall x m y, gt A x m = false -> gt A x (max A m y) = false;
  gt_asym : forall a b, gt A a b = true -> gt A b a = false;
  gt_cotrans : forall a b c, isNaN A b = false -> gt A c a = true ->
                             gt A c b = true \/ gt A b a = true;
  sub_pos : forall a b, gt A (sub A b a) (zero A) = gt A b a;
  nan_zero : isNaN A (zero A) = false;
  nan_one : isNaN A (one A) = false;
  nan_lit03 : isNaN A (lit03 A) = false;
  nan_lit07 : isNaN A (lit07 A) = false;
  nan_lit08 : isNaN A (lit08 A) = false;
  nan_ratio : forall d m, 0 < m ->
      isNaN A (sub A (one A) (div A (ofNat A d) (ofNat A m))) = false;
  nan_mul : forall x, isNaN A x = false -> isNaN A (mul A x (lit09 A)) = false
}.

End Generic.

(** Exact rational arithmetic. *)
Definition Exact : Arith :=
  mkArith 0%Q 1%Q (3 # 10)%Q (7 # 10)%Q (8 # 10)%Q (9 # 10)%Q
          Search.Qnat Qminus Qdiv Qmult Qgtb Qmax (fun _ => false).

Local Set Warnings "-inexact-float".

(** [Math.max] on binary64 (the sign of a zero result apart). *)
Definition fmax (a b : float) : float :=
  if PrimFloat.is_nan b then b else if PrimFloat.ltb a b then b else a.

(** The arithmetic of the source: binary64, round to nearest even.  A
    string has at most 2^53 - 1 code units, so a length or a distance
    converts exactly; beyond that bound the conversion stays at it. *)
Definition Double : Arith :=
  mkArith 0%float 1%float 0.3%float 0.7%float 0.8%float 0.9%float
          (fun n => PrimFloat.of_uint63
                      (Uint63.of_Z (Z.min (Z.of_nat n) 9007199254740991)))
          PrimFloat.sub PrimFloat.div PrimFloat.mul
          (fun x y => PrimFloat.ltb y x) fmax PrimFloat.is_nan.

End SearchN.

(* ================================================================== *)
(** * Reference notions used by the statements *)
(* ================================================================== *)

Module Ref.

(** Unit-cost edit distance (insert, delete, substitute), by recursion on
    both words. *)
Fixpoint lev (a b : list ascii) {struct a} : nat :=
  match a with
  | [] => List.length b
  | x :: a' =>
      (fix lev_inner (b : list ascii) : nat :=
         match b with
         | [] => S (List.length a')
         | y :: b' =>
             Search.min3 (lev a' b + 1) (lev_inner b' + 1)
                         (lev a' b' + (if Ascii.eqb x y then 0 else 1))
         end) b
  end.

(** The reversed proper extensions of [pre] by the prefixes of [rest]:
    the words whose distances make up one matrix row. *)
Fixpoint prefs (pre rest : list ascii) : list (list ascii) :=
  match rest with
  | [] => []
  | d :: r => (d :: pre) :: prefs (d :: pre) r
  end.

(** Row [i] of the matrix, for [a] the reversed first [i] characters. *)
Definition row_of (a s2 : list ascii) : list nat :=
  map (lev a) ([] :: prefs [] s2).

(** The set of an event a signup goes to. *)
Definition people (adult : bool) (e : Data.Event) : list string :=
  if adult then Data.adults e else Data.scouts e.

(** The signups that [convertSheetToEvents] keeps: event name, start
    date and person name are not empty (nor the trimmed person name). *)
Definition validSignup (i : Data.EventInfo) : bool :=
  JS.truthy (Data.eventName i) && JS.truthy (Data.startDate i) &&
  JS.truthy (Data.scoutName i) && JS.truthy (JS.trim (Data.scoutName i)).

(** Person [p] is in the scouts (or adults) set of the event under [k]. *)
Definition listed (m : JS.JSMap Data.Event) (k : string) (adult : bool)
           (p : string) : Prop :=
  exists e, JS.map_get m k = Some e /\ In p (people adult e).

(** One record per key, and no name twice in a set. *)
Definition eventsOk (m : JS.JSMap Data.Event) : Prop :=
  NoDup (map fst m) /\
  forall k e, In (k, e) m ->
              NoDup (Data.scouts e) /\ NoDup (Data.adults e).

(** The names met in the scouts sets, trimmed, the empty ones left
    out, in the order in which [extractUniqueScouts] walks them. *)
Definition scoutNames (events : list Data.Event) : list string :=
  filter JS.truthy (map JS.trim (flat_map Data.scouts events)).

(** The first name of each lower-case key not yet in [seen]. *)
Fixpoint firstSeen (seen names : list string) : list string :=
  match names with
  | [] => []
  | n :: names' =>
      let k := JS.toLowerCase n in
      if existsb (String.eqb k) seen then firstSeen seen names'
      else n :: firstSeen (k :: seen) names'
  end.

(** The record of a name: first token, and the other tokens joined by
    single spaces. *)
Definition identityOf (name : string) : Data.Identity :=
  Data.mkIdentity name (hd EmptyString (JS.split_ws name))
                  (JS.join_sp (tl (JS.split_ws name)))
                  (JS.toLowerCase name).

Fixpoint noWhiteSpace (s : string) : bool :=
  match s with
  | EmptyString => true
  | String c s' => negb (JS.isWhiteSpace c) && noWhiteSpace s'
  end.

(** The query is found in the full, first or last name, lower-cased. *)
Definition queryInName (searchTerm : string) (r : Data.Identity) : bool :=
  JS.includes (JS.toLowerCase (Data.fullName r)) searchTerm ||
  JS.includes (JS.toLowerCase (Data.firstName r)) searchTerm ||
  JS.includes (JS.toLowerCase (Data.lastName r)) searchTerm.

(** A name contributes its weighted similarity when the similarity
    itself exceeds 0.3. *)
Definition contribution (raw weighted : Q) : list Q :=
  if JS.Qgtb raw (3 # 10) then [weighted] else [].

(** The contributing candidate scores of one identity: full name at
    full weight, first and last name at 0.9, and 0.7 when the query is
    found in a name. *)
Definition candidates (searchTerm : string) (r : Data.Identity) : list Q :=
  let full := Search.calculateSimilarity (Data.fullName r) searchTerm in
  let first := Search.calculateSimilarity (Data.firstName r) searchTerm in
  let last := Search.calculateSimilarity (Data.lastName r) searchTerm in
  contribution full full ++
  contribution first (first * (9 # 10))%Q ++
  contribution last (last * (9 # 10))%Q ++
  (if queryInName searchTerm r then [(7 # 10)%Q] else []).

(** The greatest of a list of scores, 0 for the empty list. *)
Definition maxOf (l : list Q) : Q := fold_left Qmax l 0%Q.

Local Set Warnings "-inexact-float".

(** The same on binary64: a name contributes its weighted similarity
    when the similarity itself exceeds 0.3. *)
Definition contributionD (raw weighted : float) : list float :=
  if PrimFloat.ltb 0.3 raw then [weighted] else [].

(** The contributing candidate scores of one identity on binary64: full
    name at full weight, first and last name times 0.9, and 0.7 when the
    query is found in a name. *)
Definition candidatesD (searchTerm : string) (r : Data.Identity)
  : list float :=
  let full :=
    SearchN.calculateSimilarity SearchN.Double (Data.fullName r) searchTerm in
  let first :=
    SearchN.calculateSimilarity SearchN.Double (Data.firstName r) searchTerm in
  let last :=
    SearchN.calculateSimilarity SearchN.Double (Data.lastName r) searchTerm in
  contributionD full full ++
  contributionD first (PrimFloat.mul first 0.9) ++
  contributionD last (PrimFloat.mul last 0.9) ++
  (if queryInName searchTerm r then [0.7%float] else []).

(** Descending order of the scored results. *)
Definition desc (a b : Data.Identity * Q) : Prop := (snd b <= snd a)%Q.

(** The first three tests of [convertSheetToEvents] on a signup. *)
Definition keptSignup (i : Data.EventInfo) : bool :=
  JS.truthy (Data.eventName i) && JS.truthy (Data.startDate i) &&
  JS.truthy (Data.scoutName i).

(** The keys of a list without those in [seen] and without repetition,
    first occurrences in order. *)
Fixpoint firstKeys (seen keys : list string) : list string :=
  match keys with
  | [] => []
  | k :: keys' =>
      if existsb (String.eqb k) seen then firstKeys seen keys'
      else k :: firstKeys (k :: seen) keys'
  end.

(** The names met in the adults sets, trimmed, the empty ones left out. *)
Definition adultNames (events : list Data.Event) : list string :=
  filter JS.truthy (map JS.trim (flat_map Data.adults events)).

(** A string with neither leading nor trailing white space. *)
Definition trimmed (s : string) : Prop := JS.trim s = s.

(** The form [YYYY-MM-DD] of a start date: ten characters, digits but
    for the two dashes. *)
Definition isoShaped (s : string) : bool :=
  match list_ascii_of_string s with
  | [y1; y2; y3; y4; d1; m1; m2; d2; a1; a2] =>
      forallb JS.isDigit [y1; y2; y3; y4; m1; m2; a1; a2] &&
      Ascii.eqb d1 "-" && Ascii.eqb d2 "-"
  | _ => false
  end.

(** Every record and every name of [m] comes from a signup of [L]:
    the record of key [k] carries the fields of a kept signup of that
    key, and a name in one of its sets is the trimmed name of a valid
    signup of that key and role. *)
Definition fromSignups (L : list Data.EventInfo) (m : JS.JSMap Data.Event)
  : Prop :=
  forall k e, In (k, e) m ->
    (exists i, In i L /\ keptSignup i = true /\ App.eventKeyOf i = k /\
               Data.ev_eventName e = Data.eventName i /\
               Data.ev_startDate e = Data.startDate i /\
               Data.ev_endDate e =
                 JS.or_else (Data.endDate i) (Data.startDate i) /\
               Data.ev_category e = Data.category i) /\
    (forall a p, In p (people a e) ->
       exists i, In i L /\ validSignup i = true /\ App.eventKeyOf i = k /\
                 Data.isAdult i = a /\ p = JS.trim (Data.scoutName i)).

(** One or two digits. *)
Definition digits1or2 (m : list ascii) : Prop :=
  (exists a, m = [a] /\ JS.isDigit a = true) \/
  (exists a b, m = [a; b] /\ JS.isDigit a = true /\ JS.isDigit b = true).

(** [m] padded to two digits. *)
Definition twoDigits (m : list ascii) : list ascii :=
  match m with
  | [a] => ["0"%char; a]
  | _ => m
  end.

(** White space only. *)
Definition blanks (l : list ascii) : bool := forallb JS.isWhiteSpace l.

(** The text starts with white space. *)
Definition startsBlank (l : list ascii) : bool :=
  match l with
  | c :: _ => JS.isWhiteSpace c
  | [] => false
  end.

(** An event text with its date prefix: year, dash, month, slash, day,
    dash and name, with optional white space around the dashes. *)
Definition datedText (y sp1 sp2 m d sp3 sp4 name : list ascii) : list ascii :=
  y ++ sp1 ++ "-"%char :: sp2 ++ m ++ "/"%char :: d ++ sp3 ++
  "-"%char :: sp4 ++ name.

(** The property names of [Object.prototype]: looking one of them up in
    a row that has no cell of that name gives an inherited value, not
    [undefined]; and an assignment to ["__proto__"] stores nothing. *)
Definition protoNames : list string :=
  ["constructor"; "__proto__"; "hasOwnProperty"; "isPrototypeOf";
   "propertyIsEnumerable"; "toLocaleString"; "toString"; "valueOf";
   "__defineGetter__"; "__defineSetter__"; "__lookupGetter__";
   "__lookupSetter__"]%string.

(** [row[k]] is found on the prototype. *)
Definition inherited (row : JS.Obj) (k : string) : bool :=
  match JS.obj_get row k with
  | Some _ => false
  | None => existsb (String.eqb k) protoNames
  end.

(** None of the four lookups of [extractEventFromRow] is answered by the
    prototype. *)
Definition ownLookups (row : JS.Obj) (columns : list string) : bool :=
  negb (inherited row (GoogleSheet.eventColOf columns)) &&
  negb (inherited row (GoogleSheet.firstNameColOf columns)) &&
  negb (inherited row (GoogleSheet.lastNameColOf columns)) &&
  negb (inherited row (GoogleSheet.patrolColOf columns)).

(** An event with nobody in it. *)
Definition nobody (e : Data.Event) : bool :=
  match Data.scouts e, Data.adults e with
  | [], [] => true
  | _, _ => false
  end.

End Ref.

(* ================================================================== *)
(** * Sample data *)
(* ================================================================== *)

Module Samples.

Import JS Data.
Local Open Scope string_scope.
Local Open Scope list_scope.

(** The labels of the signup sheet. *)
Definition sheetColumns0 : list string :=
  ["Timestamp"; "Which event did you signup for?"; "First Name";
   "Last Name"; "Email"; "Phone"; "Patrol Leader - Patrol?"].

Definition leafEvent : string :=
  "2025 - 11/29 - Leaf Center Service Project (2 pm - 4 pm)".

Definition signupRow (first last role : string) : Obj :=
  [("Timestamp", "11/1/2025 10:00:00");
   ("Which event did you signup for?", leafEvent);
   ("First Name", first); ("Last Name", last);
   ("Email", "jane@example.org"); ("Phone", "");
   ("Patrol Leader - Patrol?", role)].

Definition janeRow : Obj := signupRow "Jane" "Doe" "Scout".

(** The same person, typed in lower case with a trailing blank. *)
Definition janeRowLower : Obj := signupRow "jane" "doe " "Scout".

Definition janeSheet : SheetData :=
  mkSheetData sheetColumns0 [janeRow; janeRowLower].

Definition leafCenter (scouts adults : list string) : Event :=
  mkEvent "Leaf Center Service Project (2 pm - 4 pm)" "2025-11-29"
          "2025-11-29" ServiceProject scouts adults.

Local Open Scope Z_scope.

Definition digitVal (c : ascii) : Z := Z.of_N (N_of_ascii c) - 48.

Definition number (l : list ascii) : Z :=
  fold_left (fun n c => 10 * n + digitVal c) l 0.

(** Days from 1970-01-01 to a date of the proleptic Gregorian calendar. *)
Definition daysFromCivil (y m d : Z) : Z :=
  let y := if m <=? 2 then y - 1 else y in
  let era := y / 400 in
  let yoe := y - era * 400 in
  let doy := (153 * (if m >? 2 then m - 3 else m + 9) + 2) / 5 + d - 1 in
  let doe := yoe * 365 + yoe / 4 - yoe / 100 + doy in
  era * 146097 + doe - 719468.

(** A date parser for the form [YYYY-MM-DD], read as midnight UTC; any
    other text is an invalid date. *)
Definition parseIsoDate (s : string) : option Z :=
  match list_ascii_of_string s with
  | [y1; y2; y3; y4; "-"%char; m1; m2; "-"%char; d1; d2] =>
      if forallb isDigit [y1; y2; y3; y4; m1; m2; d1; d2] then
        let m := number [m1; m2] in
        let d := number [d1; d2] in
        if (1 <=? m) && (m <=? 12) && (1 <=? d) && (d <=? 31) then
          Some (daysFromCivil (number [y1; y2; y3; y4]) m d * 86400000)
        else None
      else None
  | _ => None
  end.

(** Midnight of the same day, for a clock on UTC. *)
Definition utcMidnight (t : Z) : Z := t - t mod 86400000.

(** 2025-12-01 10:30 UTC. *)
Definition december1st : Z := 20423 * 86400000 + 37800000.

Definition campout : Event :=
  mkEvent "Winter Campout" "2025-12-13" "2025-12-13" Camping
          ["Jon Smith"] ["Ann Lee"].

Definition undated : Event :=
  mkEvent "Court of Honor" "2025-13-45" "2025-13-45" Other ["Cher"] [].

Definition smiths : list Identity :=
  [mkIdentity "Al Smith" "Al" "Smith" "al smith";
   mkIdentity "Zed Young" "Zed" "Young" "zed young";
   mkIdentity "Bo Smith" "Bo" "Smith" "bo smith";
   mkIdentity "Smith" "Smith" "" "smith"].

Definition jons : list Identity :=
  [mkIdentity "John Smyth" "John" "Smyth" "john smyth";
   mkIdentity "Jon Smith" "Jon" "Smith" "jon smith"].

Definition signupRowFor (event first last role : string) : Obj :=
  [("Timestamp", "11/1/2025 10:00:00");
   ("Which event did you signup for?", event);
   ("First Name", first); ("Last Name", last);
   ("Patrol Leader - Patrol?", role)].

Definition jaden : Identity := mkIdentity "Jaden" "Jaden" "" "jaden".

Definition jonSmith : Identity :=
  mkIdentity "Jon Smith" "Jon" "Smith" "jon smith".

End Samples.

Import JS Data GoogleSheet Search App UI PasswordProtection Ref Samples.
Local Open Scope string_scope.
Local Open Scope list_scope.

(* ================================================================== *)
(** * Edit distance: the matrix computes [lev] *)
(* ================================================================== *)

Section Levenshtein.

Lemma lev_cons_cons x a y b :
  lev (x :: a) (y :: b) =
  min3 (lev a (y :: b) + 1) (lev (x :: a) b + 1)
       (lev a b + (if Ascii.eqb x y then 0 else 1)).
Proof. reflexivity. Qed.

Lemma lev_nil_r a : lev a [] = List.length a.
Proof. destruct a; reflexivity. Qed.

Lemma lev_sym a : forall b, lev a b = lev b a.
Proof.
  induction a as [|x a IHa]; intros b.
  - now rewrite lev_nil_r.
  - induction b as [|y b IHb].
    + reflexivity.
    + rewrite !lev_cons_cons, IHb, (IHa (y :: b)), (IHa b).
      rewrite (Ascii.eqb_sym y x). unfold min3. lia.
Qed.

Lemma lev_le_max a : forall b,
  lev a b <= Nat.max (List.length a) (List.length b).
Proof.
  induction a as [|x a IHa]; intros b.
  - simpl. lia.
  - destruct b as [|y b].
    + simpl. lia.
    + rewrite lev_cons_cons. specialize (IHa b). unfold min3. simpl List.length.
      destruct (Ascii.eqb x y); lia.
Qed.

Lemma fill_row_spec c a : forall rest pre,
  fill_row c rest (lev a pre) (map (lev a) (prefs pre rest)) (lev (c :: a) pre)
  = map (lev (c :: a)) (prefs pre rest).
Proof.
  induction rest as [|d r IH]; intros pre; cbn [prefs map fill_row].
  - reflexivity.
  - rewrite <- lev_cons_cons. f_equal. apply IH.
Qed.

Lemma prefs_lengths : forall rest pre,
  map (@List.length ascii) (prefs pre rest)
  = seq (S (List.length pre)) (List.length rest).
Proof.
  induction rest as [|d r IH]; intros pre; simpl.
  - reflexivity.
  - f_equal. apply (IH (d :: pre)).
Qed.

Lemma prefs_length rest pre :
  List.length (prefs pre rest) = List.length rest.
Proof.
  rewrite <- (length_map (@List.length ascii)), prefs_lengths.
  apply length_seq.
Qed.

Lemma prefs_last : forall rest pre,
  nth (List.length rest) (pre :: prefs pre rest) [] = rev rest ++ pre.
Proof.
  induction rest as [|d r IH]; intros pre.
  - reflexivity.
  - change (nth (List.length r) (prefs pre (d :: r)) [] = rev (d :: r) ++ pre).
    cbn [prefs rev]. rewrite IH, <- app_assoc. reflexivity.
Qed.

Lemma row0_spec s2 : seq 0 (S (List.length s2)) = row_of [] s2.
Proof.
  unfold row_of. cbn [map seq]. f_equal.
  change 1 with (S (@List.length ascii [])).
  rewrite <- (prefs_lengths s2 []). apply map_ext. reflexivity.
Qed.

Lemma fill_rows_last s2 : forall s1 a,
  nth (List.length s1)
      (row_of a s2 :: fill_rows s1 s2 (S (List.length a)) (row_of a s2)) []
  = row_of (rev s1 ++ a) s2.
Proof.
  induction s1 as [|c s1 IH]; intros a.
  - reflexivity.
  - cbn [fill_rows List.length].
    match goal with
    | |- nth (S ?n) (_ :: ?l) ?d = ?r => change (nth n l d = r)
    end.
    assert (E : S (List.length a) ::
                fill_row c s2 (hd 0 (row_of a s2)) (tl (row_of a s2))
                         (S (List.length a))
                = row_of (c :: a) s2).
    { unfold row_of. cbn [map hd tl]. f_equal.
      apply (fill_row_spec c a s2 []). }
    rewrite E. change (S (List.length a)) with (List.length (c :: a)).
    rewrite (IH (c :: a)). simpl. now rewrite <- app_assoc.
Qed.

Lemma distance_lev s1 s2 : distance s1 s2 = lev (rev s1) (rev s2).
Proof.
  unfold distance, matrix. rewrite row0_spec.
  change 1 with (S (@List.length ascii [])).
  rewrite fill_rows_last, app_nil_r.
  unfold row_of.
  rewrite (nth_indep _ 0 (lev (rev s1) [])).
  - rewrite map_nth, prefs_last, app_nil_r. reflexivity.
  - rewrite length_map. cbn [List.length]. rewrite prefs_length. lia.
Qed.

End Levenshtein.

(* ================================================================== *)
(** * calculateSimilarity *)
(* ================================================================== *)

Section Similarity.

Lemma length_list_ascii s :
  List.length (list_ascii_of_string s) = String.length s.
Proof. induction s; simpl; congruence. Qed.

Lemma startsWith_refl s : startsWith s s = true.
Proof.
  induction s as [|c s IH]; simpl; [reflexivity|].
  now rewrite Ascii.eqb_refl.
Qed.

Lemma includes_refl s : includes s s = true.
Proof. destruct s; simpl; [reflexivity|]. now rewrite Ascii.eqb_refl, startsWith_refl. Qed.

Lemma distance_sym s1 s2 : distance s1 s2 = distance s2 s1.
Proof. rewrite !distance_lev. apply lev_sym. Qed.

Lemma distance_le_max s1 s2 :
  distance s1 s2 <= Nat.max (List.length s1) (List.length s2).
Proof.
  rewrite distance_lev.
  rewrite <- (length_rev s1), <- (length_rev s2). apply lev_le_max.
Qed.

Lemma ratio_range d m : d <= m -> 0 < m ->
  (0 <= 1 - Qnat d / Qnat m <= 1)%Q.
Proof.
  intros Hd Hm. unfold Qnat.
  assert (Hm' : (0 < inject_Z (Z.of_nat m))%Q).
  { change 0%Q with (inject_Z 0). rewrite <- Zlt_Qlt. lia. }
  assert (H0 : (0 <= inject_Z (Z.of_nat d) / inject_Z (Z.of_nat m))%Q).
  { apply Qle_shift_div_l; [assumption|]. rewrite Qmult_0_l.
    change 0%Q with (inject_Z 0). rewrite <- Zle_Qle. lia. }
  assert (H1 : (inject_Z (Z.of_nat d) / inject_Z (Z.of_nat m) <= 1)%Q).
  { apply Qle_shift_div_r; [assumption|]. rewrite Qmult_1_l.
    rewrite <- Zle_Qle. lia. }
  split.
  - unfold Qminus. rewrite <- Qle_minus_iff. exact H1.
  - apply Qplus_le_l with (z := (inject_Z (Z.of_nat d) / inject_Z (Z.of_nat m))%Q).
    ring_simplify. rewrite <- (Qplus_0_l 1) at 1.
    apply Qplus_le_l. exact H0.
Qed.

(** C10. [calculateSimilarity] is symmetric in its two arguments. *)
Theorem calculateSimilarity_sym (a b : string) :
  calculateSimilarity a b = calculateSimilarity b a.
Proof.
  unfold calculateSimilarity.
  rewrite (orb_comm (negb (truthy b))).
  destruct (negb (truthy a) || negb (truthy b)); [reflexivity|].
  set (s1 := trim (toLowerCase a)). set (s2 := trim (toLowerCase b)).
  rewrite (String.eqb_sym s2 s1).
  destruct (String.eqb s1 s2); [reflexivity|].
  rewrite (orb_comm (includes s2 s1)).
  destruct (includes s1 s2 || includes s2 s1); [reflexivity|].
  destruct (Nat.eqb (String.length s1) 0), (Nat.eqb (String.length s2) 0);
    try reflexivity.
  rewrite distance_sym, Nat.max_comm. reflexivity.
Qed.

(** The score is a number between 0 and 1. *)
Lemma calculateSimilarity_range (a b : string) :
  (0 <= calculateSimilarity a b <= 1)%Q.
Proof.
  unfold calculateSimilarity.
  destruct (negb (truthy a) || negb (truthy b)); [split; discriminate|].
  set (s1 := trim (toLowerCase a)). set (s2 := trim (toLowerCase b)).
  destruct (String.eqb s1 s2); [split; discriminate|].
  destruct (includes s1 s2 || includes s2 s1); [split; discriminate|].
  destruct (Nat.eqb_spec (String.length s1) 0) as [E1|N1].
  { destruct (Nat.eqb (String.length s2) 0); split; discriminate. }
  destruct (Nat.eqb (String.length s2) 0); [split; discriminate|].
  apply ratio_range; [|lia].
  rewrite <- !length_list_ascii. apply distance_le_max.
Qed.

(** The guard [!str1 || !str2]: an empty argument gives 0. *)
Lemma calculateSimilarity_empty (a b : string) :
  a = "" \/ b = "" -> calculateSimilarity a b = 0%Q.
Proof.
  intros [-> | ->]; unfold calculateSimilarity; simpl; [reflexivity|].
  now rewrite orb_true_r.
Qed.

Lemma calculateSimilarity_same (a : string) :
  a <> "" -> calculateSimilarity a a = 1%Q.
Proof.
  intros Ha. unfold calculateSimilarity.
  destruct a as [|c a]; [congruence|]. cbn [truthy negb orb].
  now rewrite String.eqb_refl.
Qed.

(** C2 (as the code has it). The score lies in [0,1]; a non-empty string
    scores 1 against itself; as soon as one argument is the empty string
    the score is 0, so the empty string scores 0 against itself and "x"
    scores 0 against the empty string. *)
Theorem calculateSimilarity_bounds :
  (forall a b, 0 <= calculateSimilarity a b <= 1)%Q /\
  (forall a, a <> "" -> calculateSimilarity a a = 1%Q) /\
  (forall a b, a = "" \/ b = "" -> calculateSimilarity a b = 0%Q) /\
  calculateSimilarity "x" "" = 0%Q.
Proof.
  split; [exact calculateSimilarity_range|].
  split; [exact calculateSimilarity_same|].
  split; [exact calculateSimilarity_empty|].
  reflexivity.
Qed.

Lemma calculateSimilarity_bounds_witness :
  calculateSimilarity "Jane Doe" "Jane Doe" = 1%Q /\
  calculateSimilarity "" "Jane Doe" = 0%Q.
Proof.
  split.
  - apply (proj1 (proj2 calculateSimilarity_bounds)). discriminate.
  - apply (proj1 (proj2 (proj2 calculateSimilarity_bounds))). left. reflexivity.
Defined.

(** C2 as stated fails: the empty string against itself scores 0, not 1. *)
Lemma calculateSimilarity_empty_empty_not_1 :
  ~ (forall a, calculateSimilarity a a == 1)%Q.
Proof. intros H. specialize (H ""). vm_compute in H. discriminate. Qed.

End Similarity.

(* ================================================================== *)
(** * GoogleSheet: parseSheetData and extractEventFromRow *)
(* ================================================================== *)

Section Sheet.

(** The end date is always the start date. *)
Lemma extractEventFromRow_endDate row columns :
  endDate (extractEventFromRow row columns) =
  startDate (extractEventFromRow row columns).
Proof. reflexivity. Qed.

(** One-digit months and days are padded. *)
Example extractEventFromRow_pads :
  let e := extractEventFromRow
             [("Event", "2026-3/7 - Spring Camporee"); ("First Name", "Al")]
             ["Event"; "First Name"] in
  startDate e = "2026-03-07" /\ eventName e = "Spring Camporee" /\
  category e = Camping /\ scoutName e = "Al".
Proof. vm_compute. repeat split. Qed.

(** C3. With the labels ["", "A"], the row ["x", "y"] is read as
    {A: "x", Column2: "y"}: the blank label is dropped before the cells
    are numbered, so the cell at index 0 takes the label of index 1
    (and not Column1), and the cell at index 1 is not under "A". *)
Theorem parseSheetData_blank_label_shift :
  parseSheetData (fun v : string => v)
    (mkTable [Some ""; Some "A"] [Some [Some "x"; Some "y"]]) =
  mkSheetData ["A"] [[("A", "x"); ("Column2", "y")]].
Proof. reflexivity. Qed.

(** Where no label is blank the columns are the labels, and the cell
    at index [i] goes under the label at index [i], or under ColumnN. *)
Lemma sheetColumns_labelled (V : Type) (labels : list string)
      (rows : list (option (list (option V)))) :
  Forall (fun l => truthy l = true) labels ->
  sheetColumns (mkTable (map Some labels) rows) = labels.
Proof.
  unfold sheetColumns. cbn [cols]. rewrite map_map.
  induction 1 as [|l labels Hl _ IH]; simpl; [reflexivity|].
  unfold or_else. rewrite Hl. destruct l; [discriminate|]. simpl.
  f_equal. exact IH.
Qed.

End Sheet.

(* ================================================================== *)
(** * Maps in insertion order *)
(* ================================================================== *)

Section Maps.

Context {A : Type}.
Implicit Types (m : JSMap A) (k : string).

Lemma map_has_In m k : map_has m k = true <-> In k (map fst m).
Proof.
  unfold map_has. rewrite existsb_exists, in_map_iff. split.
  - intros [e [He Hk]]. apply String.eqb_eq in Hk. now exists e.
  - intros [e [Hk He]]. exists e. split; [assumption|]. now apply String.eqb_eq.
Qed.

Lemma map_has_false m k : map_has m k = false <-> ~ In k (map fst m).
Proof. rewrite <- map_has_In. destruct (map_has m k); intuition congruence. Qed.

Lemma map_get_has m k v : map_get m k = Some v -> map_has m k = true.
Proof.
  induction m as [|[k' v'] m IH]; simpl; [discriminate|].
  destruct (String.eqb k' k); [reflexivity|]. exact IH.
Qed.

Lemma map_get_In m k v : map_get m k = Some v -> In (k, v) m.
Proof.
  induction m as [|[k' v'] m IH]; simpl; [discriminate|].
  destruct (String.eqb_spec k' k) as [->|N].
  - intros [= ->]. now left.
  - intros H. right. now apply IH.
Qed.

Lemma map_set_absent m k v :
  map_has m k = false -> map_set m k v = m ++ [(k, v)].
Proof.
  induction m as [|[k' v'] m IH]; simpl; [reflexivity|].
  destruct (String.eqb k' k); simpl; [discriminate|].
  intros H. now rewrite IH.
Qed.

Lemma map_get_set_same m k v : map_get (map_set m k v) k = Some v.
Proof.
  induction m as [|[k' v'] m IH]; simpl.
  - now rewrite String.eqb_refl.
  - destruct (String.eqb k' k) eqn:E; simpl; rewrite E; [reflexivity|exact IH].
Qed.

Lemma map_get_set_other m k k' v :
  k <> k' -> map_get (map_set m k v) k' = map_get m k'.
Proof.
  intros N. induction m as [|[k0 v0] m IH]; simpl.
  - destruct (String.eqb_spec k k'); [contradiction|reflexivity].
  - destruct (String.eqb_spec k0 k) as [->|N0]; simpl.
    + destruct (String.eqb_spec k k'); [contradiction|reflexivity].
    + destruct (String.eqb k0 k'); [reflexivity|exact IH].
Qed.

Lemma map_get_modify_same m k f :
  map_get (map_modify m k f) k = option_map f (map_get m k).
Proof.
  induction m as [|[k' v'] m IH]; simpl; [reflexivity|].
  destruct (String.eqb k' k) eqn:E; simpl; rewrite E; [reflexivity|exact IH].
Qed.

Lemma map_get_modify_other m k k' f :
  k <> k' -> map_get (map_modify m k f) k' = map_get m k'.
Proof.
  intros N. induction m as [|[k0 v0] m IH]; simpl; [reflexivity|].
  destruct (String.eqb_spec k0 k) as [->|N0]; simpl.
  - destruct (String.eqb_spec k k'); [contradiction|reflexivity].
  - destruct (String.eqb k0 k'); [reflexivity|exact IH].
Qed.

Lemma map_modify_keys m k f : map fst (map_modify m k f) = map fst m.
Proof.
  induction m as [|[k' v'] m IH]; simpl; [reflexivity|].
  destruct (String.eqb k' k); simpl; [reflexivity|]. now rewrite IH.
Qed.

Lemma map_modify_In m k f k' v :
  In (k', v) (map_modify m k f) ->
  In (k', v) m \/ exists v0, In (k', v0) m /\ v = f v0.
Proof.
  induction m as [|[k0 v0] m IH]; simpl; [tauto|].
  destruct (String.eqb k0 k); simpl.
  - intros [[= <- <-]|H]; [right; exists v0; auto | left; auto].
  - intros [H|H]; [left; auto|].
    destruct (IH H) as [H'|[v1 [H1 H2]]]; [left; auto|right; exists v1; auto].
Qed.

Lemma map_modify_fixed m k f v :
  map_get m k = Some v -> f v = v -> map_modify m k f = m.
Proof.
  induction m as [|[k' v'] m IH]; simpl; [reflexivity|].
  destruct (String.eqb k' k).
  - intros [= ->] ->. reflexivity.
  - intros H1 H2. now rewrite IH.
Qed.

End Maps.

(* ================================================================== *)
(** * convertSheetToEvents *)
(* ================================================================== *)

Section Aggregation.

Lemma arr_includes_In arr x : arr_includes arr x = true <-> In x arr.
Proof.
  unfold arr_includes. rewrite existsb_exists. split.
  - intros [y [Hy E]]. apply String.eqb_eq in E. now subst.
  - intros H. exists x. split; [assumption|apply String.eqb_refl].
Qed.

Lemma pushNew_keeps arr x y : In y arr -> In y (pushNew arr x).
Proof.
  unfold pushNew. destruct (arr_includes arr x); simpl; [auto|].
  intros H. apply in_or_app. now left.
Qed.

Lemma pushNew_In arr x : In x (pushNew arr x).
Proof.
  unfold pushNew. destruct (arr_includes arr x) eqn:E; simpl.
  - now apply arr_includes_In.
  - apply in_or_app. right. now left.
Qed.

Lemma pushNew_NoDup arr x : NoDup arr -> NoDup (pushNew arr x).
Proof.
  intros H. unfold pushNew. destruct (arr_includes arr x) eqn:E; simpl.
  - assumption.
  - apply NoDup_app; [assumption|repeat constructor; intros []|].
    intros y Hy [<-|[]]. apply arr_includes_In in Hy. congruence.
Qed.

Lemma pushNew_present arr x : In x arr -> pushNew arr x = arr.
Proof.
  intros H. unfold pushNew. apply arr_includes_In in H. now rewrite H.
Qed.

Lemma addPerson_keeps a p a' p' e :
  In p' (people a' e) -> In p' (people a' (addPerson a p e)).
Proof.
  destruct a, a'; simpl; auto using pushNew_keeps.
Qed.

Lemma addPerson_In a p e : In p (people a (addPerson a p e)).
Proof. destruct a; simpl; apply pushNew_In. Qed.

Lemma addPerson_NoDup a p e :
  NoDup (scouts e) /\ NoDup (adults e) ->
  NoDup (scouts (addPerson a p e)) /\ NoDup (adults (addPerson a p e)).
Proof.
  intros [Hs Ha]. destruct a; simpl; auto using pushNew_NoDup.
Qed.

Lemma addPerson_present a p e : In p (people a e) -> addPerson a p e = e.
Proof.
  destruct e, a; simpl; intros H; rewrite pushNew_present; auto.
Qed.

Lemma addSignup_ok m i : eventsOk m -> eventsOk (addSignup m i).
Proof.
  intros Hm. unfold addSignup.
  destruct (truthy (eventName i) && truthy (startDate i) &&
            truthy (scoutName i)); [|assumption].
  set (k := eventKeyOf i).
  set (new := mkEvent _ _ _ _ [] []).
  assert (H1 : eventsOk (if negb (map_has m k) then map_set m k new else m)).
  { destruct (map_has m k) eqn:E; simpl; [assumption|].
    rewrite map_set_absent by assumption. destruct Hm as [Hk He]. split.
    - rewrite map_app. simpl. apply NoDup_app; [assumption| |].
      + repeat constructor. intros [].
      + intros y Hy [<-|[]]. now apply map_has_false in E.
    - intros k' e [H|[[= <- <-]|[]]]%in_app_or; [eauto|].
      simpl. split; constructor. }
  destruct (truthy (trim (scoutName i))); [|assumption].
  destruct H1 as [Hk He]. split.
  - now rewrite map_modify_keys.
  - intros k' e [H|[e0 [H ->]]]%map_modify_In; [eauto|].
    apply addPerson_NoDup. eauto.
Qed.

Lemma aggregate_ok infos : forall m,
  eventsOk m -> eventsOk (fold_left addSignup infos m).
Proof.
  induction infos as [|i infos IH]; intros m Hm; simpl; [assumption|].
  apply IH. now apply addSignup_ok.
Qed.

Lemma addSignup_keeps m i k a p :
  listed m k a p -> listed (addSignup m i) k a p.
Proof.
  intros [e [Hg Hp]]. unfold addSignup.
  destruct (truthy (eventName i) && truthy (startDate i) &&
            truthy (scoutName i)); [|now exists e].
  set (k0 := eventKeyOf i).
  set (new := mkEvent _ _ _ _ [] []).
  set (m1 := if negb (map_has m k0) then map_set m k0 new else m).
  assert (Hg1 : map_get m1 k = Some e).
  { unfold m1. destruct (map_has m k0) eqn:E; simpl; [assumption|].
    rewrite map_get_set_other; [assumption|].
    intros ->. apply map_get_has in Hg. congruence. }
  destruct (truthy (trim (scoutName i))); [|now exists e].
  destruct (string_dec k0 k) as [->|N].
  - eexists. rewrite map_get_modify_same, Hg1. split; [reflexivity|].
    now apply addPerson_keeps.
  - exists e. now rewrite map_get_modify_other.
Qed.

Lemma aggregate_keeps infos : forall m k a p,
  listed m k a p -> listed (fold_left addSignup infos m) k a p.
Proof.
  induction infos as [|i infos IH]; intros m k a p H; simpl; [assumption|].
  apply IH. now apply addSignup_keeps.
Qed.

Lemma addSignup_lists m i :
  validSignup i = true ->
  listed (addSignup m i) (eventKeyOf i) (isAdult i) (trim (scoutName i)).
Proof.
  unfold validSignup, addSignup. intros [Hv Ht]%andb_prop.
  rewrite Hv, Ht.
  set (k := eventKeyOf i).
  set (new := mkEvent _ _ _ _ [] []).
  set (m1 := if negb (map_has m k) then map_set m k new else m).
  assert (Hg1 : exists e, map_get m1 k = Some e).
  { unfold m1. destruct (map_has m k) eqn:E; simpl.
    - apply map_has_In in E. clear - E.
      induction m as [|[k' v'] m IH]; simpl in *; [contradiction|].
      destruct (String.eqb_spec k' k); [eauto|].
      apply IH. destruct E; [contradiction|assumption].
    - exists new. apply map_get_set_same. }
  destruct Hg1 as [e He]. eexists.
  rewrite map_get_modify_same, He. split; [reflexivity|].
  apply addPerson_In.
Qed.

Lemma aggregate_lists infos : forall m i,
  In i infos -> validSignup i = true ->
  listed (fold_left addSignup infos m) (eventKeyOf i) (isAdult i)
         (trim (scoutName i)).
Proof.
  induction infos as [|i0 infos IH]; intros m i Hin Hv; [destruct Hin|].
  destruct Hin as [->|Hin]; simpl.
  - apply aggregate_keeps. now apply addSignup_lists.
  - now apply IH.
Qed.

Lemma addSignup_noop m i :
  listed m (eventKeyOf i) (isAdult i) (trim (scoutName i)) ->
  addSignup m i = m.
Proof.
  intros [e [Hg Hp]]. unfold addSignup.
  destruct (truthy (eventName i) && truthy (startDate i) &&
            truthy (scoutName i)); [|reflexivity].
  rewrite (map_get_has _ _ Hg). simpl.
  destruct (truthy (trim (scoutName i))); [|reflexivity].
  apply map_modify_fixed with (v := e); [assumption|].
  now apply addPerson_present.
Qed.

(** C1 (as the code has it). [convertSheetToEvents] keeps one event
    record per aggregation key; within a record a name is kept at most
    once, names being compared exactly (as strings, case included) once
    trimmed; every valid signup is listed, trimmed, in the scouts or the
    adults set of the record of its key; and adding a signup whose
    trimmed name is already in that set changes nothing. *)
Theorem convertSheetToEvents_exact_dedup (sheetData : SheetData) :
  let infos := map (fun row => extractEventFromRow row (columns sheetData))
                   (rows sheetData) in
  let m := aggregate infos in
  convertSheetToEvents sheetData = map snd m /\
  NoDup (map fst m) /\
  (forall k e, In (k, e) m -> NoDup (scouts e) /\ NoDup (adults e)) /\
  (forall i, In i infos -> validSignup i = true ->
             listed m (eventKeyOf i) (isAdult i) (trim (scoutName i))) /\
  (forall i, listed m (eventKeyOf i) (isAdult i) (trim (scoutName i)) ->
             addSignup m i = m).
Proof.
  intros infos m.
  assert (Hok : eventsOk m).
  { apply aggregate_ok. split; [constructor|intros ? ? []]. }
  split; [reflexivity|]. split; [apply Hok|]. split; [apply Hok|].
  split.
  - intros i Hi Hv. now apply aggregate_lists.
  - apply addSignup_noop.
Qed.

End Aggregation.

Section AggregationExamples.

Lemma convertSheetToEvents_exact_dedup_witness :
  listed (aggregate (map (fun row => extractEventFromRow row sheetColumns0)
                         [janeRow; janeRowLower; janeRow]))
         "leaf center service project (2 pm - 4 pm)_2025-11-29_2025-11-29"
         false "jane doe".
Proof.
  apply (proj1 (proj2 (proj2 (proj2
           (convertSheetToEvents_exact_dedup
              (mkSheetData sheetColumns0 [janeRow; janeRowLower; janeRow]))))))
    with (i := extractEventFromRow janeRowLower sheetColumns0).
  - right. left. reflexivity.
  - reflexivity.
Defined.

(** C1 as stated fails: "Jane Doe" and "jane doe " for the same event
    and date give two entries of the scouts set, with the same
    normalized (lower-case, trimmed) form. *)
Lemma convertSheetToEvents_case_variants :
  convertSheetToEvents janeSheet = [leafCenter ["Jane Doe"; "jane doe"] []] /\
  "Jane Doe" <> "jane doe" /\
  trim (toLowerCase "Jane Doe") = trim (toLowerCase "jane doe").
Proof. split; [reflexivity|]. split; [discriminate|reflexivity]. Qed.

End AggregationExamples.

(* ================================================================== *)
(** * Past and future events; repeated ingestion *)
(* ================================================================== *)

Section Classification.

Variable parseDate : string -> option Z.
Variable startOfDay : Z -> Z.

Abbreviation isPast := (App.isPast parseDate startOfDay).
Abbreviation classify := (App.classify parseDate startOfDay).

Lemma classify_fold today : forall evs st,
  fold_left (classify today) evs st =
  mkAppState (futureEvents st ++ filter (fun e => negb (isPast today e)) evs)
             (pastEvents st ++ filter (isPast today) evs)
             (allScouts st) (selectedScout st).
Proof.
  induction evs as [|e evs IH]; intros st; simpl.
  - rewrite !app_nil_r. now destruct st.
  - rewrite IH. unfold App.classify.
    destruct (isPast today e); simpl; now rewrite <- ?app_assoc.
Qed.

Lemma filter_split {A} (p : A -> bool) (l : list A) :
  Permutation (filter p l ++ filter (fun x => negb (p x)) l) l.
Proof.
  induction l as [|x l IH]; simpl; [constructor|].
  destruct (p x); simpl.
  - now constructor.
  - apply Permutation_sym, Permutation_cons_app, Permutation_sym, IH.
Qed.

(** C4. The two lists built by [initializeApp] are the past events and
    the others, each in the order of the input: together they are a
    rearrangement of the input, an event is in the past list exactly
    when its date (end date, or start date when the end date is empty),
    taken at midnight, is before today, and in the future list
    otherwise; two events with the same date text are classified alike;
    an event whose date does not parse is a future event; and
    [isEventPast] answers false for a date that does not parse. *)
Theorem classification_partition (today : Z) (allEvents : list Event)
        (scoutList : list Identity) (sel : option string) :
  let st := fold_left (classify today) allEvents
                      (mkAppState [] [] scoutList sel) in
  pastEvents st = filter (isPast today) allEvents /\
  futureEvents st = filter (fun e => negb (isPast today e)) allEvents /\
  Permutation (pastEvents st ++ futureEvents st) allEvents /\
  (forall e, In e (pastEvents st) -> ~ In e (futureEvents st)) /\
  (forall e, isPast today e = true <->
             exists t, parseDate (or_else (ev_endDate e) (ev_startDate e))
                       = Some t /\ (startOfDay t < today)%Z) /\
  (forall e e', or_else (ev_endDate e) (ev_startDate e) =
                or_else (ev_endDate e') (ev_startDate e') ->
                isPast today e = isPast today e') /\
  (forall e, In e allEvents ->
             parseDate (or_else (ev_endDate e) (ev_startDate e)) = None ->
             In e (futureEvents st)) /\
  (forall d, parseDate d = None ->
             App.isEventPast parseDate today d = false).
Proof.
  intros st. unfold st. rewrite classify_fold. cbn [futureEvents pastEvents app].
  split; [reflexivity|]. split; [reflexivity|].
  split; [apply filter_split|]. split.
  { intros e [_ H1]%filter_In [_ H2]%filter_In. rewrite H1 in H2. discriminate. }
  split.
  { intros e. unfold App.isPast.
    destruct (parseDate (or_else (ev_endDate e) (ev_startDate e))) as [t|];
      simpl.
    - rewrite Z.ltb_lt. split; [eauto|]. now intros [t' [[= <-] H]].
    - split; [discriminate|]. now intros [t' [[=] _]]. }
  split.
  { intros e e' E. unfold App.isPast. now rewrite E. }
  split.
  { intros e Hin Hd. apply filter_In. split; [assumption|].
    unfold App.isPast. now rewrite Hd. }
  intros d Hd. unfold App.isEventPast. rewrite Hd.
  now destruct (negb (truthy d)).
Qed.

Variable V : Type.
Variable String_ : V -> string.

Abbreviation loadEvents := (App.loadEvents parseDate startOfDay).
Abbreviation initializeApp := (App.initializeApp parseDate startOfDay String_).

Lemma loadEvents_lists sheetData now st :
  loadEvents sheetData now st =
  let today := startOfDay now in
  let evs := convertSheetToEvents sheetData in
  let future := filter (fun e => negb (isPast today e)) evs in
  let past := filter (isPast today) evs in
  mkAppState future past (extractUniqueScouts future past) (selectedScout st).
Proof. unfold App.loadEvents. rewrite classify_fold. reflexivity. Qed.

(** C9. Ingestion starts from empty lists each time: the event lists
    (and the scout list) it leaves do not depend on the state it starts
    from, and running it a second time on the same table at the same
    time leaves the state of the first run unchanged. *)
Theorem initializeApp_idempotent (table : Table V) (now : Z)
        (st st' : AppState) :
  let r := initializeApp table now st in
  initializeApp table now r = r /\
  futureEvents (initializeApp table now st') = futureEvents r /\
  pastEvents (initializeApp table now st') = pastEvents r /\
  allScouts (initializeApp table now st') = allScouts r /\
  futureEvents r ++ pastEvents r =
    (let evs := convertSheetToEvents (parseSheetData String_ table) in
     filter (fun e => negb (isPast (startOfDay now) e)) evs ++
     filter (isPast (startOfDay now)) evs).
Proof.
  unfold App.initializeApp. rewrite !loadEvents_lists. cbn.
  repeat split; reflexivity.
Qed.

End Classification.

Section ClassificationExamples.

Lemma classification_partition_witness :
  let st := fold_left (App.classify parseIsoDate utcMidnight
                                    (utcMidnight december1st))
                      [leafCenter ["Jane Doe"] []; undated; campout]
                      (mkAppState [] [] [] None) in
  In undated (futureEvents st) /\
  pastEvents st = [leafCenter ["Jane Doe"] []].
Proof.
  pose proof (classification_partition parseIsoDate utcMidnight
                (utcMidnight december1st)
                [leafCenter ["Jane Doe"] []; undated; campout] [] None) as H.
  cbv zeta in H. split.
  - apply (proj1 (proj2 (proj2 (proj2 (proj2 (proj2 (proj2 H))))))).
    + right. left. reflexivity.
    + reflexivity.
  - rewrite (proj1 H). reflexivity.
Defined.

Example initializeApp_twice :
  let table := mkTable (map Some sheetColumns0)
                 [Some (map (fun kv => Some (snd kv)) janeRow)] in
  let run := App.initializeApp parseIsoDate utcMidnight (fun v : string => v)
                               table december1st in
  futureEvents (run (mkAppState [campout] [undated] [] None)) = [] /\
  pastEvents (run (run (mkAppState [campout] [undated] [] None))) =
  [leafCenter ["Jane Doe"] []].
Proof. vm_compute. split; reflexivity. Qed.

End ClassificationExamples.

(* ================================================================== *)
(** * extractUniqueScouts *)
(* ================================================================== *)

Section Identities.

Lemma trimStart_head s c r :
  trimStart s = String c r -> isWhiteSpace c = false.
Proof.
  induction s as [|d s IH]; simpl; [discriminate|].
  destruct (isWhiteSpace d) eqn:E; [exact IH|].
  now intros [= <- _].
Qed.

Lemma trimEnd_head c s :
  isWhiteSpace c = false -> exists r, trimEnd (String c s) = String c r.
Proof.
  intros H. cbn [trimEnd]. rewrite H. destruct (trimEnd s); eauto.
Qed.

Lemma trim_head s :
  truthy (trim s) = true ->
  exists c r, trim s = String c r /\ isWhiteSpace c = false.
Proof.
  unfold trim. destruct (trimStart s) as [|c r] eqn:E; [discriminate|].
  intros _. pose proof (@trimStart_head s c r E) as Hc.
  destruct (@trimEnd_head c r Hc) as [r' ->]. eauto.
Qed.

Lemma split_ws_nonempty s : split_ws s <> [].
Proof.
  induction s as [|c s IH]; simpl; [discriminate|].
  destruct (isWhiteSpace c).
  - destruct s as [|c' s']; [discriminate|].
    destruct (isWhiteSpace c'); [exact IH|discriminate].
  - destruct (split_ws s); discriminate.
Qed.

Lemma split_ws_tokens s :
  Forall (fun t => noWhiteSpace t = true) (split_ws s).
Proof.
  induction s as [|c s IH]; cbn [split_ws].
  - repeat constructor.
  - destruct (isWhiteSpace c) eqn:E.
    + destruct s as [|c' s']; [repeat constructor|].
      destruct (isWhiteSpace c'); [exact IH|]. constructor; [reflexivity|exact IH].
    + destruct (split_ws s) as [|t ts].
      * repeat constructor. simpl. now rewrite E.
      * inversion IH; subst. constructor; [|assumption].
        simpl. now rewrite E.
Qed.

Lemma split_ws_first c s :
  isWhiteSpace c = false ->
  exists t, hd "" (split_ws (String c s)) = String c t.
Proof.
  intros H. cbn [split_ws]. rewrite H. destruct (split_ws s); simpl; eauto.
Qed.

Lemma addEventScouts_fold evs : forall m,
  fold_left addEventScouts evs m =
  fold_left addScout (flat_map scouts evs) m.
Proof.
  induction evs as [|e evs IH]; intros m; simpl; [reflexivity|].
  rewrite fold_left_app. apply IH.
Qed.

Lemma addScout_entry m s :
  addScout m s =
  if truthy (trim s) then
    if map_has m (toLowerCase (trim s)) then m
    else m ++ [(toLowerCase (trim s), identityOf (trim s))]
  else m.
Proof.
  unfold addScout. destruct (truthy (trim s)); [|reflexivity].
  destruct (map_has m (toLowerCase (trim s))) eqn:E; simpl; [reflexivity|].
  rewrite map_set_absent by assumption. unfold identityOf.
  do 4 f_equal.
  - destruct (split_ws (trim s)) as [|t ts]; simpl; [reflexivity|].
    unfold or_else. now destruct t.
  - unfold or_else. now destruct (join_sp (tl (split_ws (trim s)))).
Qed.

Lemma existsb_eqb_In k l : existsb (String.eqb k) l = true <-> In k l.
Proof.
  rewrite existsb_exists. split.
  - intros [y [Hy E]]. apply String.eqb_eq in E. now subst.
  - intros H. exists k. split; [assumption|apply String.eqb_refl].
Qed.

Lemma existsb_same_members k l l' :
  (forall x, In x l <-> In x l') ->
  existsb (String.eqb k) l = existsb (String.eqb k) l'.
Proof.
  intros H. apply eq_true_iff_eq. rewrite !existsb_eqb_In. apply H.
Qed.

Lemma addScout_fold all : forall (m : JSMap Identity) seen,
  (forall k, In k seen <-> In k (map fst m)) ->
  fold_left addScout all m =
  m ++ map (fun n => (toLowerCase n, identityOf n))
           (firstSeen seen (filter truthy (map trim all))).
Proof.
  induction all as [|s all IH]; intros m seen Hseen; simpl.
  - now rewrite app_nil_r.
  - rewrite addScout_entry.
    destruct (truthy (trim s)) eqn:Et; [|now apply IH].
    cbn [firstSeen].
    assert (Eh : map_has m (toLowerCase (trim s)) =
                 existsb (String.eqb (toLowerCase (trim s))) seen).
    { apply eq_true_iff_eq. rewrite map_has_In, existsb_eqb_In.
      symmetry. apply Hseen. }
    rewrite <- Eh. destruct (map_has m (toLowerCase (trim s))).
    + now apply IH.
    + rewrite (IH _ (toLowerCase (trim s) :: seen)).
      * now rewrite <- app_assoc.
      * intros k. rewrite map_app, in_app_iff. simpl. rewrite <- Hseen. tauto.
Qed.

Lemma firstSeen_In seen names x :
  In x (firstSeen seen names) -> In x names /\ ~ In (toLowerCase x) seen.
Proof.
  revert seen. induction names as [|n names IH]; intros seen; simpl; [tauto|].
  destruct (existsb (String.eqb (toLowerCase n)) seen) eqn:E.
  - intros H. destruct (IH _ H). tauto.
  - intros [<-|H].
    + split; [now left|]. rewrite <- existsb_eqb_In. congruence.
    + destruct (IH _ H) as [H1 H2]. split; [now right|].
      intros H3. apply H2. now right.
Qed.

Lemma firstSeen_NoDup names : forall seen,
  NoDup (map toLowerCase (firstSeen seen names)).
Proof.
  induction names as [|n names IH]; intros seen; simpl; [constructor|].
  destruct (existsb (String.eqb (toLowerCase n)) seen); [apply IH|].
  simpl. constructor; [|apply IH].
  intros [x [Hx Hin]]%in_map_iff. apply firstSeen_In in Hin.
  destruct Hin as [_ Hin]. apply Hin. left. now symmetry.
Qed.

Lemma firstSeen_covers names : forall seen n,
  In n names ->
  In (toLowerCase n) seen \/
  exists x, In x (firstSeen seen names) /\ toLowerCase x = toLowerCase n.
Proof.
  induction names as [|n0 names IH]; intros seen n; simpl; [tauto|].
  destruct (existsb (String.eqb (toLowerCase n0)) seen) eqn:E.
  - intros [->|H]; [left; now apply existsb_eqb_In|].
    destruct (IH seen n H) as [H1|[x [H1 H2]]]; [now left|right; eauto].
  - intros [->|H]; [right; exists n; split; [now left|reflexivity]|].
    destruct (IH (toLowerCase n0 :: seen) n H) as [[H1|H1]|[x [H1 H2]]].
    + right. exists n0. split; [now left|assumption].
    + now left.
    + right. exists x. split; [now right|assumption].
Qed.

Lemma extractUniqueScouts_firstSeen future past :
  extractUniqueScouts future past =
  map identityOf (firstSeen [] (scoutNames (future ++ past))).
Proof.
  unfold extractUniqueScouts, map_values, scoutNames.
  rewrite <- fold_left_app, addEventScouts_fold.
  rewrite (addScout_fold _ [] []) by reflexivity.
  simpl. rewrite map_map. reflexivity.
Qed.

Lemma scoutNames_origin evs n :
  In n (scoutNames evs) <->
  truthy n = true /\ exists e s, In e evs /\ In s (scouts e) /\ n = trim s.
Proof.
  unfold scoutNames. rewrite filter_In, in_map_iff. split.
  - intros [[s [<- Hs]] Ht]. apply in_flat_map in Hs.
    destruct Hs as [e [He Hs]]. split; [assumption|]. now exists e, s.
  - intros [Ht [e [s [He [Hs ->]]]]]. split; [|assumption].
    exists s. split; [reflexivity|]. apply in_flat_map. now exists e.
Qed.

(** C8. The scouts extracted from the two event lists are the records of
    the first spelling (trimmed) met for each lower-case key, in the
    order met: no two records share their key, every non-blank name of a
    scouts set has the record of its key, every record is the one of a
    trimmed name taken from the scouts set of some event, its first name
    is the first white-space token of that name (not empty, without
    white space) and its last name the other tokens joined by single
    spaces; the adults sets play no part. *)
Theorem extractUniqueScouts_spec (future past : list Event) :
  let names := scoutNames (future ++ past) in
  let ids := extractUniqueScouts future past in
  ids = map identityOf (firstSeen [] names) /\
  NoDup (map normalized ids) /\
  (forall n, In n names ->
             exists r, In r ids /\ normalized r = toLowerCase n) /\
  (forall r, In r ids ->
     (exists e s, In e (future ++ past) /\ In s (scouts e) /\
                  fullName r = trim s) /\
     normalized r = toLowerCase (fullName r) /\
     firstName r = hd "" (split_ws (fullName r)) /\
     lastName r = join_sp (tl (split_ws (fullName r))) /\
     truthy (firstName r) = true /\ noWhiteSpace (firstName r) = true) /\
  (forall future' past',
     map scouts future' = map scouts future ->
     map scouts past' = map scouts past ->
     extractUniqueScouts future' past' = ids).
Proof.
  intros names ids. unfold ids. rewrite extractUniqueScouts_firstSeen.
  fold names. split; [reflexivity|]. split.
  { rewrite map_map. apply (firstSeen_NoDup names []). }
  split.
  { intros n Hn. destruct (firstSeen_covers names [] n Hn) as [[]|[x [H1 H2]]].
    exists (identityOf x). split; [now apply in_map|exact H2]. }
  split.
  { intros r [x [<- Hx]]%in_map_iff. apply firstSeen_In in Hx.
    destruct Hx as [Hx _]. apply scoutNames_origin in Hx.
    destruct Hx as [Ht [e [s [He [Hs ->]]]]]. cbn [identityOf fullName
      normalized firstName lastName].
    split; [now exists e, s|]. repeat split.
    - destruct (@trim_head s Ht) as [c [r [-> Hc]]].
      destruct (@split_ws_first c r Hc) as [t ->]. reflexivity.
    - pose proof (split_ws_tokens (trim s)) as H.
      pose proof (split_ws_nonempty (trim s)) as N.
      destruct (split_ws (trim s)); [contradiction|]. now inversion H. }
  intros future' past' Hf Hp. rewrite extractUniqueScouts_firstSeen.
  unfold names, scoutNames. do 4 f_equal.
  rewrite !flat_map_concat_map, !map_app. congruence.
Qed.

End Identities.

Section IdentitiesExamples.

Example extractUniqueScouts_sample :
  extractUniqueScouts
    [mkEvent "Winter Campout" "2025-12-13" "2025-12-13" Camping
             ["Jon  van Smith"; "Cher"] ["Ann Lee"]]
    [leafCenter [" jon  VAN smith "; "Jane Doe"] ["Ann Lee"; "Bob Ray"]] =
  [mkIdentity "Jon  van Smith" "Jon" "van Smith" "jon  van smith";
   mkIdentity "Cher" "Cher" "" "cher";
   mkIdentity "Jane Doe" "Jane" "Doe" "jane doe"].
Proof. reflexivity. Qed.

Lemma extractUniqueScouts_spec_witness :
  exists r, In r (extractUniqueScouts [campout] [leafCenter ["Jane Doe"] []])
            /\ normalized r = "jane doe".
Proof.
  refine (proj1 (proj2 (proj2
            (extractUniqueScouts_spec [campout] [leafCenter ["Jane Doe"] []])))
            "Jane Doe" _).
  right. left. reflexivity.
Defined.

End IdentitiesExamples.

(* ================================================================== *)
(** * searchScouts *)
(* ================================================================== *)

Section Substrings.

Local Open Scope string_scope.

Lemma append_assoc (a b c : string) : (a ++ b) ++ c = a ++ b ++ c.
Proof. induction a as [|x a IH]; simpl; [reflexivity|now rewrite IH]. Qed.

Lemma toLowerCase_app (a b : string) :
  toLowerCase (a ++ b) = toLowerCase a ++ toLowerCase b.
Proof. induction a as [|x a IH]; simpl; [reflexivity|now rewrite IH]. Qed.

Lemma startsWith_iff (s t : string) :
  startsWith s t = true <-> exists b, s = t ++ b.
Proof.
  revert s. induction t as [|d t IH]; intros s; simpl.
  - split; [intros _; now exists s|now destruct s].
  - destruct s as [|c s].
    + split; [discriminate|]. now intros [b [=]].
    + cbn [startsWith]. rewrite andb_true_iff, IH. split.
      * intros [E%Ascii.eqb_eq [b ->]]. subst. now exists b.
      * intros [b [= -> ->]]. rewrite Ascii.eqb_refl. eauto.
Qed.

Lemma includes_iff (s t : string) :
  includes s t = true <-> exists a b, s = a ++ t ++ b.
Proof.
  induction s as [|c s IH].
  - simpl. rewrite orb_false_r. split.
    + destruct t; [|discriminate]. intros _. now exists "", "".
    + intros [a [b E]]. destruct a; [|discriminate]. now destruct t.
  - cbn [includes]. rewrite orb_true_iff, IH, startsWith_iff. split.
    + intros [[b E]|[a [b ->]]].
      * now exists "", b.
      * now exists (String c a), b.
    + intros [a [b E]]. destruct a as [|x a].
      * left. now exists b.
      * right. injection E as -> ->. now exists a, b.
Qed.

Lemma trimStart_split (s : string) : exists a, s = a ++ trimStart s.
Proof.
  induction s as [|c s [a IH]]; simpl.
  - now exists "".
  - destruct (isWhiteSpace c).
    + exists (String c a). simpl. now rewrite <- IH.
    + now exists "".
Qed.

Lemma trimEnd_split (s : string) : exists b, s = trimEnd s ++ b.
Proof.
  induction s as [|c s [b IH]]; cbn [trimEnd].
  - now exists "".
  - destruct (trimEnd s) as [|x r] eqn:E.
    + destruct (isWhiteSpace c).
      * now exists (String c s).
      * exists s. reflexivity.
    + exists b. simpl. simpl in IH. now rewrite <- IH.
Qed.

Lemma trim_split (s : string) : exists a b, s = a ++ trim s ++ b.
Proof.
  destruct (trimStart_split s) as [a Ha].
  destruct (trimEnd_split (trimStart s)) as [b Hb].
  exists a, b. unfold trim. now rewrite <- Hb.
Qed.

(** What contains the query, lower-cased, contains the search term. *)
Lemma includes_searchTerm (name query : string) :
  includes name (toLowerCase query) = true ->
  includes name (toLowerCase (trim query)) = true.
Proof.
  rewrite !includes_iff. intros [x [y ->]].
  destruct (trim_split query) as [a [b E]].
  exists (x ++ toLowerCase a), (toLowerCase b ++ y).
  rewrite E at 1. rewrite !toLowerCase_app, !append_assoc. reflexivity.
Qed.

Lemma trim_truthy (s : string) : truthy (trim s) = true -> truthy s = true.
Proof. now destruct s. Qed.

End Substrings.

Section Scores.

Local Open Scope Q_scope.

Lemma Qgtb_lt x y : Qgtb x y = true <-> y < x.
Proof.
  unfold Qgtb. rewrite negb_true_iff. split.
  - intros H. apply Qnot_le_lt. intros H'. apply Qle_bool_iff in H'. congruence.
  - intros H. destruct (Qle_bool x y) eqn:E; [|reflexivity].
    apply Qle_bool_iff in E. lra.
Qed.

Lemma maxOf_from (l : list Q) : forall a,
  a <= fold_left Qmax l a /\
  (forall x, In x l -> x <= fold_left Qmax l a) /\
  (fold_left Qmax l a = a \/ In (fold_left Qmax l a) l).
Proof.
  induction l as [|y l IH]; intros a; simpl.
  - split; [lra|]. split; [tauto|now left].
  - destruct (IH (Qmax a y)) as [H1 [H2 H3]].
    pose proof (Q.le_max_l a y). pose proof (Q.le_max_r a y).
    split; [lra|]. split.
    + intros x [<-|Hx]; [lra|auto].
    + destruct H3 as [H3|H3]; [|right; now right].
      rewrite H3. unfold Qmax, GenericMinMax.gmax.
      destruct (a ?= y); [now left|right; now left|now left].
Qed.

Lemma scoutScore_maxOf term r : scoutScore term r = maxOf (candidates term r).
Proof.
  unfold scoutScore, maxOf, candidates, contribution, queryInName.
  destruct (Qgtb (calculateSimilarity (fullName r) term) (3 # 10));
  destruct (Qgtb (calculateSimilarity (firstName r) term) (3 # 10));
  destruct (Qgtb (calculateSimilarity (lastName r) term) (3 # 10));
  destruct (includes (toLowerCase (fullName r)) term ||
            includes (toLowerCase (firstName r)) term ||
            includes (toLowerCase (lastName r)) term); reflexivity.
Qed.

Lemma scoredResults_filter term corpus :
  scoredResults term corpus =
  map (fun r => (r, scoutScore term r))
      (filter (fun r => Qgtb (scoutScore term r) (3 # 10)) corpus).
Proof.
  unfold scoredResults.
  enough (H : forall acc, fold_left (addResult term) corpus acc =
            (acc ++ map (fun r => (r, scoutScore term r))
               (filter (fun r => Qgtb (scoutScore term r) (3 # 10)) corpus))%list)
    by apply (H []).
  induction corpus as [|r corpus IH]; intros acc; simpl.
  - now rewrite app_nil_r.
  - rewrite IH. unfold addResult.
    destruct (Qgtb (scoutScore term r) (3 # 10)); simpl;
      now rewrite <- ?app_assoc.
Qed.

Lemma sort_insert_perm {A} (cmp : A -> A -> Q) x l :
  Permutation (sort_insert cmp x l) (x :: l).
Proof.
  induction l as [|y l IH]; simpl; [reflexivity|].
  destruct (Qle_bool (cmp x y) 0); [reflexivity|].
  rewrite IH. apply perm_swap.
Qed.

Lemma sort_perm {A} (cmp : A -> A -> Q) l : Permutation (sort cmp l) l.
Proof.
  induction l as [|x l IH]; simpl; [reflexivity|].
  rewrite sort_insert_perm. now constructor.
Qed.

Lemma byScore_le x y : Qle_bool (byScore x y) 0 = true <-> desc x y.
Proof. rewrite Qle_bool_iff. unfold byScore, desc. split; intros; lra. Qed.

Lemma sort_insert_sorted x l :
  StronglySorted desc l -> StronglySorted desc (sort_insert byScore x l).
Proof.
  induction 1 as [|y l Hl IH Hy]; simpl.
  - repeat constructor.
  - destruct (Qle_bool (byScore x y) 0) eqn:E.
    + apply byScore_le in E. constructor; [now constructor|].
      constructor; [assumption|].
      eapply Forall_impl; [|exact Hy]. unfold desc in *. intros; lra.
    + constructor; [assumption|].
      rewrite sort_insert_perm. constructor; [|assumption].
      destruct (Qle_bool (byScore x y) 0) eqn:E'; [discriminate|].
      assert (~ desc x y) by (rewrite <- byScore_le; congruence).
      unfold desc in *. lra.
Qed.

Lemma sort_sorted l : StronglySorted desc (sort byScore l).
Proof.
  induction l as [|x l IH]; simpl; [constructor|].
  now apply sort_insert_sorted.
Qed.

(** Stability: results with one score keep their order. *)
Lemma sort_insert_stable s x l :
  filter (fun e => Qeq_bool (snd e) s) (sort_insert byScore x l) =
  filter (fun e => Qeq_bool (snd e) s) (x :: l).
Proof.
  induction l as [|y l IH]; [reflexivity|].
  cbn [sort_insert]. destruct (Qle_bool (byScore x y) 0) eqn:E; [reflexivity|].
  cbn [filter] in *. rewrite IH.
  destruct (Qeq_bool (snd x) s) eqn:Ex, (Qeq_bool (snd y) s) eqn:Ey;
    try reflexivity.
  apply Qeq_bool_iff in Ex, Ey.
  assert (desc x y) by (unfold desc; lra).
  apply byScore_le in H. congruence.
Qed.

Lemma sort_stable s l :
  filter (fun e => Qeq_bool (snd e) s) (sort byScore l) =
  filter (fun e => Qeq_bool (snd e) s) l.
Proof.
  induction l as [|x l IH]; [reflexivity|].
  cbn [sort fold_right]. fold (sort byScore l).
  rewrite sort_insert_stable. cbn [filter]. now rewrite IH.
Qed.

Lemma filter_by_score (score : Identity -> Q) (q : Q -> bool) l :
  Forall (fun e => snd e = score (fst e)) l ->
  filter (fun r => q (score r)) (map fst l) =
  map fst (filter (fun e => q (snd e)) l).
Proof.
  induction 1 as [|e l He Hl IH]; simpl; [reflexivity|].
  rewrite <- He, IH. now destruct (q (snd e)).
Qed.

Lemma sorted_by_score (score : Identity -> Q) l :
  Forall (fun e => snd e = score (fst e)) l ->
  StronglySorted desc l ->
  StronglySorted (fun a b => score b <= score a) (map fst l).
Proof.
  intros Hs H. induction H as [|e l Hl IH He]; simpl; [constructor|].
  inversion Hs as [|? ? Hse Hsl]; subst.
  constructor; [now apply IH|].
  rewrite Forall_map. rewrite Forall_forall in *.
  intros b Hb. rewrite <- Hse, <- (Hsl b Hb). now apply He.
Qed.

Lemma scored_pairs term corpus :
  Forall (fun e => snd e = scoutScore term (fst e))
         (sort byScore (scoredResults term corpus)).
Proof.
  rewrite Forall_forall. intros e He.
  apply (Permutation_in _ (sort_perm byScore _)) in He.
  rewrite scoredResults_filter in He. apply in_map_iff in He.
  now destruct He as [r [<- _]].
Qed.

Lemma searchScouts_searched query corpus :
  truthy (trim query) = true ->
  searchScouts query corpus =
  map fst (sort byScore (scoredResults (toLowerCase (trim query)) corpus)).
Proof.
  intros H. unfold searchScouts. rewrite H, (trim_truthy _ H). simpl.
  destruct corpus; reflexivity.
Qed.

Lemma searchScouts_blank query corpus :
  truthy (trim query) = false -> searchScouts query corpus = [].
Proof.
  intros H. unfold searchScouts. rewrite H. now rewrite orb_true_r.
Qed.

End Scores.

Section SearchExamples.

Local Open Scope Q_scope.

Example searchScouts_smith :
  map fullName (searchScouts " Smith" smiths) =
  ["Smith"; "Al Smith"; "Bo Smith"]%list /\
  map (scoutScore "smith") smiths = [9 # 10; 0; 9 # 10; 1]%list.
Proof. vm_compute. split; reflexivity. Qed.

Example searchScouts_jon_sith :
  map fullName (searchScouts "jon sith" jons) = ["Jon Smith"; "John Smyth"]%list /\
  scoutScore "jon sith" (nth 0 jons (identityOf "")) == 7 # 10 /\
  scoutScore "jon sith" (nth 1 jons (identityOf "")) == 8 # 9.
Proof. vm_compute. repeat split. Qed.

End SearchExamples.

(* ================================================================== *)
(** * More on strings: case and white space *)
(* ================================================================== *)

Section StringFacts.

Local Open Scope string_scope.

Lemma isWhiteSpace_toLowerChar c :
  isWhiteSpace (toLowerChar c) = isWhiteSpace c.
Proof. destruct c as [[] [] [] [] [] [] [] []]; reflexivity. Qed.

Lemma toLowerChar_idem c : toLowerChar (toLowerChar c) = toLowerChar c.
Proof. destruct c as [[] [] [] [] [] [] [] []]; reflexivity. Qed.

Lemma toLowerCase_idem s : toLowerCase (toLowerCase s) = toLowerCase s.
Proof.
  induction s as [|c s IH]; simpl; [reflexivity|].
  now rewrite toLowerChar_idem, IH.
Qed.

Lemma truthy_toLowerCase s : truthy (toLowerCase s) = truthy s.
Proof. now destruct s. Qed.

Lemma toLowerCase_trimStart s :
  toLowerCase (trimStart s) = trimStart (toLowerCase s).
Proof.
  induction s as [|c s IH]; simpl; [reflexivity|].
  rewrite isWhiteSpace_toLowerChar. now destruct (isWhiteSpace c).
Qed.

Lemma toLowerCase_trimEnd s :
  toLowerCase (trimEnd s) = trimEnd (toLowerCase s).
Proof.
  induction s as [|c s IH]; cbn [trimEnd toLowerCase]; [reflexivity|].
  rewrite <- IH, isWhiteSpace_toLowerChar.
  destruct (trimEnd s); simpl; [|reflexivity].
  now destruct (isWhiteSpace c).
Qed.

Lemma toLowerCase_trim s : toLowerCase (trim s) = trim (toLowerCase s).
Proof. unfold trim. now rewrite toLowerCase_trimEnd, toLowerCase_trimStart. Qed.

Lemma trimEnd_idem s : trimEnd (trimEnd s) = trimEnd s.
Proof.
  induction s as [|c s IH]; cbn [trimEnd]; [reflexivity|].
  destruct (trimEnd s) as [|x r] eqn:E.
  - destruct (isWhiteSpace c) eqn:W; cbn [trimEnd]; [reflexivity|].
    now rewrite W.
  - cbn [trimEnd] in *. now rewrite IH.
Qed.

Lemma trimStart_clean s :
  match s with
  | EmptyString => True
  | String c _ => isWhiteSpace c = false
  end -> trimStart s = s.
Proof. destruct s as [|c s]; simpl; [reflexivity|]. now intros ->. Qed.

Lemma trimStart_idem s : trimStart (trimStart s) = trimStart s.
Proof.
  apply trimStart_clean. destruct (trimStart s) eqn:E; [exact I|].
  exact (trimStart_head _ E).
Qed.

Lemma trim_idem s : trim (trim s) = trim s.
Proof.
  unfold trim. set (t := trimStart s).
  assert (Ht : trimStart (trimEnd t) = trimEnd t).
  { apply trimStart_clean. destruct t as [|c r] eqn:E; [exact I|].
    pose proof (@trimStart_head s c r E) as Hc.
    destruct (@trimEnd_head c r Hc) as [r' ->]. exact Hc. }
  now rewrite Ht, trimEnd_idem.
Qed.

Lemma list_ascii_inj s t :
  list_ascii_of_string s = list_ascii_of_string t -> s = t.
Proof.
  intros H. rewrite <- (string_of_list_ascii_of_string s),
              <- (string_of_list_ascii_of_string t). now rewrite H.
Qed.

End StringFacts.

(* ================================================================== *)
(** * More on the edit distance and on calculateSimilarity *)
(* ================================================================== *)

Section SimilarityFacts.

Lemma lev_refl a : lev a a = 0.
Proof.
  induction a as [|x a IH]; [reflexivity|].
  rewrite lev_cons_cons, IH, Ascii.eqb_refl. unfold min3. lia.
Qed.

Lemma lev_zero a : forall b, lev a b = 0 -> a = b.
Proof.
  induction a as [|x a IH]; intros b.
  - destruct b; simpl; [reflexivity|discriminate].
  - destruct b as [|y b]; [discriminate|].
    rewrite lev_cons_cons. unfold min3. intros H.
    destruct (Ascii.eqb_spec x y) as [->|N]; [|lia].
    f_equal. apply IH. lia.
Qed.

Lemma lev_lengths a : forall b,
  List.length a <= lev a b + List.length b /\
  List.length b <= lev a b + List.length a.
Proof.
  induction a as [|x a IHa]; intros b.
  - simpl. lia.
  - induction b as [|y b IHb].
    + simpl. lia.
    + rewrite lev_cons_cons. unfold min3.
      pose proof (IHa (y :: b)). pose proof (IHa b).
      cbn [List.length] in *. destruct (Ascii.eqb x y); lia.
Qed.

Lemma distance_zero s1 s2 : distance s1 s2 = 0 -> s1 = s2.
Proof.
  rewrite distance_lev. intros H%lev_zero.
  rewrite <- (rev_involutive s1), H. apply rev_involutive.
Qed.

(** X1. The number read from the matrix is 0 exactly for equal
    strings, it is the length of the other string when one is empty,
    and it lies between the difference of the lengths and the greater
    length. *)
Theorem distance_facts (s1 s2 : list ascii) :
  (distance s1 s2 = 0 <-> s1 = s2) /\
  distance s1 [] = List.length s1 /\
  distance [] s2 = List.length s2 /\
  List.length s1 - List.length s2 <= distance s1 s2 /\
  List.length s2 - List.length s1 <= distance s1 s2 /\
  distance s1 s2 <= Nat.max (List.length s1) (List.length s2).
Proof.
  split; [split; [apply distance_zero|]|].
  { intros ->. rewrite distance_lev. apply lev_refl. }
  rewrite !distance_lev. split; [|split].
  - simpl. now rewrite lev_nil_r, length_rev.
  - simpl. now rewrite length_rev.
  - pose proof (lev_lengths (rev s1) (rev s2)) as H.
    pose proof (lev_le_max (rev s1) (rev s2)) as H'.
    rewrite !length_rev in *. lia.
Qed.

Local Open Scope Q_scope.

Lemma ratio_lt_1 d m : (0 < d)%nat -> (0 < m)%nat ->
  ~ 1 - Qnat d / Qnat m == 1.
Proof.
  intros Hd Hm. unfold Qnat.
  assert (H : 0 < inject_Z (Z.of_nat d) / inject_Z (Z.of_nat m)).
  { apply Qlt_shift_div_l.
    - change 0 with (inject_Z 0). rewrite <- Zlt_Qlt. lia.
    - rewrite Qmult_0_l. change 0 with (inject_Z 0). rewrite <- Zlt_Qlt. lia. }
  intros E. lra.
Qed.

(** X2. The score is 1 exactly when both strings are non-empty and
    equal once lower-cased and trimmed. *)
Theorem calculateSimilarity_one (a b : string) :
  calculateSimilarity a b == 1 <->
  truthy a = true /\ truthy b = true /\
  trim (toLowerCase a) = trim (toLowerCase b).
Proof.
  assert (Z01 : ~ 0 == 1) by (intros H; discriminate H).
  unfold calculateSimilarity.
  destruct (truthy a).
  2:{ split; [intros H; contradiction|intros [? _]; discriminate]. }
  destruct (truthy b).
  2:{ split; [intros H; contradiction|intros [_ [? _]]; discriminate]. }
  change (negb true || negb true) with false. cbv iota.
  set (s1 := trim (toLowerCase a)). set (s2 := trim (toLowerCase b)).
  destruct (String.eqb_spec s1 s2) as [E|N].
  { split; [auto|reflexivity]. }
  assert (R : forall q : Q, ~ q == 1 ->
              (q == 1 <-> true = true /\ true = true /\ s1 = s2)).
  { intros q Hq. split; [contradiction|]. intros [_ [_ ?]]. contradiction. }
  destruct (includes s1 s2 || includes s2 s1).
  { apply R. intros H. discriminate H. }
  destruct (Nat.eqb_spec (String.length s1) 0) as [E1|N1].
  { destruct (Nat.eqb_spec (String.length s2) 0) as [E2|N2].
    - exfalso. apply N. destruct s1, s2; try discriminate. reflexivity.
    - apply R. exact Z01. }
  destruct (Nat.eqb_spec (String.length s2) 0) as [E2|N2].
  { apply R. exact Z01. }
  apply R. apply ratio_lt_1; [|lia].
  destruct (distance (list_ascii_of_string s1) (list_ascii_of_string s2))
    eqn:D; [|lia].
  exfalso. apply N. apply list_ascii_inj. now apply distance_zero.
Qed.

End SimilarityFacts.

Section SearchFacts.

Local Open Scope Q_scope.

Lemma includes_empty s : includes s "" = true.
Proof. now destruct s. Qed.

(** X3. A non-empty string made of white space only scores 0.8 against
    every string that is not blank, in either order, and 1 against
    another such string; the tests on the lengths, which would give 0,
    come too late for it. *)
Theorem calculateSimilarity_blank (a b : string) :
  truthy a = true -> truthy b = true -> trim (toLowerCase a) = "" ->
  (trim (toLowerCase b) <> "" ->
   calculateSimilarity a b = 8 # 10 /\ calculateSimilarity b a = 8 # 10) /\
  (trim (toLowerCase b) = "" -> calculateSimilarity a b = 1).
Proof.
  intros Ha Hb Ea. unfold calculateSimilarity. rewrite Ha, Hb, Ea.
  cbn [negb orb]. split.
  - intros Nb. destruct (trim (toLowerCase b)) as [|c s]; [congruence|].
    cbn [String.eqb]. now rewrite includes_empty, orb_true_r.
  - intros ->. reflexivity.
Qed.

Lemma calculateSimilarity_blank_witness :
  calculateSimilarity " " "Jane" = 8 # 10 /\
  calculateSimilarity "Jane" " " = 8 # 10.
Proof.
  apply (proj1 (calculateSimilarity_blank " " "Jane" eq_refl eq_refl eq_refl)).
  discriminate.
Defined.

Lemma candidates_range term r x :
  In x (candidates term r) -> 0 <= x <= 1.
Proof.
  unfold candidates, contribution. rewrite !in_app_iff.
  pose proof (calculateSimilarity_range (fullName r) term).
  pose proof (calculateSimilarity_range (firstName r) term).
  pose proof (calculateSimilarity_range (lastName r) term).
  intros [H'|[H'|[H'|H']]];
    repeat match goal with
           | H : In _ (if ?c then _ else _) |- _ => destruct c
           | H : In _ [_] |- _ => destruct H as [<-|[]]
           | H : In _ [] |- _ => destruct H
           end; lra.
Qed.

Lemma scoutScore_bounds term r : 0 <= scoutScore term r <= 1.
Proof.
  rewrite scoutScore_maxOf. unfold maxOf.
  destruct (maxOf_from (candidates term r) 0) as [H1 [_ [H3|H3]]].
  - rewrite H3. lra.
  - now apply candidates_range in H3.
Qed.

(** X4. Whatever the search term and the identity, the score computed
    by [searchScouts] lies between 0 and 1. *)
Theorem scoutScore_range (searchTerm : string) (scout : Identity) :
  0 <= scoutScore searchTerm scout <= 1.
Proof. apply scoutScore_bounds. Qed.

Lemma searchScouts_In query corpus r :
  In r (searchScouts query corpus) <->
  truthy (trim query) = true /\ In r corpus /\
  3 # 10 < scoutScore (toLowerCase (trim query)) r.
Proof.
  destruct (truthy (trim query)) eqn:E.
  - rewrite searchScouts_searched by assumption. split.
    + intros H. apply (Permutation_in _ (Permutation_map fst
                         (sort_perm byScore _))) in H.
      rewrite scoredResults_filter, map_map in H. simpl in H.
      rewrite map_id in H. apply filter_In in H.
      destruct H as [H1 H2]. apply Qgtb_lt in H2. auto.
    + intros [_ [H1 H2]].
      apply (Permutation_in _ (Permutation_sym (Permutation_map fst
               (sort_perm byScore _)))).
      rewrite scoredResults_filter, map_map. simpl. rewrite map_id.
      apply filter_In. split; [assumption|now apply Qgtb_lt].
  - rewrite searchScouts_blank by assumption. simpl. split; [tauto|].
    intros [H _]. discriminate.
Qed.

Lemma searchScouts_desc query corpus :
  StronglySorted
    (fun a b => scoutScore (toLowerCase (trim query)) b <=
                scoutScore (toLowerCase (trim query)) a)
    (searchScouts query corpus).
Proof.
  destruct (truthy (trim query)) eqn:E.
  - rewrite searchScouts_searched by assumption.
    apply sorted_by_score; [apply scored_pairs|apply sort_sorted].
  - rewrite searchScouts_blank by assumption. constructor.
Qed.

Lemma search_finds q corpus r :
  In r corpus -> truthy (trim q) = true -> truthy (fullName r) = true ->
  trim (toLowerCase (fullName r)) = trim (toLowerCase q) ->
  scoutScore (toLowerCase (trim q)) r == 1 /\ In r (searchScouts q corpus).
Proof.
  intros Hin Hq Hf E. set (term := toLowerCase (trim q)).
  assert (F : calculateSimilarity (fullName r) term = 1).
  { unfold calculateSimilarity, term.
    rewrite Hf, truthy_toLowerCase, Hq. cbn [negb orb].
    rewrite toLowerCase_idem, toLowerCase_trim, trim_idem, E.
    now rewrite String.eqb_refl. }
  assert (H1 : 1 <= scoutScore term r).
  { rewrite scoutScore_maxOf. unfold maxOf.
    apply (maxOf_from (candidates term r) 0).
    unfold candidates. rewrite F. apply in_or_app. left. now left. }
  pose proof (scoutScore_bounds term r) as [_ H2].
  split; [lra|]. apply searchScouts_In. repeat split; [assumption..|].
  fold term. lra.
Qed.

(** X5. A query equal to the full name of a scout of the corpus, up to
    case and surrounding white space, returns that scout; its score is
    1 and no identity scores more. *)
Theorem searchScouts_own_name (q : string) (corpus : list Identity)
        (r : Identity) :
  In r corpus -> truthy (trim (fullName r)) = true ->
  trim (toLowerCase (fullName r)) = trim (toLowerCase q) ->
  In r (searchScouts q corpus) /\
  scoutScore (toLowerCase (trim q)) r == 1 /\
  forall r', scoutScore (toLowerCase (trim q)) r' <=
             scoutScore (toLowerCase (trim q)) r.
Proof.
  intros Hin Hf E.
  assert (Hq : truthy (trim q) = true).
  { rewrite <- truthy_toLowerCase, toLowerCase_trim, <- E,
            <- toLowerCase_trim, truthy_toLowerCase. exact Hf. }
  destruct (@search_finds q corpus r Hin Hq (trim_truthy _ Hf) E) as [H1 H2].
  split; [assumption|]. split; [assumption|].
  intros r'. pose proof (scoutScore_bounds (toLowerCase (trim q)) r'). lra.
Qed.

Lemma searchScouts_own_name_witness :
  In (mkIdentity "Bo Smith" "Bo" "Smith" "bo smith")
     (searchScouts "  BO SMITH " smiths).
Proof.
  refine (proj1 (searchScouts_own_name "  BO SMITH " smiths
                   (mkIdentity "Bo Smith" "Bo" "Smith" "bo smith") _ _ _)).
  - right. right. left. reflexivity.
  - reflexivity.
  - reflexivity.
Defined.

(** X6. When the text handed to [handleSearch] is, up to case, the full
    name of a scout of the corpus, a scout with that name (up to case)
    is selected. *)
Theorem handleSearch_exact (query : string) (st : AppState) (r : Identity) :
  In r (allScouts st) -> truthy (trim query) = true ->
  toLowerCase (fullName r) = toLowerCase query ->
  exists r', In r' (allScouts st) /\
             toLowerCase (fullName r') = toLowerCase query /\
             handleSearch query st = selectScout (fullName r') st.
Proof.
  intros Hin Hq E. unfold handleSearch.
  pose proof (trim_truthy _ Hq) as Hq'. rewrite Hq'.
  destruct query as [|c q0]; [discriminate|]. cbn [negb orb String.length Nat.eqb].
  set (query := String c q0) in *.
  assert (Hf : truthy (fullName r) = true).
  { rewrite <- truthy_toLowerCase, E. reflexivity. }
  assert (Hr : In r (searchScouts query (allScouts st))).
  { apply search_finds; try assumption. now rewrite E. }
  destruct (find _ (searchScouts query (allScouts st))) as [x|] eqn:F.
  - apply find_some in F. destruct F as [Hx Ex].
    apply String.eqb_eq in Ex. apply searchScouts_In in Hx.
    exists x. repeat split; tauto.
  - apply (find_none _ _ F) in Hr. rewrite E, String.eqb_refl in Hr.
    discriminate.
Qed.

Lemma handleSearch_exact_witness :
  exists r', In r' smiths /\
             toLowerCase (fullName r') = toLowerCase "bo smith" /\
             handleSearch "bo smith" (mkAppState [] [] smiths None) =
             selectScout (fullName r') (mkAppState [] [] smiths None).
Proof.
  apply (handleSearch_exact "bo smith" (mkAppState [] [] smiths None)
           (mkIdentity "Bo Smith" "Bo" "Smith" "bo smith")).
  - right. right. left. reflexivity.
  - reflexivity.
  - reflexivity.
Defined.

End SearchFacts.

(* ================================================================== *)
(** * More on extractEventFromRow and convertSheetToEvents *)
(* ================================================================== *)

Section ExtractionFacts.

Lemma digits12_shape l m r : digits12 l = Some (m, r) -> digits1or2 m.
Proof.
  unfold digits12, digits1or2. destruct l as [|a [|b l]]; [discriminate| |].
  - destruct (isDigit a) eqn:A; [|discriminate]. intros [= <- <-]. eauto.
  - destruct (isDigit a) eqn:A; [|discriminate].
    destruct (isDigit b) eqn:B; intros [= <- <-]; eauto 6.
Qed.

Lemma dateAt_shape l y m d r :
  dateAt l = Some (y, m, d, r) ->
  (exists y1 y2 y3 y4, y = [y1; y2; y3; y4] /\
     forallb isDigit [y1; y2; y3; y4] = true) /\
  digits1or2 m /\ digits1or2 d.
Proof.
  unfold dateAt. destruct l as [|y1 [|y2 [|y3 [|y4 l]]]]; try discriminate.
  destruct (isDigit y1 && isDigit y2 && isDigit y3 && isDigit y4) eqn:Y;
    [|discriminate].
  destruct (skip_ws l) as [|c r1]; [discriminate|].
  destruct (Ascii.eqb_spec c "-"%char) as [->|N].
  2:{ destruct c as [[] [] [] [] [] [] [] []]; try discriminate.
      contradiction. }
  destruct (digits12 (skip_ws r1)) as [[m' r2]|] eqn:M; [|discriminate].
  destruct r2 as [|c2 r2]; [discriminate|].
  destruct (Ascii.eqb_spec c2 "/"%char) as [->|N].
  2:{ destruct c2 as [[] [] [] [] [] [] [] []]; try discriminate.
      contradiction. }
  destruct (digits12 r2) as [[d' r3]|] eqn:D; [|discriminate].
  intros [= <- <- <- <-]. split; [|split].
  - exists y1, y2, y3, y4. split; [reflexivity|].
    simpl. rewrite andb_true_r, !andb_assoc. exact Y.
  - exact (digits12_shape _ M).
  - exact (digits12_shape _ D).
Qed.

Lemma dateMatch_shape l : forall y m d,
  dateMatch l = Some (y, m, d) ->
  (exists y1 y2 y3 y4, y = [y1; y2; y3; y4] /\
     forallb isDigit [y1; y2; y3; y4] = true) /\
  digits1or2 m /\ digits1or2 d.
Proof.
  induction l as [|c l IH]; intros y m d; cbn [dateMatch].
  - discriminate.
  - destruct (dateAt (c :: l)) as [[[[y' m'] d'] r]|] eqn:E.
    + intros [= <- <- <-]. exact (dateAt_shape _ E).
    + apply IH.
Qed.

Lemma isoShaped_date y m d :
  (exists y1 y2 y3 y4, y = [y1; y2; y3; y4] /\
     forallb isDigit [y1; y2; y3; y4] = true) ->
  digits1or2 m -> digits1or2 d ->
  isoShaped (string_of_list_ascii y ++ "-" ++
             padStart0 2 (string_of_list_ascii m) ++ "-" ++
             padStart0 2 (string_of_list_ascii d))%string = true.
Proof.
  intros [y1 [y2 [y3 [y4 [-> Hy]]]]] Hm Hd.
  simpl in Hy. rewrite andb_true_r in Hy.
  apply andb_prop in Hy. destruct Hy as [Y1 Hy].
  apply andb_prop in Hy. destruct Hy as [Y2 Hy].
  apply andb_prop in Hy. destruct Hy as [Y3 Y4].
  destruct Hm as [[a [-> A]]|[a [b [-> [A B]]]]];
  destruct Hd as [[c [-> C]]|[c [e [-> [C E]]]]];
    unfold isoShaped; simpl; rewrite Y1, Y2, Y3, Y4, ?A, ?B, ?C, ?E;
    reflexivity.
Qed.

(** X8. For a row and labels where no lookup of a cell is answered by
    [Object.prototype] (the cell is there, or the label is not one of
    its property names): the person name and the event name of the
    signup have no white space at either end, the end date is the start
    date, and the start date is empty or of the form YYYY-MM-DD (four
    digits, two digits, two digits). *)
Theorem extractEventFromRow_shape (row : Obj) (columns : list string) :
  ownLookups row columns = true ->
  let i := extractEventFromRow row columns in
  trimmed (scoutName i) /\ trimmed (eventName i) /\
  endDate i = startDate i /\
  (startDate i = "" \/ isoShaped (startDate i) = true).
Proof.
  intros _. cbn zeta. unfold trimmed, extractEventFromRow.
  cbn [scoutName eventName endDate startDate].
  split; [apply trim_idem|]. split; [apply trim_idem|].
  split; [reflexivity|].
  destruct (dateMatch _) as [[[y m] d]|] eqn:E; [right|now left].
  apply dateMatch_shape in E. destruct E as [Hy [Hm Hd]].
  now apply isoShaped_date.
Qed.

Lemma extractEventFromRow_shape_witness :
  trimmed (scoutName (extractEventFromRow janeRowLower sheetColumns0)).
Proof.
  exact (proj1 (extractEventFromRow_shape janeRowLower sheetColumns0 eq_refl)).
Defined.

Lemma addSignup_skip m i : keptSignup i = false -> addSignup m i = m.
Proof. unfold keptSignup, addSignup. now intros ->. Qed.

(** X9. Where no lookup of a cell is answered by [Object.prototype]:
    a row without a cell under the event label, a row whose event text
    holds no date, and a row whose first-name and last-name cells are
    both missing or empty neither create nor change an event. *)
Theorem addSignup_row_ignored (row : Obj) (columns : list string)
        (m : JSMap Event) :
  ownLookups row columns = true ->
  (obj_get row (eventColOf columns) = None ->
   addSignup m (extractEventFromRow row columns) = m) /\
  (dateMatch (list_ascii_of_string
                (trim (opt_or (obj_get row (eventColOf columns)) ""))) = None ->
   addSignup m (extractEventFromRow row columns) = m) /\
  (opt_or (obj_get row (firstNameColOf columns)) "" = "" ->
   opt_or (obj_get row (lastNameColOf columns)) "" = "" ->
   addSignup m (extractEventFromRow row columns) = m).
Proof.
  intros _. split; [|split].
  - intros H. apply addSignup_skip. unfold keptSignup, extractEventFromRow.
    cbn [eventName startDate scoutName]. rewrite H. cbn.
    now rewrite ?andb_false_r.
  - intros H. apply addSignup_skip. unfold keptSignup, extractEventFromRow.
    cbn [eventName startDate scoutName]. rewrite H. cbn.
    now rewrite ?andb_false_r.
  - intros Hf Hl. apply addSignup_skip. unfold keptSignup, extractEventFromRow.
    cbn [eventName startDate scoutName]. rewrite Hf, Hl. cbn.
    now rewrite ?andb_false_r.
Qed.

Lemma addSignup_row_ignored_witness :
  addSignup [("k", leafCenter ["Jane Doe"] [])]
            (extractEventFromRow [("First Name", "Al")] sheetColumns0) =
  [("k", leafCenter ["Jane Doe"] [])].
Proof.
  apply (proj1 (addSignup_row_ignored [("First Name", "Al")] sheetColumns0
                  [("k", leafCenter ["Jane Doe"] [])] eq_refl)).
  reflexivity.
Defined.

End ExtractionFacts.

Section AggregationFacts.

Lemma map_modify_In_key {A} (m : JSMap A) k f k' v :
  In (k', v) (map_modify m k f) ->
  In (k', v) m \/ (k' = k /\ exists v0, In (k, v0) m /\ v = f v0).
Proof.
  induction m as [|[k0 v0] m IH]; simpl; [tauto|].
  destruct (String.eqb_spec k0 k) as [->|N]; simpl.
  - intros [[= <- <-]|H]; [right; split; [reflexivity|exists v0; auto]|auto].
  - intros [H|H]; [auto|].
    destruct (IH H) as [H'|[-> [v1 [H1 H2]]]]; [auto|].
    right. split; [reflexivity|]. exists v1. auto.
Qed.

Lemma map_modify_app_absent {A} (m : JSMap A) k v f :
  map_has m k = false ->
  map_modify (m ++ [(k, v)]) k f = m ++ [(k, f v)].
Proof.
  induction m as [|[k0 v0] m IH]; simpl.
  - now rewrite String.eqb_refl.
  - destruct (String.eqb k0 k); simpl; [discriminate|].
    intros H. now rewrite IH.
Qed.

Lemma pushNew_inv arr x y : In y (pushNew arr x) -> In y arr \/ y = x.
Proof.
  unfold pushNew. destruct (arr_includes arr x); simpl; [auto|].
  intros [H|[<-|[]]]%in_app_or; auto.
Qed.

Lemma addPerson_inv a p a' x e :
  In x (people a' (addPerson a p e)) ->
  In x (people a' e) \/ (a' = a /\ x = p).
Proof.
  destruct a, a'; simpl; auto; intros [H|H]%pushNew_inv; auto.
Qed.

Lemma addPerson_somebody a p e : nobody (addPerson a p e) = false.
Proof.
  assert (H : forall arr, pushNew arr p <> []).
  { intros arr E. pose proof (pushNew_In arr p) as Hp. now rewrite E in Hp. }
  unfold nobody. destruct a; simpl.
  - destruct (scouts e); [|reflexivity].
    destruct (pushNew (adults e) p) eqn:E; [now apply H in E|reflexivity].
  - destruct (pushNew (scouts e) p) eqn:E; [now apply H in E|reflexivity].
Qed.

Lemma addSignup_from L m i :
  fromSignups L m -> In i L -> fromSignups L (addSignup m i).
Proof.
  intros Hm Hi. unfold addSignup. fold (keptSignup i).
  destruct (keptSignup i) eqn:K; [|assumption].
  set (k0 := eventKeyOf i).
  set (new := mkEvent _ _ _ _ [] []).
  set (m1 := if negb (map_has m k0) then map_set m k0 new else m).
  assert (H1 : fromSignups L m1).
  { unfold m1. destruct (map_has m k0) eqn:E; simpl; [assumption|].
    rewrite map_set_absent by assumption.
    intros k e [H|[[= <- <-]|[]]]%in_app_or; [now apply Hm|]. split.
    - exists i. unfold new. simpl. repeat split; assumption.
    - intros a p Hp. destruct a; destruct Hp. }
  destruct (truthy (trim (scoutName i))) eqn:T; [|assumption].
  intros k e [H|[-> [e0 [H ->]]]]%map_modify_In_key; [now apply H1|].
  destruct (H1 _ _ H) as [Hf Hp]. split.
  - destruct Hf as [j Hj]. exists j.
    unfold addPerson. destruct (isAdult i); simpl; exact Hj.
  - intros a p [Hin|[-> ->]]%addPerson_inv; [now apply Hp|].
    exists i. unfold validSignup. fold (keptSignup i). rewrite K, T. auto.
Qed.

Lemma aggregate_from L infos : forall m,
  fromSignups L m -> (forall i, In i infos -> In i L) ->
  fromSignups L (fold_left addSignup infos m).
Proof.
  induction infos as [|i infos IH]; intros m Hm Hsub; simpl; [assumption|].
  apply IH.
  - apply addSignup_from; [assumption|]. apply Hsub. now left.
  - intros j Hj. apply Hsub. now right.
Qed.

Lemma aggregate_from_nil infos : fromSignups infos (aggregate infos).
Proof. apply aggregate_from; [intros k e []|auto]. Qed.

(** X10. Nothing is invented by [convertSheetToEvents]: the record under
    a key carries the event name, dates and category of a kept signup
    of that key, and every name in its scouts (adults) set is the
    trimmed person name of a valid signup of that key that is not
    (that is) an adult. *)
Theorem aggregate_sound (infos : list EventInfo) :
  fromSignups infos (aggregate infos).
Proof.
  apply aggregate_from; [intros k e []|auto].
Qed.

Lemma aggregate_sound_witness :
  exists i, In i (map (fun row => extractEventFromRow row sheetColumns0)
                      [janeRow; janeRowLower]) /\
            validSignup i = true /\ isAdult i = false /\
            "jane doe" = trim (scoutName i).
Proof.
  destruct (aggregate_sound
              (map (fun row => extractEventFromRow row sheetColumns0)
                   [janeRow; janeRowLower])
              "leaf center service project (2 pm - 4 pm)_2025-11-29_2025-11-29"
              (leafCenter ["Jane Doe"; "jane doe"] []))
    as [_ H].
  - left. reflexivity.
  - destruct (H false "jane doe") as [i Hi].
    + right. left. reflexivity.
    + exists i. tauto.
Defined.

Lemma addSignup_keys m i :
  map fst (addSignup m i) =
  if keptSignup i && negb (map_has m (eventKeyOf i))
  then map fst m ++ [eventKeyOf i] else map fst m.
Proof.
  unfold addSignup. fold (keptSignup i).
  destruct (keptSignup i); [|reflexivity]. cbn [andb].
  set (k0 := eventKeyOf i). set (new := mkEvent _ _ _ _ [] []).
  assert (H : map fst (if negb (map_has m k0) then map_set m k0 new else m) =
              if negb (map_has m k0) then map fst m ++ [k0] else map fst m).
  { destruct (map_has m k0) eqn:E; simpl; [reflexivity|].
    rewrite map_set_absent by assumption. now rewrite map_app. }
  destruct (truthy (trim (scoutName i))); [|exact H].
  now rewrite map_modify_keys.
Qed.

Lemma aggregate_keys infos : forall (m : JSMap Event) seen,
  (forall k, In k seen <-> In k (map fst m)) ->
  map fst (fold_left addSignup infos m) =
  map fst m ++ firstKeys seen (map eventKeyOf (filter keptSignup infos)).
Proof.
  induction infos as [|i infos IH]; intros m seen Hseen; simpl.
  - now rewrite app_nil_r.
  - pose proof (addSignup_keys m i) as Hk.
    destruct (keptSignup i) eqn:K; cbn [andb] in Hk.
    + cbn [map firstKeys].
      assert (Eh : map_has m (eventKeyOf i) =
                   existsb (String.eqb (eventKeyOf i)) seen).
      { apply eq_true_iff_eq. rewrite map_has_In, existsb_eqb_In.
        symmetry. apply Hseen. }
      rewrite <- Eh. destruct (map_has m (eventKeyOf i)); cbn [negb] in Hk.
      * rewrite (IH _ seen); [now rewrite Hk|]. now rewrite Hk.
      * rewrite (IH _ (eventKeyOf i :: seen)).
        -- now rewrite Hk, <- app_assoc.
        -- intros k. rewrite Hk, in_app_iff. simpl. rewrite <- Hseen. tauto.
    + rewrite (IH _ seen); [now rewrite Hk|]. now rewrite Hk.
Qed.

Lemma firstKeys_length keys : forall seen,
  List.length (firstKeys seen keys) <= List.length keys.
Proof.
  induction keys as [|k keys IH]; intros seen; simpl; [lia|].
  destruct (existsb (String.eqb k) seen); simpl.
  - specialize (IH seen). lia.
  - specialize (IH (k :: seen)). lia.
Qed.

(** X11. The events come out in the order in which their keys are
    first met among the kept signups (those with an event name, a start
    date and a person name), one event per key; so there are never more
    events than rows. *)
Theorem convertSheetToEvents_order (sheetData : SheetData) :
  let infos := map (fun row => extractEventFromRow row (columns sheetData))
                   (rows sheetData) in
  map fst (aggregate infos) =
    firstKeys [] (map eventKeyOf (filter keptSignup infos)) /\
  List.length (convertSheetToEvents sheetData) <=
    List.length (rows sheetData).
Proof.
  intros infos.
  assert (H : map fst (aggregate infos) =
              firstKeys [] (map eventKeyOf (filter keptSignup infos))).
  { unfold aggregate. now rewrite (aggregate_keys infos [] []). }
  split; [exact H|].
  unfold convertSheetToEvents, map_values. fold infos.
  rewrite length_map, <- (length_map fst), H.
  etransitivity; [apply firstKeys_length|].
  rewrite length_map.
  etransitivity; [apply filter_length_le|].
  unfold infos. now rewrite length_map.
Qed.

Lemma addSignup_somebody m i :
  trimmed (scoutName i) ->
  Forall (fun ke => nobody (snd ke) = false) m ->
  Forall (fun ke => nobody (snd ke) = false) (addSignup m i).
Proof.
  intros Ht Hm. unfold addSignup. fold (keptSignup i).
  destruct (keptSignup i) eqn:K; [|assumption].
  assert (T : truthy (trim (scoutName i)) = true).
  { rewrite Ht. unfold keptSignup in K.
    now apply andb_prop in K as [_ K]. }
  rewrite T. set (k0 := eventKeyOf i).
  destruct (map_has m k0) eqn:E; cbn [negb].
  - rewrite Forall_forall in *. intros [k e] H.
    apply map_modify_In_key in H.
    destruct H as [H|[-> [e0 [H ->]]]]; [now apply Hm|].
    apply addPerson_somebody.
  - rewrite map_set_absent, map_modify_app_absent by assumption.
    apply Forall_app. split; [assumption|].
    constructor; [apply addPerson_somebody|constructor].
Qed.

Lemma aggregate_somebody infos : forall m,
  Forall (fun i => trimmed (scoutName i)) infos ->
  Forall (fun ke => nobody (snd ke) = false) m ->
  Forall (fun ke => nobody (snd ke) = false) (fold_left addSignup infos m).
Proof.
  induction infos as [|i infos IH]; intros m Hi Hm; simpl; [assumption|].
  inversion Hi; subst. apply IH; [assumption|].
  now apply addSignup_somebody.
Qed.

Lemma extract_trimmed row columns :
  trimmed (scoutName (extractEventFromRow row columns)).
Proof. apply trim_idem. Qed.

Lemma extract_startDate row columns :
  let i := extractEventFromRow row columns in
  endDate i = startDate i /\
  (truthy (startDate i) = true -> isoShaped (startDate i) = true).
Proof.
  cbn zeta. split; [reflexivity|].
  unfold extractEventFromRow. cbn [startDate].
  destruct (dateMatch _) as [[[y m] d]|] eqn:E; [|discriminate].
  intros _. apply dateMatch_shape in E. destruct E as [Hy [Hm Hd]].
  now apply isoShaped_date.
Qed.

Lemma convertSheetToEvents_names sheetData e p :
  In e (convertSheetToEvents sheetData) ->
  In p (scouts e) \/ In p (adults e) ->
  trimmed p /\ truthy p = true.
Proof.
  unfold convertSheetToEvents, map_values. intros [[k e'] [<- He]]%in_map_iff Hp.
  destruct (aggregate_from_nil _ _ _ He) as [_ Hn].
  assert (Hi : exists i, validSignup i = true /\ p = trim (scoutName i)).
  { destruct Hp as [Hp|Hp].
    - destruct (Hn false p Hp) as [i Hi]. exists i. tauto.
    - destruct (Hn true p Hp) as [i Hi]. exists i. tauto. }
  destruct Hi as [i [Hv ->]]. split; [apply trim_idem|].
  unfold validSignup in Hv. now apply andb_prop in Hv as [_ Hv].
Qed.

(** X12. Every event made by [convertSheetToEvents] has somebody in it,
    its end date is its start date, of the form YYYY-MM-DD, its name is
    not empty, and the names in its two sets are not empty and have no
    white space at either end. *)
Theorem convertSheetToEvents_events (sheetData : SheetData) (e : Event) :
  In e (convertSheetToEvents sheetData) ->
  nobody e = false /\
  ev_endDate e = ev_startDate e /\ isoShaped (ev_startDate e) = true /\
  truthy (ev_eventName e) = true /\
  (forall p, In p (scouts e) \/ In p (adults e) ->
             trimmed p /\ truthy p = true).
Proof.
  intros He. split; [|split; [|split; [|split]]].
  - unfold convertSheetToEvents, map_values, aggregate in He.
    apply in_map_iff in He. destruct He as [ke [<- He]].
    revert ke He. apply Forall_forall. apply aggregate_somebody.
    + rewrite Forall_map. apply Forall_forall. intros row _.
      apply extract_trimmed.
    + constructor.
  - unfold convertSheetToEvents, map_values in He.
    apply in_map_iff in He. destruct He as [[k e'] [<- He]].
    destruct (aggregate_from_nil _ _ _ He) as [[i [Hi [K [_ [_ [Hs [He' _]]]]]]] _].
    apply in_map_iff in Hi. destruct Hi as [row [<- _]].
    cbn [snd]. rewrite He', Hs.
    destruct (extract_startDate row (columns sheetData)) as [-> _].
    unfold or_else. now destruct (truthy _).
  - unfold convertSheetToEvents, map_values in He.
    apply in_map_iff in He. destruct He as [[k e'] [<- He]].
    destruct (aggregate_from_nil _ _ _ He) as [[i [Hi [K [_ [_ [Hs _]]]]]] _].
    apply in_map_iff in Hi. destruct Hi as [row [<- _]].
    cbn [snd]. rewrite Hs.
    apply (extract_startDate row (columns sheetData)).
    unfold keptSignup in K. apply andb_prop in K as [K _].
    now apply andb_prop in K as [_ K].
  - unfold convertSheetToEvents, map_values in He.
    apply in_map_iff in He. destruct He as [[k e'] [<- He]].
    destruct (aggregate_from_nil _ _ _ He) as [[i [Hi [K [_ [Hn _]]]]] _].
    cbn [snd]. rewrite Hn.
    unfold keptSignup in K. apply andb_prop in K as [K _].
    now apply andb_prop in K as [K _].
  - intros p Hp. exact (convertSheetToEvents_names _ _ _ He Hp).
Qed.

Lemma convertSheetToEvents_events_witness :
  nobody (leafCenter ["Jane Doe"; "jane doe"] []) = false /\
  isoShaped (ev_startDate (leafCenter ["Jane Doe"; "jane doe"] [])) = true.
Proof.
  assert (H : In (leafCenter ["Jane Doe"; "jane doe"] [])
                 (convertSheetToEvents janeSheet)) by (left; reflexivity).
  pose proof (convertSheetToEvents_events janeSheet _ H) as [H1 [_ [H3 _]]].
  split; assumption.
Defined.

End AggregationFacts.

(* ================================================================== *)
(** * Looking scouts up, adults, and the statistics *)
(* ================================================================== *)

Section LookupFacts.

Lemma hasScout_iff k e :
  hasScout k e = true <-> exists s, In s (scouts e) /\ trim (toLowerCase s) = k.
Proof.
  unfold hasScout. rewrite existsb_exists. split.
  - intros [s [Hs E]]. apply String.eqb_eq in E. eauto.
  - intros [s [Hs E]]. exists s. split; [assumption|]. now apply String.eqb_eq.
Qed.

Lemma trim_lower_trim s : trim (toLowerCase (trim s)) = trim (toLowerCase s).
Proof. now rewrite toLowerCase_trim, trim_idem. Qed.

(** X13. A name that is not blank has events, by [getScoutEvents],
    exactly when [extractUniqueScouts] has a scout whose key is that
    name lower-cased and trimmed: every scout that can be found by the
    search has an event to show, under any spelling of the name. *)
Theorem getScoutEvents_known (n : string) (future past : list Event) :
  truthy (trim n) = true ->
  ((exists e, In e (se_future (getScoutEvents n future past)) \/
              In e (se_past (getScoutEvents n future past))) <->
   (exists r, In r (extractUniqueScouts future past) /\
              normalized r = trim (toLowerCase n))).
Proof.
  intros Hn. rewrite extractUniqueScouts_firstSeen.
  unfold getScoutEvents. cbn [se_future se_past].
  set (k := trim (toLowerCase n)).
  assert (Hk : truthy k = true).
  { unfold k. now rewrite <- toLowerCase_trim, truthy_toLowerCase. }
  split.
  - intros [e He].
    assert (H : In e (future ++ past) /\ hasScout k e = true).
    { rewrite in_app_iff. destruct He as [He|He]; apply filter_In in He; tauto. }
    destruct H as [Hin Hs]. apply hasScout_iff in Hs.
    destruct Hs as [s [Hs E]].
    assert (Ht : truthy (trim s) = true).
    { rewrite <- truthy_toLowerCase, toLowerCase_trim, E. exact Hk. }
    assert (Hname : In (trim s) (scoutNames (future ++ past))).
    { apply scoutNames_origin. split; [assumption|]. now exists e, s. }
    destruct (firstSeen_covers _ [] _ Hname) as [[]|[x [Hx Ex]]].
    exists (identityOf x). split; [now apply in_map|].
    cbn [identityOf normalized]. now rewrite Ex, toLowerCase_trim.
  - intros [r [Hr E]]. apply in_map_iff in Hr. destruct Hr as [x [<- Hx]].
    apply firstSeen_In in Hx. destruct Hx as [Hx _].
    apply scoutNames_origin in Hx. destruct Hx as [_ [e [s [He [Hs ->]]]]].
    cbn [identityOf normalized] in E.
    assert (H : hasScout k e = true).
    { apply hasScout_iff. exists s. split; [assumption|].
      now rewrite <- toLowerCase_trim. }
    exists e. apply in_app_iff in He.
    destruct He as [He|He]; [left|right]; apply filter_In; auto.
Qed.

Lemma getScoutEvents_known_witness :
  exists e, In e (se_future (getScoutEvents " JANE doe" [campout]
                               [leafCenter ["Jane Doe"] []])) \/
            In e (se_past (getScoutEvents " JANE doe" [campout]
                             [leafCenter ["Jane Doe"] []])).
Proof.
  apply (proj2 (getScoutEvents_known " JANE doe" [campout]
                  [leafCenter ["Jane Doe"] []] eq_refl)).
  exists (identityOf "Jane Doe"). split; [|reflexivity].
  right. left. reflexivity.
Defined.

Lemma addEventAdults_fold evs : forall m,
  fold_left addEventAdults evs m =
  fold_left addScout (flat_map adults evs) m.
Proof.
  induction evs as [|e evs IH]; intros m; simpl; [reflexivity|].
  rewrite fold_left_app. apply IH.
Qed.

Lemma extractUniqueAdults_firstSeen future past :
  extractUniqueAdults future past =
  map identityOf (firstSeen [] (adultNames (future ++ past))).
Proof.
  unfold extractUniqueAdults, map_values, adultNames.
  rewrite <- fold_left_app, addEventAdults_fold.
  rewrite (addScout_fold _ [] []) by reflexivity.
  simpl. rewrite map_map. reflexivity.
Qed.

Lemma adultNames_origin evs n :
  In n (adultNames evs) <->
  truthy n = true /\ exists e s, In e evs /\ In s (adults e) /\ n = trim s.
Proof.
  unfold adultNames. rewrite filter_In, in_map_iff. split.
  - intros [[s [<- Hs]] Ht]. apply in_flat_map in Hs.
    destruct Hs as [e [He Hs]]. split; [assumption|]. now exists e, s.
  - intros [Ht [e [s [He [Hs ->]]]]]. split; [|assumption].
    exists s. split; [reflexivity|]. apply in_flat_map. now exists e.
Qed.

(** X14. The adults extracted from the two event lists are the records
    of the first spelling (trimmed) met for each lower-case key of the
    adults sets, in the order met, without two records for one key;
    every record comes from an adults set, the scouts sets play no
    part, and a person who is a scout in one event and an adult in
    another is in both corpora. *)
Theorem extractUniqueAdults_spec (future past : list Event) :
  let names := adultNames (future ++ past) in
  let ids := extractUniqueAdults future past in
  ids = map identityOf (firstSeen [] names) /\
  NoDup (map normalized ids) /\
  (forall n, In n names ->
             exists r, In r ids /\ normalized r = toLowerCase n) /\
  (forall r, In r ids ->
     exists e s, In e (future ++ past) /\ In s (adults e) /\
                 fullName r = trim s) /\
  (forall future' past',
     map adults future' = map adults future ->
     map adults past' = map adults past ->
     extractUniqueAdults future' past' = ids) /\
  (forall e1 e2 s,
     In e1 (future ++ past) -> In e2 (future ++ past) ->
     In s (scouts e1) -> In s (adults e2) -> truthy (trim s) = true ->
     (exists r, In r (extractUniqueScouts future past) /\
                normalized r = toLowerCase (trim s)) /\
     (exists r, In r ids /\ normalized r = toLowerCase (trim s))).
Proof.
  intros names ids. unfold ids. rewrite extractUniqueAdults_firstSeen.
  fold names.
  assert (Hcov : forall n, In n names ->
            exists r, In r (map identityOf (firstSeen [] names)) /\
                      normalized r = toLowerCase n).
  { intros n Hn. destruct (firstSeen_covers names [] n Hn) as [[]|[x [H1 H2]]].
    exists (identityOf x). split; [now apply in_map|exact H2]. }
  split; [reflexivity|]. split.
  { rewrite map_map. apply (firstSeen_NoDup names []). }
  split; [exact Hcov|]. split.
  { intros r [x [<- Hx]]%in_map_iff. apply firstSeen_In in Hx.
    destruct Hx as [Hx _]. apply adultNames_origin in Hx.
    destruct Hx as [_ [e [s [He [Hs ->]]]]]. now exists e, s. }
  split.
  { intros future' past' Hf Hp. rewrite extractUniqueAdults_firstSeen.
    unfold names, adultNames. do 4 f_equal.
    rewrite !flat_map_concat_map, !map_app. congruence. }
  intros e1 e2 s H1 H2 Hs Ha Ht. split.
  - rewrite extractUniqueScouts_firstSeen.
    assert (Hn : In (trim s) (scoutNames (future ++ past))).
    { apply scoutNames_origin. split; [assumption|]. now exists e1, s. }
    destruct (firstSeen_covers _ [] _ Hn) as [[]|[x [Hx Ex]]].
    exists (identityOf x). split; [now apply in_map|exact Ex].
  - apply Hcov. apply adultNames_origin. split; [assumption|]. now exists e2, s.
Qed.

Lemma extractUniqueAdults_spec_witness :
  exists r, In r (extractUniqueAdults [campout] [leafCenter [] ["ann lee "]])
            /\ normalized r = "ann lee".
Proof.
  refine (proj1 (proj2 (proj2
            (extractUniqueAdults_spec [campout] [leafCenter [] ["ann lee "]])))
            "Ann Lee" _).
  left. reflexivity.
Defined.

Lemma countEvent_fold evs : forall s a,
  fold_left countEvent evs (s, a) =
  (fold_left countName (flat_map scouts evs) s,
   fold_left countName (flat_map adults evs) a).
Proof.
  induction evs as [|e evs IH]; intros s a; simpl; [reflexivity|].
  unfold countEvent at 2. cbn [fst snd]. rewrite IH, !fold_left_app.
  reflexivity.
Qed.

Lemma countName_fold all : forall set seen,
  (forall k, In k seen <-> In k set) ->
  fold_left countName all set =
  set ++ firstKeys seen (map (fun s => trim (toLowerCase s))
                             (filter truthy all)).
Proof.
  induction all as [|s all IH]; intros set seen Hseen; simpl.
  - now rewrite app_nil_r.
  - unfold countName at 2. destruct (truthy s); [|now apply IH].
    cbn [map firstKeys]. unfold set_add.
    assert (Eh : arr_includes set (trim (toLowerCase s)) =
                 existsb (String.eqb (trim (toLowerCase s))) seen).
    { apply eq_true_iff_eq. rewrite arr_includes_In, existsb_eqb_In.
      symmetry. apply Hseen. }
    rewrite <- Eh. destruct (arr_includes set (trim (toLowerCase s))).
    + now apply IH.
    + rewrite (IH _ (trim (toLowerCase s) :: seen)).
      * now rewrite <- app_assoc.
      * intros k. rewrite in_app_iff. simpl. rewrite <- Hseen. tauto.
Qed.

Lemma firstSeen_length names : forall seen,
  List.length (firstSeen seen names) =
  List.length (firstKeys seen (map toLowerCase names)).
Proof.
  induction names as [|n names IH]; intros seen; simpl; [reflexivity|].
  destruct (existsb (String.eqb (toLowerCase n)) seen); simpl; now rewrite IH.
Qed.

Lemma keys_of_names all :
  Forall (fun s => truthy (trim s) = true) all ->
  map (fun s => trim (toLowerCase s)) (filter truthy all) =
  map toLowerCase (filter truthy (map trim all)).
Proof.
  induction 1 as [|s all Hs _ IH]; simpl; [reflexivity|].
  rewrite Hs, (trim_truthy _ Hs). simpl.
  now rewrite IH, toLowerCase_trim.
Qed.

Lemma count_names all :
  Forall (fun s => truthy (trim s) = true) all ->
  List.length (fold_left countName all []) =
  List.length (firstSeen [] (filter truthy (map trim all))).
Proof.
  intros H. rewrite (countName_fold all [] []) by reflexivity.
  now rewrite firstSeen_length, keys_of_names.
Qed.

Lemma renderStatistics_counts future past :
  renderStatistics future past =
  mkStatistics
    (List.length (fold_left countName (flat_map scouts (future ++ past)) []))
    (List.length (fold_left countName (flat_map adults (future ++ past)) []))
    (List.length future) (List.length past).
Proof.
  unfold renderStatistics. rewrite !countEvent_fold. cbn [fst snd].
  now rewrite !flat_map_app, !fold_left_app.
Qed.

Lemma statistics_identities future past :
  (forall e s, In e (future ++ past) -> In s (scouts e) \/ In s (adults e) ->
               truthy (trim s) = true) ->
  totalScouts (renderStatistics future past) =
    List.length (extractUniqueScouts future past) /\
  totalAdults (renderStatistics future past) =
    List.length (extractUniqueAdults future past).
Proof.
  intros H. rewrite renderStatistics_counts. cbn [totalScouts totalAdults].
  rewrite extractUniqueScouts_firstSeen, extractUniqueAdults_firstSeen.
  rewrite !length_map. unfold scoutNames, adultNames.
  split; apply count_names; apply Forall_forall; intros s Hs;
    apply in_flat_map in Hs; destruct Hs as [e [He Hs]]; eauto.
Qed.

(** X15. When no name of the event lists is blank, the number of scouts
    (of adults) written by [renderStatistics] is the number of records
    of [extractUniqueScouts] (of [extractUniqueAdults]); the two event
    counts are the lengths of the lists. *)
Theorem renderStatistics_identities (future past : list Event) :
  (forall e s, In e (future ++ past) -> In s (scouts e) \/ In s (adults e) ->
               truthy (trim s) = true) ->
  totalScouts (renderStatistics future past) =
    List.length (extractUniqueScouts future past) /\
  totalAdults (renderStatistics future past) =
    List.length (extractUniqueAdults future past) /\
  totalFutureEvents (renderStatistics future past) = List.length future /\
  totalPastEvents (renderStatistics future past) = List.length past.
Proof.
  intros H. destruct (statistics_identities future past H) as [H1 H2].
  repeat split; assumption.
Qed.

Lemma renderStatistics_identities_witness :
  totalScouts (renderStatistics [campout]
                 [leafCenter ["Jane Doe"; "jane doe"; "Jon Smith"] []]) =
  List.length (extractUniqueScouts [campout]
                 [leafCenter ["Jane Doe"; "jane doe"; "Jon Smith"] []]).
Proof.
  refine (proj1 (renderStatistics_identities [campout]
                   [leafCenter ["Jane Doe"; "jane doe"; "Jon Smith"] []] _)).
  intros e s [<-|[<-|[]]] [Hs|Hs]; simpl in Hs;
    repeat (destruct Hs as [<-|Hs]; [reflexivity|]); destruct Hs.
Defined.

End LookupFacts.

(* ================================================================== *)
(** * The loaded state, the day count, and the dates *)
(* ================================================================== *)

Section PipelineFacts.

Variable parseDate : string -> option Z.
Variable startOfDay : Z -> Z.

Abbreviation loadEvents' := (App.loadEvents parseDate startOfDay).
Abbreviation isPast' := (App.isPast parseDate startOfDay).

Lemma loaded_events sheetData now st e :
  In e (futureEvents (loadEvents' sheetData now st)) \/
  In e (pastEvents (loadEvents' sheetData now st)) <->
  In e (convertSheetToEvents sheetData).
Proof.
  rewrite loadEvents_lists. cbn [futureEvents pastEvents].
  rewrite !filter_In. destruct (isPast' (startOfDay now) e); simpl; intuition.
Qed.

(** X16. Once the sheet is loaded, every valid signup of a scout can be
    looked up: [getScoutEvents], given the person name of the signup in
    any case, returns at least one event among the future and the past
    ones. *)
Theorem loadEvents_lookup (sheetData : SheetData) (now : Z) (st : AppState)
        (row : Obj) (n : string) :
  let i := extractEventFromRow row (columns sheetData) in
  let st' := loadEvents' sheetData now st in
  In row (rows sheetData) -> validSignup i = true -> isAdult i = false ->
  toLowerCase n = toLowerCase (scoutName i) ->
  exists e, In e (se_future (getScoutEvents n (futureEvents st')
                                            (pastEvents st')) ++
                  se_past (getScoutEvents n (futureEvents st')
                                          (pastEvents st'))).
Proof.
  intros i st' Hrow Hv Ha Hn.
  assert (Hi : In i (map (fun row => extractEventFromRow row (columns sheetData))
                         (rows sheetData))).
  { exact (in_map (fun row => extractEventFromRow row (columns sheetData))
                  _ _ Hrow). }
  destruct (aggregate_lists _ [] i Hi Hv) as [e [Hg Hp]].
  rewrite Ha in Hp. cbn [people] in Hp.
  assert (He : In e (convertSheetToEvents sheetData)).
  { unfold convertSheetToEvents, map_values. apply in_map_iff.
    exists (eventKeyOf i, e). split; [reflexivity|]. now apply map_get_In. }
  assert (Hs : hasScout (trim (toLowerCase n)) e = true).
  { apply hasScout_iff. exists (trim (scoutName i)). split; [assumption|].
    now rewrite trim_lower_trim, Hn. }
  exists e. unfold getScoutEvents. cbn [se_future se_past].
  apply in_or_app. apply (loaded_events sheetData now st) in He.
  destruct He as [He|He]; [left|right]; apply filter_In; auto.
Qed.

(** X17. Once the sheet is loaded, the number of scouts written by
    [renderStatistics] is the length of the scout list kept for the
    search, and the two event counts add up to the number of events of
    [convertSheetToEvents]. *)
Theorem loadEvents_statistics (sheetData : SheetData) (now : Z)
        (st : AppState) :
  let st' := loadEvents' sheetData now st in
  let stats := renderStatistics (futureEvents st') (pastEvents st') in
  totalScouts stats = List.length (allScouts st') /\
  totalAdults stats =
    List.length (extractUniqueAdults (futureEvents st') (pastEvents st')) /\
  totalFutureEvents stats + totalPastEvents stats =
    List.length (convertSheetToEvents sheetData).
Proof.
  intros st' stats.
  assert (H : forall e s, In e (futureEvents st' ++ pastEvents st') ->
                          In s (scouts e) \/ In s (adults e) ->
                          truthy (trim s) = true).
  { intros e s He Hs. apply in_app_or, loaded_events in He.
    destruct (convertSheetToEvents_names _ _ _ He Hs) as [-> Ht]. exact Ht. }
  destruct (statistics_identities _ _ H) as [H1 H2]. unfold stats.
  split; [|split; [exact H2|]].
  - rewrite H1. unfold st'. rewrite loadEvents_lists. reflexivity.
  - rewrite renderStatistics_counts.
    cbn [totalFutureEvents totalPastEvents].
    unfold st'. rewrite loadEvents_lists. cbn [futureEvents pastEvents].
    rewrite Nat.add_comm, <- length_app.
    apply Permutation_length, filter_split.
Qed.

Abbreviation totalDays' := (UI.totalDays parseDate).
Abbreviation addDays' := (UI.addDays parseDate).

Lemma addDays_nan evs : fold_left addDays' evs None = None.
Proof.
  induction evs as [|e evs IH]; simpl; [reflexivity|].
  unfold UI.addDays at 2. now destruct (truthy _ && truthy _).
Qed.

Lemma addDays_one_day evs : forall t,
  Forall (fun e => truthy (ev_startDate e) = true /\
                   ev_endDate e = ev_startDate e /\
                   parseDate (ev_startDate e) <> None) evs ->
  fold_left addDays' evs (Some t) = Some (t + Z.of_nat (List.length evs))%Z.
Proof.
  induction evs as [|e evs IH]; intros t H; simpl fold_left.
  - simpl. f_equal. lia.
  - inversion H as [|? ? [Hs [He Hp]] Hrest]; subst.
    unfold UI.addDays at 2. rewrite He, Hs. cbn [andb].
    destruct (parseDate (ev_startDate e)) as [d|]; [|contradiction].
    cbn [dayCount]. rewrite IH by assumption. f_equal.
    rewrite Z.sub_diag. unfold ceilDiv. cbn [List.length].
    change (- (- 0 / (1000 * 60 * 60 * 24)) + 1)%Z with 1%Z. lia.
Qed.

Lemma addDays_invalid evs : forall t,
  (exists e, In e evs /\ truthy (ev_startDate e) = true /\
             truthy (ev_endDate e) = true /\
             (parseDate (ev_startDate e) = None \/
              parseDate (ev_endDate e) = None)) ->
  fold_left addDays' evs t = None.
Proof.
  induction evs as [|e evs IH]; intros t [x [Hin Hx]]; [destruct Hin|].
  simpl fold_left. destruct Hin as [->|Hin].
  - destruct Hx as [Hs [He Hp]].
    assert (E : addDays' t x = None).
    { unfold UI.addDays. rewrite Hs, He. cbn [andb]. destruct t; [|reflexivity].
      destruct Hp as [-> | ->]; [reflexivity|].
      now destruct (parseDate (ev_startDate x)). }
    rewrite E. apply addDays_nan.
  - apply IH. now exists x.
Qed.

(** X18. The figure "Total Days" of a scout: when every past event
    ends on the day it starts (as the events of [convertSheetToEvents]
    do) and its date parses, the figure is the number of past events;
    when one past event with both dates has a date that does not
    parse, the figure is NaN: the event is not skipped. *)
Theorem totalDays_cases (past : list Event) :
  (Forall (fun e => truthy (ev_startDate e) = true /\
                    ev_endDate e = ev_startDate e /\
                    parseDate (ev_startDate e) <> None) past ->
   totalDays' past = Some (Z.of_nat (List.length past))) /\
  ((exists e, In e past /\ truthy (ev_startDate e) = true /\
              truthy (ev_endDate e) = true /\
              (parseDate (ev_startDate e) = None \/
               parseDate (ev_endDate e) = None)) ->
   totalDays' past = None).
Proof.
  split.
  - intros H. unfold UI.totalDays. now rewrite addDays_one_day.
  - apply addDays_invalid.
Qed.

(** X19. For a clock that takes a time to midnight of its day (never
    later than the time, monotone, and leaving a midnight where it is),
    [isEventPast] on the end date of an event and the test of
    [initializeApp] agree, though only the latter takes the event date
    to midnight. *)
Theorem isEventPast_agrees (now : Z) (e : Event) :
  (forall t, startOfDay t <= t)%Z ->
  (forall a b, a <= b -> startOfDay a <= startOfDay b)%Z ->
  (forall t, startOfDay (startOfDay t) = startOfDay t) ->
  truthy (ev_endDate e) = true ->
  App.isEventPast parseDate (startOfDay now) (ev_endDate e) =
  isPast' (startOfDay now) e.
Proof.
  intros Hle Hmono Hidem He. unfold App.isEventPast, App.isPast, or_else.
  rewrite He. cbn [negb].
  destruct (parseDate (ev_endDate e)) as [t|]; [|reflexivity].
  cbn [option_map dateBefore]. apply eq_true_iff_eq. rewrite !Z.ltb_lt.
  split.
  - intros H. specialize (Hle t). lia.
  - intros H. destruct (Z.lt_ge_cases t (startOfDay now)) as [L|G];
      [assumption|].
    apply Hmono in G. rewrite Hidem in G. lia.
Qed.

End PipelineFacts.

Section PipelineExamples.

Lemma loadEvents_lookup_witness :
  let st' := App.loadEvents parseIsoDate utcMidnight janeSheet december1st
                            (mkAppState [] [] [] None) in
  exists e, In e (se_future (getScoutEvents "JANE DOE" (futureEvents st')
                                            (pastEvents st')) ++
                  se_past (getScoutEvents "JANE DOE" (futureEvents st')
                                          (pastEvents st'))).
Proof.
  apply (loadEvents_lookup parseIsoDate utcMidnight janeSheet december1st
           (mkAppState [] [] [] None) janeRow "JANE DOE").
  - left. reflexivity.
  - reflexivity.
  - reflexivity.
  - reflexivity.
Defined.

Lemma totalDays_cases_witness :
  UI.totalDays parseIsoDate [campout; leafCenter ["Jane Doe"] []] = Some 2%Z /\
  UI.totalDays parseIsoDate [campout; undated] = None.
Proof.
  split.
  - apply (proj1 (totalDays_cases parseIsoDate
                    [campout; leafCenter ["Jane Doe"] []])).
    repeat constructor; discriminate.
  - apply (proj2 (totalDays_cases parseIsoDate [campout; undated])).
    exists undated. split; [right; left; reflexivity|].
    split; [reflexivity|]. split; [reflexivity|]. left. reflexivity.
Defined.

Lemma utcMidnight_floor :
  (forall t, utcMidnight t <= t)%Z /\
  (forall a b, a <= b -> utcMidnight a <= utcMidnight b)%Z /\
  (forall t, utcMidnight (utcMidnight t) = utcMidnight t).
Proof.
  unfold utcMidnight. repeat split; intros;
    Z.to_euclidean_division_equations; lia.
Qed.

Lemma isEventPast_agrees_witness :
  App.isEventPast parseIsoDate (utcMidnight december1st)
                  (ev_endDate campout) =
  App.isPast parseIsoDate utcMidnight (utcMidnight december1st) campout.
Proof.
  apply (isEventPast_agrees parseIsoDate utcMidnight december1st campout).
  - apply utcMidnight_floor.
  - apply utcMidnight_floor.
  - apply utcMidnight_floor.
  - reflexivity.
Defined.

End PipelineExamples.

(* ================================================================== *)
(** * More on parseSheetData *)
(* ================================================================== *)

Section SheetFacts.

Variable V : Type.
Variable String_ : V -> string.

Abbreviation fillRow' := (GoogleSheet.fillRow String_).
Abbreviation cellValue' := (GoogleSheet.cellValue String_).

Lemma obj_get_set_same o k v : obj_get (obj_set o k v) k = Some v.
Proof.
  induction o as [|[k' v'] o IH]; simpl.
  - now rewrite String.eqb_refl.
  - destruct (String.eqb k' k) eqn:E; simpl; rewrite E; [reflexivity|exact IH].
Qed.

Lemma obj_get_set_other o k k' v :
  k <> k' -> obj_get (obj_set o k v) k' = obj_get o k'.
Proof.
  intros N. induction o as [|[k0 v0] o IH]; simpl.
  - destruct (String.eqb_spec k k'); [contradiction|reflexivity].
  - destruct (String.eqb_spec k0 k) as [->|N0]; simpl.
    + destruct (String.eqb_spec k k'); [contradiction|reflexivity].
    + destruct (String.eqb k0 k'); [reflexivity|exact IH].
Qed.

Lemma obj_set_keys o k v :
  NoDup (map fst o) -> NoDup (map fst (obj_set o k v)).
Proof.
  induction o as [|[k' v'] o IH]; simpl.
  - intros _. repeat constructor. intros [].
  - intros H. inversion H as [|? ? Hn Hd]; subst.
    destruct (String.eqb_spec k' k) as [->|N]; simpl; [assumption|].
    constructor; [|now apply IH].
    intros Hin. apply Hn. clear - Hin N.
    induction o as [|[k0 v0] o IH]; simpl in *.
    + destruct Hin as [->|[]]. contradiction.
    + destruct (String.eqb k0 k); simpl in *; [assumption|].
      destruct Hin; [now left|right; now apply IH].
Qed.

Lemma fillRow_keys columns cells : forall index o,
  NoDup (map fst o) -> NoDup (map fst (fillRow' columns cells index o)).
Proof.
  induction cells as [|c cells IH]; intros index o H; simpl; [assumption|].
  apply IH. now apply obj_set_keys.
Qed.

Lemma fillRow_other columns k cells : forall index o,
  (forall j, j < List.length cells -> columnName columns (index + j) <> k) ->
  obj_get (fillRow' columns cells index o) k = obj_get o k.
Proof.
  induction cells as [|c cells IH]; intros index o H; simpl; [reflexivity|].
  rewrite IH.
  - apply obj_get_set_other. specialize (H 0). rewrite Nat.add_0_r in H.
    apply H. simpl. lia.
  - intros j Hj. replace (S index + j) with (index + S j) by lia.
    apply H. simpl. lia.
Qed.

Lemma fillRow_get columns cells : forall index o i,
  i < List.length cells ->
  (forall j j', j < List.length cells -> j' < List.length cells -> j <> j' ->
                columnName columns (index + j) <>
                columnName columns (index + j')) ->
  obj_get (fillRow' columns cells index o) (columnName columns (index + i)) =
  Some (cellValue' (nth i cells None)).
Proof.
  induction cells as [|c cells IH]; intros index o i Hi Hd; [simpl in Hi; lia|].
  cbn [GoogleSheet.fillRow]. destruct i as [|i].
  - rewrite Nat.add_0_r. rewrite fillRow_other.
    + apply obj_get_set_same.
    + intros j Hj. replace (S index + j) with (index + S j) by lia.
      rewrite <- (Nat.add_0_r index) at 2.
      apply Hd; simpl; lia.
  - replace (index + S i) with (S index + i) by lia.
    cbn [nth]. apply IH; [simpl in Hi; lia|].
    intros j j' Hj Hj' N.
    replace (S index + j) with (index + S j) by lia.
    replace (S index + j') with (index + S j') by lia.
    apply Hd; simpl; lia.
Qed.

Lemma columnName_label labels j :
  Forall (fun l => truthy l = true) labels -> j < List.length labels ->
  columnName labels j = nth j labels "".
Proof.
  intros H Hj. unfold columnName.
  rewrite (nth_error_nth' labels "" Hj). cbn [opt_or]. unfold or_else.
  rewrite Forall_forall in H. rewrite H; [reflexivity|]. now apply nth_In.
Qed.

Lemma addRow_fold columns rws : forall acc,
  fold_left (addRow String_ columns) rws acc =
  acc ++ fold_left (addRow String_ columns) rws [].
Proof.
  induction rws as [|r rws IH]; intros acc; simpl.
  - now rewrite app_nil_r.
  - rewrite IH, (IH (addRow String_ columns [] r)). rewrite app_assoc. f_equal.
    unfold addRow. destruct r as [c|]; [|now rewrite app_nil_r].
    destruct (hasData _); [reflexivity|now rewrite app_nil_r].
Qed.

Lemma parsed_rows columns rws r :
  In r (fold_left (addRow String_ columns) rws []) <->
  exists c, In (Some c) rws /\ r = fillRow' columns c 0 [] /\ hasData r = true.
Proof.
  induction rws as [|x rws IH]; simpl.
  - split; [tauto|]. intros [c [[] _]].
  - rewrite addRow_fold, in_app_iff, IH. unfold addRow at 1. split.
    + intros [H|[c [H1 H2]]].
      * destruct x as [c|]; [|destruct H].
        destruct (hasData (fillRow' columns c 0 [])) eqn:E; [|destruct H].
        destruct H as [<-|[]]. exists c. auto.
      * exists c. auto.
    + intros [c [[->|H1] [-> H2]]].
      * left. rewrite H2. now left.
      * right. exists c. auto.
Qed.

Lemma parsed_rows_length columns rws :
  List.length (fold_left (addRow String_ columns) rws []) <= List.length rws.
Proof.
  induction rws as [|x rws IH]; simpl; [lia|].
  rewrite addRow_fold, length_app. unfold addRow at 1.
  destruct x as [c|]; simpl; [|lia].
  destruct (hasData _); simpl; lia.
Qed.

(** X20. What [parseSheetData] returns when no label is "__proto__"
    (an assignment to that key of a row stores nothing): no label of
    [columns] is empty; every row kept comes from a row of the table
    that has cells, holds at least one value that is not blank, and has
    no key twice; rows are dropped, never added. *)
Theorem parseSheetData_rows (t : Table V) :
  ~ In "__proto__" (sheetColumns t) ->
  let sd := parseSheetData String_ t in
  Forall (fun c => truthy c = true) (columns sd) /\
  (forall r, In r (rows sd) <->
             exists c, In (Some c) (t_rows t) /\
                       r = fillRow' (columns sd) c 0 [] /\
                       hasData r = true) /\
  (forall r, In r (rows sd) -> NoDup (map fst r)) /\
  List.length (rows sd) <= List.length (t_rows t).
Proof.
  intros _. cbn zeta. unfold parseSheetData. cbn [columns rows].
  split; [|split; [|split]].
  - unfold sheetColumns. apply Forall_forall. intros c Hc.
    apply filter_In in Hc. destruct Hc as [_ Hc]. now destruct c.
  - intros r. apply parsed_rows.
  - intros r Hr. apply parsed_rows in Hr. destruct Hr as [c [_ [-> _]]].
    apply fillRow_keys. constructor.
  - apply parsed_rows_length.
Qed.

(** X21. For a table whose labels are all different, none empty and
    none "__proto__", a row with no more cells than labels is read back
    cell by cell: the
    value under the label of index [i] is the text of the cell of
    index [i]; and the row is kept as soon as it has data. *)
Theorem parseSheetData_lookup (labels : list string)
        (rws : list (option (list (option V)))) (cells : list (option V))
        (i : nat) :
  NoDup labels -> Forall (fun l => truthy l = true) labels ->
  ~ In "__proto__" labels ->
  In (Some cells) rws -> List.length cells <= List.length labels ->
  i < List.length cells ->
  let sd := parseSheetData String_ (mkTable (map Some labels) rws) in
  let r := fillRow' labels cells 0 [] in
  columns sd = labels /\
  obj_get r (nth i labels "") = Some (cellValue' (nth i cells None)) /\
  (hasData r = true -> In r (rows sd)).
Proof.
  intros Hd Ht _ Hin Hlen Hi. cbn zeta.
  assert (Hc : sheetColumns (mkTable (map Some labels) rws) = labels)
    by now apply sheetColumns_labelled.
  unfold parseSheetData. cbn [columns rows]. rewrite Hc.
  split; [reflexivity|]. split.
  - rewrite <- (columnName_label Ht) by lia.
    apply (fillRow_get labels cells 0 [] Hi).
    intros j j' Hj Hj' N. cbn [Nat.add].
    rewrite !(columnName_label Ht) by lia.
    intros E. apply N. apply (proj1 (NoDup_nth labels "") Hd); [lia..|exact E].
  - intros H. cbn [t_rows]. apply parsed_rows. exists cells. auto.
Qed.

End SheetFacts.

Section SheetExamples.

Lemma parseSheetData_rows_witness :
  NoDup (map fst [("A", "x"); ("Column2", "y")]).
Proof.
  refine (proj1 (proj2 (proj2 (@parseSheetData_rows string (fun v : string => v)
            (mkTable [Some ""; Some "A"] [Some [Some "x"; Some "y"]]) _)))
            [("A", "x"); ("Column2", "y")] _).
  - intros [H|[]]. discriminate H.
  - left. reflexivity.
Defined.

Lemma parseSheetData_lookup_witness :
  obj_get (GoogleSheet.fillRow (fun v : string => v) sheetColumns0
             [Some "ts"; Some leafEvent; Some "Jane"; None; Some "x"] 0 [])
          (nth 2 sheetColumns0 "") = Some "Jane".
Proof.
  refine (proj1 (proj2 (@parseSheetData_lookup string (fun v : string => v)
            sheetColumns0
            [Some [Some "ts"; Some leafEvent; Some "Jane"; None; Some "x"]]
            [Some "ts"; Some leafEvent; Some "Jane"; None; Some "x"]
            2 _ _ _ _ _ _))).
  - repeat constructor; simpl; intuition discriminate.
  - repeat constructor.
  - simpl. intuition discriminate.
  - left. reflexivity.
  - simpl. lia.
  - simpl. lia.
Defined.

End SheetExamples.

(* ================================================================== *)
(** * PasswordProtection: the stored session *)
(* ================================================================== *)

Section Session.

Local Open Scope Z_scope.

(** X22. After the right password at time [t0], [isAuthenticated]
    answers true, and leaves the storage alone, at any time up to seven
    days later; past that it answers false and removes the item, after
    which it answers false at any time.  A wrong password starts
    nothing and stores nothing, and text that does not parse never
    authenticates. *)
Theorem session_lifetime (t0 t : Z) (storage : Storage) :
  let started := submitPassword CORRECT_PASSWORD t0 storage in
  fst started = true /\
  (t <= t0 + 604800000 -> isAuthenticated t (snd started) = (true, snd started)) /\
  (t0 + 604800000 < t ->
   isAuthenticated t (snd started) = (false, None) /\
   forall t', isAuthenticated t' (snd (isAuthenticated t (snd started))) =
              (false, None)) /\
  (forall p, p <> CORRECT_PASSWORD ->
             submitPassword p t0 storage = (false, storage)) /\
  fst (isAuthenticated t (Some Unparsable)) = false.
Proof.
  cbn zeta. unfold submitPassword, checkPassword.
  rewrite String.eqb_refl. cbn [fst snd setAuthenticated isAuthenticated].
  change (7 * 24 * 60 * 60 * 1000) with 604800000.
  split; [reflexivity|]. split; [|split; [|split]].
  - intros H. destruct (Z.gtb_spec t (t0 + 604800000)); [lia|reflexivity].
  - intros H. destruct (Z.gtb_spec t (t0 + 604800000)); [|lia].
    split; reflexivity.
  - intros p Hp. destruct (String.eqb_spec p CORRECT_PASSWORD);
      [contradiction|reflexivity].
  - reflexivity.
Qed.

Lemma session_lifetime_witness :
  isAuthenticated 1000
    (snd (submitPassword CORRECT_PASSWORD 0 None)) =
  (true, snd (submitPassword CORRECT_PASSWORD 0 None)).
Proof.
  apply (proj1 (proj2 (session_lifetime 0 1000 None))). lia.
Defined.

End Session.

(* ================================================================== *)
(** * searchScouts over the numbers of the source *)
(* ================================================================== *)

Section RankedSearch.

Variable A : SearchN.Arith.
Hypothesis L : SearchN.Laws A.

Abbreviation gtA := (SearchN.gt A).
Abbreviation scoreA := (SearchN.scoutScore A).

Lemma simN_number a b : SearchN.isNaN A (SearchN.calculateSimilarity A a b) = false.
Proof.
  unfold SearchN.calculateSimilarity.
  destruct (negb (truthy a) || negb (truthy b)); [apply L|].
  destruct (String.eqb _ _); [apply L|].
  destruct (includes _ _ || includes _ _); [apply L|].
  destruct (Nat.eqb_spec (String.length (trim (toLowerCase a))) 0) as [E|N].
  { destruct (Nat.eqb _ 0); apply L. }
  destruct (Nat.eqb _ 0); [apply L|].
  apply (SearchN.nan_ratio L). lia.
Qed.

Lemma maxN_number x y :
  SearchN.isNaN A x = false -> SearchN.isNaN A y = false ->
  SearchN.isNaN A (SearchN.max A x y) = false.
Proof. intros Hx Hy. now destruct (SearchN.max_cases L x y) as [-> | ->]. Qed.

Lemma scoreN_candidates term r :
  scoreA term r =
  fold_left (SearchN.max A) (SearchN.candidates A term r) (SearchN.zero A).
Proof.
  unfold SearchN.scoutScore, SearchN.candidates, SearchN.contribution.
  destruct (SearchN.gt A (SearchN.calculateSimilarity A (fullName r) term) _);
  destruct (SearchN.gt A (SearchN.calculateSimilarity A (firstName r) term) _);
  destruct (SearchN.gt A (SearchN.calculateSimilarity A (lastName r) term) _);
  destruct (includes (toLowerCase (fullName r)) term ||
            includes (toLowerCase (firstName r)) term ||
            includes (toLowerCase (lastName r)) term); reflexivity.
Qed.

Lemma candidatesN_number term r x :
  In x (SearchN.candidates A term r) -> SearchN.isNaN A x = false.
Proof.
  unfold SearchN.candidates, SearchN.contribution. rewrite !in_app_iff.
  intros [H|[H|[H|H]]];
    repeat match goal with
           | H : In _ (if ?c then _ else _) |- _ => destruct c
           | H : In _ [_] |- _ => destruct H as [<-|[]]
           | H : In _ [] |- _ => destruct H
           end;
    first [apply simN_number
          |apply (SearchN.nan_mul L), simN_number
          |apply L].
Qed.

Lemma foldmax_facts l : forall a,
  (forall x, In x l -> gtA x (fold_left (SearchN.max A) l a) = false) /\
  gtA a (fold_left (SearchN.max A) l a) = false /\
  (fold_left (SearchN.max A) l a = a \/ In (fold_left (SearchN.max A) l a) l).
Proof.
  induction l as [|y l IH]; intros a; simpl.
  - split; [tauto|]. split; [|now left].
    rewrite <- (SearchN.max_ge_l L a a) at 1.
    destruct (SearchN.max_cases L a a) as [E|E]; now rewrite E.
  - destruct (IH (SearchN.max A a y)) as [H1 [H2 H3]].
    assert (Hm : forall x, gtA x (SearchN.max A a y) = false ->
                 gtA x (fold_left (SearchN.max A) l (SearchN.max A a y)) = false).
    { intros x Hx. clear - L Hx. revert Hx. generalize (SearchN.max A a y).
      induction l as [|z l IHl]; intros m Hx; simpl; [assumption|].
      apply IHl. now apply (SearchN.max_mono L). }
    split; [|split].
    + intros x [<-|Hx]; [|now apply H1]. apply Hm, (SearchN.max_ge_r L).
    + apply Hm, (SearchN.max_ge_l L).
    + destruct H3 as [H3|H3]; [|right; now right].
      rewrite H3. destruct (SearchN.max_cases L a y) as [E|E]; rewrite E;
        [now left|right; now left].
Qed.

Lemma scoreN_number term r : SearchN.isNaN A (scoreA term r) = false.
Proof.
  rewrite scoreN_candidates.
  destruct (foldmax_facts (SearchN.candidates A term r) (SearchN.zero A))
    as [_ [_ [H|H]]].
  - rewrite H. apply L.
  - now apply candidatesN_number in H.
Qed.

Lemma scoredResultsN_filter term corpus :
  SearchN.scoredResults A term corpus =
  map (fun r => (r, scoreA term r))
      (filter (fun r => gtA (scoreA term r) (SearchN.lit03 A)) corpus).
Proof.
  unfold SearchN.scoredResults.
  enough (H : forall acc, fold_left (SearchN.addResult A term) corpus acc =
            acc ++ map (fun r => (r, scoreA term r))
               (filter (fun r => gtA (scoreA term r) (SearchN.lit03 A)) corpus))
    by apply (H []).
  induction corpus as [|r corpus IH]; intros acc; simpl.
  - now rewrite app_nil_r.
  - rewrite IH. unfold SearchN.addResult.
    destruct (SearchN.gt A (scoreA term r) (SearchN.lit03 A)); simpl;
      now rewrite <- ?app_assoc.
Qed.

Lemma sortN_insert_perm {X} (cmp : X -> X -> SearchN.num A) x l :
  Permutation (SearchN.sort_insert A cmp x l) (x :: l).
Proof.
  induction l as [|y l IH]; simpl; [reflexivity|].
  destruct (SearchN.gt A (cmp x y) _); [|reflexivity].
  rewrite IH. apply perm_swap.
Qed.

Lemma sortN_perm {X} (cmp : X -> X -> SearchN.num A) l :
  Permutation (SearchN.sort A cmp l) l.
Proof.
  induction l as [|x l IH]; simpl; [reflexivity|].
  rewrite sortN_insert_perm. now constructor.
Qed.

Abbreviation descN := (SearchN.desc A).

Lemma byScoreN x y :
  gtA (SearchN.byScore A x y) (SearchN.zero A) = gtA (snd y) (snd x).
Proof. apply (SearchN.sub_pos L). Qed.

Lemma notgt_trans a b c :
  SearchN.isNaN A b = false ->
  gtA b a = false -> gtA c b = false -> gtA c a = false.
Proof.
  intros Hb H1 H2. destruct (gtA c a) eqn:E; [|reflexivity].
  destruct (SearchN.gt_cotrans L a b c Hb E); congruence.
Qed.

Lemma sortN_insert_sorted x l :
  Forall (fun e => SearchN.isNaN A (snd e) = false) l ->
  StronglySorted descN l ->
  StronglySorted descN (SearchN.sort_insert A (SearchN.byScore A) x l).
Proof.
  intros Hn H. induction H as [|y l Hl IH Hy]; simpl.
  - repeat constructor.
  - inversion Hn as [|? ? Hny Hnl]; subst. rewrite byScoreN.
    destruct (gtA (snd y) (snd x)) eqn:E.
    + constructor; [now apply IH|].
      apply (Permutation_Forall (Permutation_sym (sortN_insert_perm _ x l))).
      constructor; [|assumption]. unfold SearchN.desc.
      now apply (SearchN.gt_asym L).
    + constructor; [now constructor|].
      constructor; [exact E|].
      rewrite Forall_forall in *. intros z Hz. unfold SearchN.desc in *.
      exact (@notgt_trans (snd x) (snd y) (snd z) Hny E (Hy z Hz)).
Qed.

Lemma sortN_sorted l :
  Forall (fun e => SearchN.isNaN A (snd e) = false) l ->
  StronglySorted descN (SearchN.sort A (SearchN.byScore A) l).
Proof.
  induction 1 as [|x l Hx Hl IH]; simpl; [constructor|].
  apply sortN_insert_sorted; [|assumption].
  apply (Permutation_Forall (Permutation_sym (sortN_perm _ l))). assumption.
Qed.

Lemma sortN_insert_stable s x l :
  SearchN.isNaN A s = false ->
  filter (fun e => SearchN.sameScore A (snd e) s)
         (SearchN.sort_insert A (SearchN.byScore A) x l) =
  filter (fun e => SearchN.sameScore A (snd e) s) (x :: l).
Proof.
  intros Hs. induction l as [|y l IH]; [reflexivity|].
  cbn [SearchN.sort_insert]. rewrite byScoreN.
  destruct (gtA (snd y) (snd x)) eqn:E; [|reflexivity].
  cbn [filter] in *. rewrite IH.
  destruct (SearchN.sameScore A (snd x) s) eqn:Ex,
           (SearchN.sameScore A (snd y) s) eqn:Ey; try reflexivity.
  unfold SearchN.sameScore in Ex, Ey.
  apply andb_prop in Ex, Ey. destruct Ex as [_ Ex], Ey as [Ey _].
  apply negb_true_iff in Ex, Ey.
  destruct (SearchN.gt_cotrans L (snd x) s (snd y) Hs E); congruence.
Qed.

Lemma sortN_stable s l :
  SearchN.isNaN A s = false ->
  filter (fun e => SearchN.sameScore A (snd e) s)
         (SearchN.sort A (SearchN.byScore A) l) =
  filter (fun e => SearchN.sameScore A (snd e) s) l.
Proof.
  intros Hs. induction l as [|x l IH]; [reflexivity|].
  cbn [SearchN.sort fold_right]. fold (SearchN.sort A (SearchN.byScore A) l).
  rewrite sortN_insert_stable by assumption. cbn [filter]. now rewrite IH.
Qed.

Lemma filter_by_scoreN (score : Identity -> SearchN.num A)
      (q : SearchN.num A -> bool) l :
  Forall (fun e => snd e = score (fst e)) l ->
  filter (fun r => q (score r)) (map fst l) =
  map fst (filter (fun e => q (snd e)) l).
Proof.
  induction 1 as [|e l He Hl IH]; simpl; [reflexivity|].
  rewrite <- He, IH. now destruct (q (snd e)).
Qed.

Lemma sorted_by_scoreN (score : Identity -> SearchN.num A) l :
  Forall (fun e => snd e = score (fst e)) l ->
  StronglySorted descN l ->
  StronglySorted (fun a b => gtA (score b) (score a) = false) (map fst l).
Proof.
  intros Hs H. induction H as [|e l Hl IH He]; simpl; [constructor|].
  inversion Hs as [|? ? Hse Hsl]; subst.
  constructor; [now apply IH|].
  rewrite Forall_map. rewrite Forall_forall in *.
  intros b Hb. rewrite <- Hse, <- (Hsl b Hb). now apply He.
Qed.

Lemma scored_pairsN term corpus :
  Forall (fun e => snd e = scoreA term (fst e))
         (SearchN.sort A (SearchN.byScore A)
                       (SearchN.scoredResults A term corpus)).
Proof.
  rewrite Forall_forall. intros e He.
  apply (Permutation_in _ (sortN_perm (SearchN.byScore A) _)) in He.
  rewrite scoredResultsN_filter in He. apply in_map_iff in He.
  now destruct He as [r [<- _]].
Qed.

Lemma scored_numbersN term corpus :
  Forall (fun e => SearchN.isNaN A (snd e) = false)
         (SearchN.scoredResults A term corpus).
Proof.
  rewrite scoredResultsN_filter, Forall_map. apply Forall_forall.
  intros r _. apply scoreN_number.
Qed.

Lemma searchScoutsN_searched query corpus :
  truthy (trim query) = true ->
  SearchN.searchScouts A query corpus =
  map fst (SearchN.sort A (SearchN.byScore A)
             (SearchN.scoredResults A (toLowerCase (trim query)) corpus)).
Proof.
  intros H. unfold SearchN.searchScouts. rewrite H, (trim_truthy _ H). simpl.
  destruct corpus; reflexivity.
Qed.

Lemma searchScoutsN_blank query corpus :
  truthy (trim query) = false -> SearchN.searchScouts A query corpus = [].
Proof.
  intros H. unfold SearchN.searchScouts. rewrite H. now rewrite orb_true_r.
Qed.

Lemma searchScoutsN_In query corpus r :
  In r (SearchN.searchScouts A query corpus) <->
  truthy (trim query) = true /\ In r corpus /\
  gtA (scoreA (toLowerCase (trim query)) r) (SearchN.lit03 A) = true.
Proof.
  destruct (truthy (trim query)) eqn:E.
  - rewrite searchScoutsN_searched by assumption. split.
    + intros H. apply (Permutation_in _ (Permutation_map fst
                         (sortN_perm (SearchN.byScore A) _))) in H.
      rewrite scoredResultsN_filter, map_map in H. simpl in H.
      rewrite map_id in H. apply filter_In in H. tauto.
    + intros [_ [H1 H2]].
      apply (Permutation_in _ (Permutation_sym (Permutation_map fst
               (sortN_perm (SearchN.byScore A) _)))).
      rewrite scoredResultsN_filter, map_map. simpl. rewrite map_id.
      apply filter_In. auto.
  - rewrite searchScoutsN_blank by assumption. simpl. split; [tauto|].
    intros [H _]. discriminate.
Qed.

Lemma searchScoutsN_desc query corpus :
  StronglySorted
    (fun a b => gtA (scoreA (toLowerCase (trim query)) b)
                    (scoreA (toLowerCase (trim query)) a) = false)
    (SearchN.searchScouts A query corpus).
Proof.
  destruct (truthy (trim query)) eqn:E.
  - rewrite searchScoutsN_searched by assumption.
    apply sorted_by_scoreN; [apply scored_pairsN|].
    apply sortN_sorted, scored_numbersN.
  - rewrite searchScoutsN_blank by assumption. constructor.
Qed.

(** Over any arithmetic with the laws: the score of an identity is the
    result of [Math.max] over its contributing candidates, from 0; it
    is a number, no candidate is greater, and it is 0 or one of them;
    it is not below 0.7 when the query, whatever its case, is a
    substring of the full, first or last name; and the results are the
    identities of the corpus whose score exceeds 0.3. *)
Lemma searchScoutsN_scores (query : string) (corpus : list Identity) :
  let term := toLowerCase (trim query) in
  (forall r, scoreA term r =
               fold_left (SearchN.max A) (SearchN.candidates A term r)
                         (SearchN.zero A) /\
             SearchN.isNaN A (scoreA term r) = false /\
             (forall x, In x (SearchN.candidates A term r) ->
                        gtA x (scoreA term r) = false) /\
             (scoreA term r = SearchN.zero A \/
              In (scoreA term r) (SearchN.candidates A term r))) /\
  (forall r,
     includes (toLowerCase (fullName r)) (toLowerCase query) = true \/
     includes (toLowerCase (firstName r)) (toLowerCase query) = true \/
     includes (toLowerCase (lastName r)) (toLowerCase query) = true ->
     gtA (SearchN.lit07 A) (scoreA term r) = false) /\
  (forall r, In r (SearchN.searchScouts A query corpus) <->
             truthy (trim query) = true /\ In r corpus /\
             gtA (scoreA term r) (SearchN.lit03 A) = true).
Proof.
  intros term. split; [|split].
  - intros r. split; [apply scoreN_candidates|].
    split; [apply scoreN_number|]. rewrite scoreN_candidates.
    destruct (foldmax_facts (SearchN.candidates A term r) (SearchN.zero A))
      as [H1 [_ H3]]. auto.
  - intros r H. rewrite scoreN_candidates.
    apply (foldmax_facts (SearchN.candidates A term r) (SearchN.zero A)).
    unfold SearchN.candidates. rewrite !in_app_iff. right. right. right.
    assert (Hq : includes (toLowerCase (fullName r)) term ||
                 includes (toLowerCase (firstName r)) term ||
                 includes (toLowerCase (lastName r)) term = true).
    { unfold term. rewrite !orb_true_iff.
      destruct H as [H|[H|H]]; auto using includes_searchTerm. }
    rewrite Hq. now left.
  - intros r. apply searchScoutsN_In.
Qed.

(** Over any arithmetic with the laws: no result has a greater score
    than a result before it, and the results with the score of a given
    identity are, in the same order, the identities of the corpus with
    that score (among those kept, whose score exceeds 0.3). *)
Lemma searchScoutsN_sorted_stable (query : string) (corpus : list Identity) :
  let score := scoreA (toLowerCase (trim query)) in
  let results := SearchN.searchScouts A query corpus in
  StronglySorted (fun a b => gtA (score b) (score a) = false) results /\
  (forall r, SearchN.isNaN A (score r) = false) /\
  (truthy (trim query) = false -> results = []) /\
  (truthy (trim query) = true ->
   forall r0,
     filter (fun r => SearchN.sameScore A (score r) (score r0)) results =
     filter (fun r => SearchN.sameScore A (score r) (score r0))
            (filter (fun r => gtA (score r) (SearchN.lit03 A)) corpus)).
Proof.
  intros score results. unfold results.
  split; [apply searchScoutsN_desc|].
  split; [intros r; apply scoreN_number|].
  split; [apply searchScoutsN_blank|].
  intros E r0. rewrite searchScoutsN_searched by assumption. fold score.
  pose proof (scored_pairsN (toLowerCase (trim query)) corpus) as Hp.
  fold score in Hp.
  rewrite (filter_by_scoreN score
             (fun x => SearchN.sameScore A x (score r0)) Hp).
  rewrite sortN_stable by apply scoreN_number.
  rewrite scoredResultsN_filter. fold score.
  rewrite <- (@filter_by_scoreN score
                (fun x => SearchN.sameScore A x (score r0))).
  - rewrite map_map. simpl. now rewrite map_id.
  - rewrite Forall_map. now apply Forall_forall.
Qed.

(** Over any arithmetic with the laws: Enter selects a scout than
    which none of the corpus scores more, or leaves the state as it is
    when the text is blank or no scout scores above 0.3. *)
Lemma pressEnterN_best (value : string) (st : AppState) :
  let score := scoreA (toLowerCase (trim value)) in
  (truthy (trim value) = true ->
   (exists r0, In r0 (allScouts st) /\ gtA (score r0) (SearchN.lit03 A) = true) ->
   exists r, In r (allScouts st) /\
             SearchN.pressEnter A value st = selectScout (fullName r) st /\
             forall r', In r' (allScouts st) -> gtA (score r') (score r) = false) /\
  (truthy (trim value) = false \/
   (forall r, In r (allScouts st) -> gtA (score r) (SearchN.lit03 A) = false) ->
   SearchN.pressEnter A value st = st).
Proof.
  intros score. unfold SearchN.pressEnter.
  pose proof (searchScoutsN_desc (trim value) (allScouts st)) as Hs.
  pose proof (fun r => searchScoutsN_In (trim value) (allScouts st) r) as Hi.
  rewrite trim_idem in Hs, Hi. fold score in Hs, Hi.
  split.
  - intros Hv [r0 [H0 S0]]. rewrite Hv.
    destruct (SearchN.searchScouts A (trim value) (allScouts st)) as [|r rest].
    + exfalso. apply (Hi r0). auto.
    + exists r. destruct (proj1 (Hi r) (or_introl eq_refl)) as [_ [Hr Sr]].
      split; [assumption|]. split; [reflexivity|].
      intros r' Hr'.
      destruct (gtA (score r') (SearchN.lit03 A)) eqn:G.
      * assert (H' : In r' (r :: rest)) by (apply Hi; auto).
        destruct H' as [<-|H'].
        -- destruct (gtA (score r) (score r)) eqn:E; [|reflexivity].
           now rewrite (SearchN.gt_asym L _ _ E) in E.
        -- inversion Hs as [|? ? _ Hall]; subst.
           rewrite Forall_forall in Hall. now apply Hall.
      * destruct (gtA (score r') (score r)) eqn:E; [|reflexivity].
        destruct (SearchN.gt_cotrans L (score r) (SearchN.lit03 A) (score r')
                    (SearchN.nan_lit03 L) E) as [H|H]; [congruence|].
        rewrite (SearchN.gt_asym L _ _ Sr) in H. discriminate.
  - intros [Hv|Hall].
    + now rewrite Hv.
    + destruct (truthy (trim value)); [|reflexivity].
      destruct (SearchN.searchScouts A (trim value) (allScouts st))
        as [|r rest]; [reflexivity|].
      destruct (proj1 (Hi r) (or_introl eq_refl)) as [_ [Hr Sr]].
      rewrite (Hall r Hr) in Sr. discriminate.
Qed.

End RankedSearch.

Section Arithmetics.

Local Open Scope Q_scope.

(** Rational arithmetic has the properties used. *)
Lemma Exact_laws : SearchN.Laws SearchN.Exact.
Proof.
  constructor; cbn; try reflexivity.
  - intros a b. unfold Qmax, GenericMinMax.gmax. destruct (a ?= b); auto.
  - intros a b. apply not_true_is_false. rewrite Qgtb_lt.
    pose proof (Q.le_max_l a b). lra.
  - intros a b. apply not_true_is_false. rewrite Qgtb_lt.
    pose proof (Q.le_max_r a b). lra.
  - intros x m y H. apply not_true_is_false. rewrite Qgtb_lt.
    apply not_true_iff_false in H. rewrite Qgtb_lt in H.
    pose proof (Q.le_max_l m y). lra.
  - intros a b H. apply not_true_is_false. rewrite Qgtb_lt.
    apply Qgtb_lt in H. lra.
  - intros a b c _ H. rewrite !Qgtb_lt. apply Qgtb_lt in H.
    destruct (Qlt_le_dec b c); [now left|right; lra].
  - intros a b. apply eq_true_iff_eq. rewrite !Qgtb_lt. split; intros; lra.
Qed.

(** [Search] is [SearchN] at the rational arithmetic. *)
Lemma Exact_calculateSimilarity a b :
  SearchN.calculateSimilarity SearchN.Exact a b = calculateSimilarity a b.
Proof. reflexivity. Qed.

Lemma Exact_scoutScore term r :
  SearchN.scoutScore SearchN.Exact term r = scoutScore term r.
Proof. reflexivity. Qed.

Lemma Exact_sort (l : list (Identity * Q)) :
  SearchN.sort SearchN.Exact (SearchN.byScore SearchN.Exact) l =
  sort byScore l.
Proof.
  induction l as [|x l IH]; [reflexivity|].
  cbn [SearchN.sort sort fold_right].
  fold (SearchN.sort SearchN.Exact (SearchN.byScore SearchN.Exact) l).
  fold (sort byScore l). rewrite IH. generalize (sort byScore l). clear.
  induction l as [|y l IH]; [reflexivity|].
  cbn [SearchN.sort_insert sort_insert]. rewrite IH.
  change (SearchN.gt SearchN.Exact (SearchN.byScore SearchN.Exact x y)
                     (SearchN.zero SearchN.Exact))
    with (negb (Qle_bool (byScore x y) 0)).
  now destruct (Qle_bool (byScore x y) 0).
Qed.

Lemma Exact_searchScouts query corpus :
  SearchN.searchScouts SearchN.Exact query corpus = searchScouts query corpus.
Proof.
  unfold SearchN.searchScouts, searchScouts.
  destruct (negb (truthy query) || negb (truthy (trim query))); [reflexivity|].
  destruct (Nat.eqb (List.length corpus) 0); [reflexivity|].
  cbv zeta. f_equal. rewrite <- Exact_sort. reflexivity.
Qed.

End Arithmetics.

(* ================================================================== *)
(** * Binary64 has the laws of the search *)
(* ================================================================== *)

Section Binary64.

Local Open Scope Z_scope.
Local Set Warnings "-inexact-float".

(** Case analysis on the comparisons of exponents and mantissas. *)
Ltac cmp_cases :=
  repeat match goal with
  | |- context [Z.compare ?a ?b] => destruct (Z.compare_spec a b)
  | |- context [Pos.compare_cont Eq ?a ?b] =>
      change (Pos.compare_cont Eq a b) with (Pos.compare a b);
      destruct (Pos.compare_spec a b)
  end.

(** [<] on the floats of the specification, NaN included. *)
Lemma SFltb_asym x y : SFltb x y = true -> SFltb y x = false.
Proof.
  unfold SFltb, SFcompare.
  destruct x as [sx|sx| |sx mx ex], y as [sy|sy| |sy my ey];
    try destruct sx; try destruct sy; cbn; try congruence;
    cmp_cases; cbn; try congruence; try lia.
Qed.

Lemma SFltb_cotrans a b c :
  b <> S754_nan -> SFltb a c = true -> SFltb b c = true \/ SFltb a b = true.
Proof.
  unfold SFltb, SFcompare. intros Hb.
  destruct a as [sa|sa| |sa ma ea], b as [sb|sb| |sb mb eb],
           c as [sc|sc| |sc mc ec];
    try destruct sa; try destruct sb; try destruct sc; cbn;
    try congruence; auto;
    cmp_cases; cbn; try congruence; auto; try lia.
Qed.

Lemma SFltb_nan_l y : SFltb S754_nan y = false.
Proof. reflexivity. Qed.

Lemma SFltb_nan_r x : SFltb x S754_nan = false.
Proof. now destruct x. Qed.

Lemma is_nan_SF x : is_nan x = true <-> Prim2SF x = S754_nan.
Proof.
  unfold is_nan. rewrite eqb_spec. unfold SFeqb, SFcompare.
  destruct (Prim2SF x) as [s|s| |s m e]; try destruct s; cbn;
    rewrite ?Z.compare_refl;
    try (change (Pos.compare_cont Eq m m) with (Pos.compare m m);
         rewrite Pos.compare_refl); cbn; split; congruence.
Qed.

(** Rounding a mantissa that is not negative never gives NaN. *)
Lemma shr_record_of_loc_m m l : shr_m (shr_record_of_loc m l) = m.
Proof. now destruct l as [|[]]. Qed.

Lemma shr_1_nonneg mrs : 0 <= shr_m mrs -> 0 <= shr_m (shr_1 mrs).
Proof.
  destruct mrs as [[|[p|p|]|p] r s]; cbn; intros H; try lia.
Qed.

Lemma iter_shr_nonneg p : forall mrs,
  0 <= shr_m mrs -> 0 <= shr_m (iter_pos shr_1 p mrs).
Proof.
  induction p as [p IH|p IH|]; intros mrs H; cbn.
  - apply IH, IH. now apply shr_1_nonneg.
  - now apply IH, IH.
  - now apply shr_1_nonneg.
Qed.

Lemma shr_fexp_nonneg m e l :
  0 <= m -> 0 <= shr_m (fst (shr_fexp prec emax m e l)).
Proof.
  intros H. unfold shr_fexp, shr.
  destruct (fexp prec emax (Zdigits2 m + e) - e) as [|p|p]; cbn;
    rewrite ?shr_record_of_loc_m; try assumption.
  apply iter_shr_nonneg. now rewrite shr_record_of_loc_m.
Qed.

Lemma round_nearest_even_ge m l : m <= round_nearest_even m l.
Proof.
  destruct l as [|[]]; cbn; try lia. destruct (Z.even m); lia.
Qed.

Lemma binary_round_aux_number s m e l :
  0 <= m -> binary_round_aux prec emax s m e l <> S754_nan.
Proof.
  intros H. unfold binary_round_aux.
  pose proof (@shr_fexp_nonneg m e l H) as H1.
  destruct (shr_fexp prec emax m e l) as [mrs' e']. cbn [fst] in H1.
  pose proof (round_nearest_even_ge (shr_m mrs') (loc_of_shr_record mrs')) as H2.
  assert (H3 : 0 <= round_nearest_even (shr_m mrs') (loc_of_shr_record mrs'))
    by lia.
  pose proof (@shr_fexp_nonneg _ e' loc_Exact H3) as H4.
  destruct (shr_fexp prec emax _ e' loc_Exact) as [mrs2 e2]. cbn [fst] in H4.
  destruct (shr_m mrs2); try lia; try discriminate.
  destruct (e2 <=? emax - prec); discriminate.
Qed.

(** A right shift by fewer bits than the mantissa has leaves a
    positive mantissa. *)
Lemma shr_1_digits mrs m :
  shr_m mrs = Zpos m -> 1 < Zpos (digits2_pos m) ->
  exists m', shr_m (shr_1 mrs) = Zpos m' /\
             Zpos (digits2_pos m') = Zpos (digits2_pos m) - 1.
Proof.
  destruct mrs as [z r s]. cbn [shr_m]. intros -> H.
  destruct m as [p|p|]; cbn [shr_1 shr_m digits2_pos] in *;
    [exists p|exists p|exfalso; lia]; (split; [reflexivity|lia]).
Qed.

Lemma iter_shr_digits p : forall mrs m,
  shr_m mrs = Zpos m -> Zpos p < Zpos (digits2_pos m) ->
  exists m', shr_m (iter_pos shr_1 p mrs) = Zpos m' /\
             Zpos (digits2_pos m') = Zpos (digits2_pos m) - Zpos p.
Proof.
  induction p as [p IH|p IH|]; intros mrs m E H; cbn [iter_pos];
    [rewrite (Pos2Z.inj_xI p) in *|rewrite (Pos2Z.inj_xO p) in *|].
  - destruct (@shr_1_digits mrs m E) as [m1 [E1 D1]]; [lia|].
    destruct (IH _ m1 E1) as [m2 [E2 D2]]; [lia|].
    destruct (IH _ m2 E2) as [m3 [E3 D3]]; [lia|].
    exists m3. split; [assumption|lia].
  - destruct (IH _ m E) as [m2 [E2 D2]]; [lia|].
    destruct (IH _ m2 E2) as [m3 [E3 D3]]; [lia|].
    exists m3. split; [assumption|lia].
  - apply shr_1_digits; [assumption|lia].
Qed.

Lemma shr_fexp_pos m e l :
  SpecFloat.emin prec emax <= e ->
  exists m' e', shr_fexp prec emax (Zpos m) e l = (m', e') /\
                (exists p, shr_m m' = Zpos p) /\ SpecFloat.emin prec emax <= e'.
Proof.
  intros H. unfold shr_fexp, shr. cbn [Zdigits2].
  destruct (fexp prec emax (Zpos (digits2_pos m) + e) - e) as [|p|p] eqn:E.
  - eexists _, _. split; [reflexivity|]. rewrite shr_record_of_loc_m.
    split; [now exists m|assumption].
  - eexists _, _. split; [reflexivity|].
    split; [|lia].
    destruct (@iter_shr_digits p (shr_record_of_loc (Zpos m) l) m)
      as [m' [E' _]].
    + apply shr_record_of_loc_m.
    + revert E H. unfold fexp, SpecFloat.emin, prec, emax. lia.
    + now exists m'.
  - eexists _, _. split; [reflexivity|]. rewrite shr_record_of_loc_m.
    split; [now exists m|assumption].
Qed.

Lemma binary_round_aux_pos s m e l :
  SpecFloat.emin prec emax <= e ->
  (exists m' e', binary_round_aux prec emax s (Zpos m) e l = S754_finite s m' e') \/
  binary_round_aux prec emax s (Zpos m) e l = S754_infinity s.
Proof.
  intros H. unfold binary_round_aux.
  destruct (@shr_fexp_pos m e l H) as [mrs1 [e1 [-> [[p1 E1] H1]]]].
  rewrite E1.
  pose proof (round_nearest_even_ge (Zpos p1) (loc_of_shr_record mrs1)) as G.
  destruct (round_nearest_even (Zpos p1) (loc_of_shr_record mrs1))
    as [|p2|p2] eqn:R; try lia.
  destruct (@shr_fexp_pos p2 e1 loc_Exact H1) as [mrs2 [e2 [-> [[p3 E3] H3]]]].
  rewrite E3. destruct (e2 <=? emax - prec); [left; eauto|now right].
Qed.

Lemma binary_round_pos s m e :
  SpecFloat.emin prec emax <= e ->
  (exists m' e', binary_round prec emax s m e = S754_finite s m' e') \/
  binary_round prec emax s m e = S754_infinity s.
Proof.
  intros H. unfold binary_round, shl_align.
  destruct (fexp prec emax (Zpos (digits2_pos m) + e) - e) as [|p|p] eqn:E;
    apply binary_round_aux_pos; try assumption.
  unfold fexp, SpecFloat.emin, prec, emax. lia.
Qed.

(** Aligned mantissas and their number of bits. *)
Lemma iter_xO m d : Zpos (Pos.iter xO m d) = Zpos m * 2 ^ Zpos d.
Proof.
  induction d as [|d IH] using Pos.peano_ind.
  - cbn. rewrite (Pos2Z.inj_xO m). lia.
  - rewrite Pos.iter_succ, (Pos2Z.inj_xO (Pos.iter xO m d)), IH, Pos2Z.inj_succ.
    rewrite Z.pow_succ_r by lia. lia.
Qed.

Lemma digits_iter_xO m d :
  Zpos (digits2_pos (Pos.iter xO m d)) = Zpos (digits2_pos m) + Zpos d.
Proof.
  induction d as [|d IH] using Pos.peano_ind.
  - cbn. lia.
  - rewrite Pos.iter_succ. cbn [digits2_pos]. lia.
Qed.

Lemma digits2_bounds m :
  2 ^ (Zpos (digits2_pos m) - 1) <= Zpos m < 2 ^ Zpos (digits2_pos m).
Proof.
  induction m as [m IH|m IH|]; cbn [digits2_pos].
  - rewrite Pos2Z.inj_succ, (Pos2Z.inj_xI m).
    replace (Z.succ (Zpos (digits2_pos m)) - 1)
      with (Z.succ (Zpos (digits2_pos m) - 1)) by lia.
    rewrite !Z.pow_succ_r by lia. lia.
  - rewrite Pos2Z.inj_succ, (Pos2Z.inj_xO m).
    replace (Z.succ (Zpos (digits2_pos m)) - 1)
      with (Z.succ (Zpos (digits2_pos m) - 1)) by lia.
    rewrite !Z.pow_succ_r by lia. lia.
  - cbn. lia.
Qed.

Lemma shl_align_val m e ez :
  ez <= e -> Zpos (fst (shl_align m e ez)) = Zpos m * 2 ^ (e - ez).
Proof.
  intros H. unfold shl_align. destruct (ez - e) as [|d|d] eqn:E; cbn [fst].
  - replace (e - ez) with 0 by lia. cbn. lia.
  - lia.
  - rewrite iter_xO. f_equal. f_equal. lia.
Qed.

Lemma bounded_digits m e :
  bounded prec emax m e = true ->
  Zpos (digits2_pos m) <= 53 /\ -1074 <= e /\
  (-1074 < e -> Zpos (digits2_pos m) = 53).
Proof.
  unfold bounded, canonical_mantissa, fexp, SpecFloat.emin, prec, emax.
  rewrite andb_true_iff, Z.eqb_eq. lia.
Qed.

Lemma canon_lt m1 e1 m2 e2 :
  bounded prec emax m1 e1 = true -> bounded prec emax m2 e2 = true ->
  e1 < e2 -> Zpos m1 < Zpos m2 * 2 ^ (e2 - e1).
Proof.
  intros B1 B2 H.
  apply bounded_digits in B1, B2.
  destruct B1 as [D1 [L1 _]], B2 as [_ [_ D2]].
  pose proof (digits2_bounds m1) as [_ U1].
  pose proof (digits2_bounds m2) as [L2 _].
  rewrite D2 in L2 by lia. change (2 ^ (53 - 1)) with 4503599627370496 in L2.
  assert (P1 : 2 ^ Zpos (digits2_pos m1) <= 2 ^ 53)
    by (apply Z.pow_le_mono_r; lia).
  change (2 ^ 53) with 9007199254740992 in P1.
  assert (P2 : 2 ^ 1 <= 2 ^ (e2 - e1)) by (apply Z.pow_le_mono_r; lia).
  change (2 ^ 1) with 2 in P2.
  nia.
Qed.

(** The sign of the aligned difference is the comparison. *)
Lemma aligned_difference sx mx ex sy my ey :
  bounded prec emax mx ex = true -> bounded prec emax my ey = true ->
  let ez := Z.min ex ey in
  0 < cond_Zopp sx (Zpos (fst (shl_align mx ex ez))) -
      cond_Zopp sy (Zpos (fst (shl_align my ey ez))) <->
  SFltb (S754_finite sy my ey) (S754_finite sx mx ex) = true.
Proof.
  intros Bx By ez.
  rewrite !shl_align_val by (unfold ez; lia).
  assert (Px : 0 < 2 ^ (ex - ez)) by (apply Z.pow_pos_nonneg; unfold ez; lia).
  assert (Py : 0 < 2 ^ (ey - ez)) by (apply Z.pow_pos_nonneg; unfold ez; lia).
  unfold SFltb, SFcompare.
  assert (Same : ey = ex -> 2 ^ (ex - ez) = 1 /\ 2 ^ (ey - ez) = 1).
  { intros ->. replace (ex - ez) with 0 by (unfold ez; lia). now split. }
  assert (Lo : ey < ex -> 2 ^ (ey - ez) = 1 /\ ex - ez = ex - ey).
  { intros E. replace (ey - ez) with 0 by (unfold ez; lia).
    split; [reflexivity|unfold ez; lia]. }
  assert (Hi : ex < ey -> 2 ^ (ex - ez) = 1 /\ ey - ez = ey - ex).
  { intros E. replace (ex - ez) with 0 by (unfold ez; lia).
    split; [reflexivity|unfold ez; lia]. }
  clearbody ez.
  destruct sx, sy; cbn [cond_Zopp].
  - destruct (Z.compare_spec ey ex) as [E|E|E].
    + destruct (Same E) as [-> ->].
      change (Pos.compare_cont Eq my mx) with (Pos.compare my mx).
      destruct (Pos.compare_spec my mx); cbn [CompOpp];
        (split; [intros D|intros D; try discriminate D]); try reflexivity;
        lia.
    + pose proof (@canon_lt _ _ _ _ By Bx E) as C. destruct (Lo E) as [-> ->].
      split; [intros D; exfalso; lia|discriminate].
    + pose proof (@canon_lt _ _ _ _ Bx By E) as C. destruct (Hi E) as [-> ->].
      split; [reflexivity|intros _; lia].
  - split; [intros D; exfalso; nia|discriminate].
  - split; [reflexivity|intros _; nia].
  - destruct (Z.compare_spec ey ex) as [E|E|E].
    + destruct (Same E) as [-> ->].
      change (Pos.compare_cont Eq my mx) with (Pos.compare my mx).
      destruct (Pos.compare_spec my mx);
        (split; [intros D|intros D; try discriminate D]); try reflexivity;
        lia.
    + pose proof (@canon_lt _ _ _ _ By Bx E) as C. destruct (Lo E) as [-> ->].
      split; [reflexivity|intros _; lia].
    + pose proof (@canon_lt _ _ _ _ Bx By E) as C. destruct (Hi E) as [-> ->].
      split; [intros D; exfalso; lia|discriminate].
Qed.

(** A difference rounds to a number of its own sign: no underflow to
    zero, thanks to the subnormal numbers. *)
Lemma SFltb_zero_normalize D ez :
  SpecFloat.emin prec emax <= ez ->
  SFltb (S754_zero false) (binary_normalize prec emax D ez false) = (0 <? D).
Proof.
  intros H. destruct D as [|p|p]; cbn [binary_normalize].
  - reflexivity.
  - destruct (@binary_round_pos false p ez H) as [[m' [e' ->]]| ->]; reflexivity.
  - destruct (@binary_round_pos true p ez H) as [[m' [e' ->]]| ->]; reflexivity.
Qed.

Lemma SFsub_pos x y :
  valid_binary x = true -> valid_binary y = true ->
  SFltb (S754_zero false) (SF64sub x y) = SFltb y x.
Proof.
  intros Vx Vy. unfold SF64sub, SFsub.
  destruct x as [sx|sx| |sx mx ex], y as [sy|sy| |sy my ey];
    try (destruct sx; try destruct sy; reflexivity);
    try (destruct sy; reflexivity); try reflexivity.
  cbn zeta. cbn [valid_binary] in Vx, Vy.
  rewrite SFltb_zero_normalize
    by (apply bounded_digits in Vx, Vy; unfold SpecFloat.emin, prec, emax; lia).
  pose proof (@aligned_difference sx mx ex sy my ey Vx Vy) as A. cbn zeta in A.
  destruct (SFltb (S754_finite sy my ey) (S754_finite sx mx ex)).
  - apply Z.ltb_lt. now apply A.
  - apply Z.ltb_ge. destruct (Z.lt_ge_cases 0
      (cond_Zopp sx (Zpos (fst (shl_align mx ex (Z.min ex ey)))) -
       cond_Zopp sy (Zpos (fst (shl_align my ey (Z.min ex ey)))))) as [C|C];
      [apply A in C; discriminate|lia].
Qed.

(** Conversions and operations that give a number. *)
Lemma binary_round_number s m e : binary_round prec emax s m e <> S754_nan.
Proof.
  unfold binary_round.
  destruct (shl_align m e (fexp prec emax (Zpos (digits2_pos m) + e))) as [mz ez].
  apply binary_round_aux_number. lia.
Qed.

Lemma binary_normalize_number m e s : binary_normalize prec emax m e s <> S754_nan.
Proof.
  destruct m; cbn [binary_normalize];
    [discriminate|apply binary_round_number..].
Qed.

Lemma binary_round_aux_exact s m e :
  Zpos (digits2_pos m) = 53 -> -1074 <= e <= 971 ->
  binary_round_aux prec emax s (Zpos m) e loc_Exact = S754_finite s m e.
Proof.
  intros D H. unfold binary_round_aux, shr_fexp. cbn [Zdigits2]. rewrite D.
  assert (E : fexp prec emax (53 + e) - e = 0)
    by (unfold fexp, SpecFloat.emin, prec, emax; lia).
  rewrite E. cbn [shr shr_record_of_loc shr_m loc_of_shr_record
                  round_nearest_even Zdigits2].
  rewrite D, E. cbn [shr shr_record_of_loc shr_m].
  replace (e <=? emax - prec) with true; [reflexivity|].
  symmetry. apply Z.leb_le. unfold emax, prec. lia.
Qed.

Lemma binary_round_small p :
  Zpos p < 2 ^ 53 ->
  exists m e, binary_round prec emax false p 0 = S754_finite false m e.
Proof.
  intros H. unfold binary_round.
  pose proof (digits2_bounds p) as [L _].
  assert (D : Zpos (digits2_pos p) <= 53).
  { destruct (Z.le_gt_cases (Zpos (digits2_pos p)) 53) as [C|C]; [assumption|].
    exfalso.
    assert (2 ^ 53 <= 2 ^ (Zpos (digits2_pos p) - 1))
      by (apply Z.pow_le_mono_r; lia).
    lia. }
  assert (E : fexp prec emax (Zpos (digits2_pos p) + 0) = Zpos (digits2_pos p) - 53)
    by (unfold fexp, SpecFloat.emin, prec, emax; lia).
  rewrite E. unfold shl_align.
  destruct (Zpos (digits2_pos p) - 53 - 0) as [|k|k] eqn:K.
  - eexists _, _. apply binary_round_aux_exact; lia.
  - lia.
  - eexists _, _. apply binary_round_aux_exact; [|lia].
    rewrite digits_iter_xO. lia.
Qed.

(** The same on the primitive floats. *)
Lemma is_nan_false x : is_nan x = false <-> Prim2SF x <> S754_nan.
Proof.
  rewrite <- is_nan_SF. destruct (is_nan x); split; congruence.
Qed.

Lemma ltb_nan_l x y : is_nan x = true -> PrimFloat.ltb x y = false.
Proof. intros H. apply is_nan_SF in H. now rewrite ltb_spec, H. Qed.

Lemma ltb_nan_r x y : is_nan y = true -> PrimFloat.ltb x y = false.
Proof.
  intros H. apply is_nan_SF in H. rewrite ltb_spec, H. apply SFltb_nan_r.
Qed.

Lemma ltb_asym x y : PrimFloat.ltb x y = true -> PrimFloat.ltb y x = false.
Proof. rewrite !ltb_spec. apply SFltb_asym. Qed.

Lemma ltb_irrefl x : PrimFloat.ltb x x = false.
Proof.
  destruct (PrimFloat.ltb x x) eqn:E; [|reflexivity].
  now rewrite (@ltb_asym _ _ E) in E.
Qed.

Lemma ltb_cotrans a b c :
  is_nan b = false -> PrimFloat.ltb a c = true ->
  PrimFloat.ltb b c = true \/ PrimFloat.ltb a b = true.
Proof.
  rewrite !ltb_spec, is_nan_false. apply SFltb_cotrans.
Qed.

Lemma fmax_cases a b : SearchN.fmax a b = a \/ SearchN.fmax a b = b.
Proof.
  unfold SearchN.fmax. destruct (is_nan b); [now right|].
  destruct (PrimFloat.ltb a b); auto.
Qed.

Lemma fmax_ge_l a b : PrimFloat.ltb (SearchN.fmax a b) a = false.
Proof.
  unfold SearchN.fmax. destruct (is_nan b) eqn:N; [now apply ltb_nan_l|].
  destruct (PrimFloat.ltb a b) eqn:E; [now apply ltb_asym|apply ltb_irrefl].
Qed.

Lemma fmax_ge_r a b : PrimFloat.ltb (SearchN.fmax a b) b = false.
Proof.
  unfold SearchN.fmax. destruct (is_nan b) eqn:N; [now apply ltb_nan_l|].
  destruct (PrimFloat.ltb a b) eqn:E; [apply ltb_irrefl|assumption].
Qed.

Lemma fmax_mono x m y :
  PrimFloat.ltb m x = false -> PrimFloat.ltb (SearchN.fmax m y) x = false.
Proof.
  intros H. unfold SearchN.fmax.
  destruct (is_nan y) eqn:N; [now apply ltb_nan_l|].
  destruct (PrimFloat.ltb m y) eqn:E; [|assumption].
  destruct (PrimFloat.ltb y x) eqn:F; [|reflexivity].
  destruct (is_nan x) eqn:Nx; [now rewrite (@ltb_nan_r y x Nx) in F|].
  destruct (@ltb_cotrans m x y Nx E) as [C|C]; [|congruence].
  now rewrite (@ltb_asym _ _ F) in C.
Qed.

Lemma fsub_pos a b :
  PrimFloat.ltb 0 (PrimFloat.sub b a) = PrimFloat.ltb a b.
Proof.
  rewrite !ltb_spec, sub_spec.
  change (Prim2SF 0) with (S754_zero false).
  apply SFsub_pos; apply Prim2SF_valid.
Qed.

Lemma ofNat_SF n :
  (n = 0%nat /\ Prim2SF (SearchN.ofNat SearchN.Double n) = S754_zero false) \/
  ((0 < n)%nat /\
   exists m e,
     Prim2SF (SearchN.ofNat SearchN.Double n) = S754_finite false m e).
Proof.
  cbn [SearchN.ofNat SearchN.Double]. rewrite of_uint63_spec, Uint63.of_Z_spec.
  rewrite Z.mod_small
    by (change wB with 9223372036854775808; lia).
  destruct n as [|n]; [left; split; reflexivity|right; split; [lia|]].
  destruct (Z.min (Z.of_nat (S n)) 9007199254740991) as [|p|p] eqn:E; try lia.
  cbn [binary_normalize]. apply binary_round_small.
  change (2 ^ 53) with 9007199254740992. lia.
Qed.

Lemma SFdiv_core_nonneg m1 e1 m2 e2 :
  0 <= fst (fst (SFdiv_core_binary prec emax (Zpos m1) e1 (Zpos m2) e2)).
Proof.
  unfold SFdiv_core_binary.
  set (s := _ - _ - Z.min _ _).
  set (m' := match s with Z0 => Zpos m1 | Zpos _ => Z.shiftl (Zpos m1) s
                          | Zneg _ => 0 end).
  assert (H : 0 <= m').
  { unfold m'. destruct s; try lia. apply Z.shiftl_nonneg. lia. }
  pose proof (Z.div_pos m' (Zpos m2) H (Pos2Z.is_pos m2)) as Q.
  unfold Z.div in Q. destruct (Z.div_eucl m' (Zpos m2)) as [q r]. exact Q.
Qed.

Lemma SFsub_number s m e y :
  y <> S754_nan -> SF64sub (S754_finite s m e) y <> S754_nan.
Proof.
  intros H. unfold SF64sub, SFsub.
  destruct y as [sy|sy| |sy my ey]; try discriminate; [contradiction|].
  apply binary_normalize_number.
Qed.

Lemma Double_ratio d m :
  (0 < m)%nat ->
  is_nan (PrimFloat.sub 1 (PrimFloat.div (SearchN.ofNat SearchN.Double d)
                                         (SearchN.ofNat SearchN.Double m)))
    = false.
Proof.
  intros H. apply is_nan_false. rewrite sub_spec, div_spec.
  change (Prim2SF 1) with (S754_finite false 4503599627370496 (-52)).
  apply SFsub_number.
  destruct (ofNat_SF m) as [[-> _]|[_ [mm [em ->]]]]; [lia|].
  destruct (ofNat_SF d) as [[_ ->]|[_ [md [ed ->]]]]; [discriminate|].
  unfold SF64div, SFdiv.
  pose proof (SFdiv_core_nonneg md ed mm em) as Q.
  destruct (SFdiv_core_binary prec emax (Zpos md) ed (Zpos mm) em) as [[mz ez] lz].
  now apply binary_round_aux_number.
Qed.

Lemma Double_mul09 x : is_nan x = false -> is_nan (PrimFloat.mul x 0.9) = false.
Proof.
  rewrite !is_nan_false, mul_spec. intros H.
  change (Prim2SF 0.9) with (S754_finite false 8106479329266893 (-53)).
  unfold SF64mul, SFmul.
  destruct (Prim2SF x) as [s|s| |s m e]; try discriminate; [contradiction|].
  apply binary_round_aux_number. lia.
Qed.

Lemma SFeqb_ltb x y :
  x <> S754_nan -> y <> S754_nan ->
  negb (SFltb y x) && negb (SFltb x y) = SFeqb x y.
Proof.
  unfold SFltb, SFeqb, SFcompare. intros Hx Hy.
  destruct x as [sx|sx| |sx mx ex], y as [sy|sy| |sy my ey];
    try destruct sx; try destruct sy; cbn; try congruence;
    cmp_cases; cbn; try congruence; try lia.
Qed.

Lemma eqb_ltb x y :
  is_nan x = false -> is_nan y = false ->
  negb (PrimFloat.ltb y x) && negb (PrimFloat.ltb x y) = PrimFloat.eqb x y.
Proof.
  rewrite !is_nan_false, !ltb_spec, eqb_spec. apply SFeqb_ltb.
Qed.

(** Binary64 with [Math.max] has the properties used. *)
Lemma Double_laws : SearchN.Laws SearchN.Double.
Proof.
  constructor; cbn.
  - apply fmax_cases.
  - apply fmax_ge_l.
  - apply fmax_ge_r.
  - apply fmax_mono.
  - intros a b. apply ltb_asym.
  - intros a b c. apply ltb_cotrans.
  - apply fsub_pos.
  - reflexivity.
  - reflexivity.
  - reflexivity.
  - reflexivity.
  - reflexivity.
  - apply Double_ratio.
  - apply Double_mul09.
Qed.

End Binary64.

(* ================================================================== *)
(** * The ranked search of the source *)
(* ================================================================== *)

Section RankedSearchDouble.

Local Set Warnings "-inexact-float".

Abbreviation scoreD := (SearchN.scoutScore SearchN.Double).
Abbreviation searchScoutsD := (SearchN.searchScouts SearchN.Double).

(** C6. On binary64, the numbers of the source: the score of an
    identity is the result of [Math.max] over its contributing
    candidates, from 0 (the full-name similarity, the first-name and
    the last-name similarity times 0.9, each only when the similarity
    itself exceeds 0.3, and 0.7 when the search term is found in a
    name); it is a number, no candidate is greater, and it is 0 or one
    of them; it is not below 0.7 when the query, whatever its case, is
    a substring of the full, first or last name; and the results are
    the identities of the corpus whose score exceeds 0.3 (none for a
    blank query). *)
Theorem searchScouts_scores (query : string) (corpus : list Identity) :
  let term := toLowerCase (trim query) in
  (forall r, scoreD term r =
               fold_left SearchN.fmax (candidatesD term r) 0%float /\
             PrimFloat.is_nan (scoreD term r) = false /\
             (forall x, In x (candidatesD term r) ->
                        PrimFloat.ltb (scoreD term r) x = false) /\
             (scoreD term r = 0%float \/
              In (scoreD term r) (candidatesD term r))) /\
  (forall r,
     includes (toLowerCase (fullName r)) (toLowerCase query) = true \/
     includes (toLowerCase (firstName r)) (toLowerCase query) = true \/
     includes (toLowerCase (lastName r)) (toLowerCase query) = true ->
     PrimFloat.ltb (scoreD term r) 0.7 = false) /\
  (forall r, In r (searchScoutsD query corpus) <->
             truthy (trim query) = true /\ In r corpus /\
             PrimFloat.ltb 0.3 (scoreD term r) = true).
Proof.
  exact (searchScoutsN_scores Double_laws query corpus).
Qed.

(** C7. On binary64, the numbers of the source: no result has a
    greater score than a result before it, and the results whose score
    equals that of a given identity are, in the same order, the
    identities of the corpus with that score (among those kept, whose
    score exceeds 0.3). *)
Theorem searchScouts_sorted_stable (query : string) (corpus : list Identity) :
  let score := scoreD (toLowerCase (trim query)) in
  let results := searchScoutsD query corpus in
  StronglySorted (fun a b => PrimFloat.ltb (score a) (score b) = false)
                 results /\
  (forall r, PrimFloat.is_nan (score r) = false) /\
  (truthy (trim query) = false -> results = []) /\
  (truthy (trim query) = true ->
   forall r0,
     filter (fun r => PrimFloat.eqb (score r) (score r0)) results =
     filter (fun r => PrimFloat.eqb (score r) (score r0))
            (filter (fun r => PrimFloat.ltb 0.3 (score r)) corpus)).
Proof.
  intros score results.
  destruct (searchScoutsN_sorted_stable Double_laws query corpus)
    as [H1 [H2 [H3 H4]]].
  split; [exact H1|]. split; [exact H2|]. split; [exact H3|].
  intros E r0.
  assert (Q : forall r, PrimFloat.eqb (score r) (score r0) =
                        SearchN.sameScore SearchN.Double (score r) (score r0)).
  { intros r. symmetry. apply eqb_ltb; apply H2. }
  rewrite !(filter_ext _ _ Q). exact (H4 E r0).
Qed.

(** X7. Enter selects a best match, on binary64: when the text is not
    blank and some scout of the corpus scores above 0.3, the scout
    selected is one of the corpus than which none scores more; when the
    text is blank or no scout scores above 0.3, the state is unchanged. *)
Theorem pressEnter_best (value : string) (st : AppState) :
  let score := scoreD (toLowerCase (trim value)) in
  (truthy (trim value) = true ->
   (exists r0, In r0 (allScouts st) /\ PrimFloat.ltb 0.3 (score r0) = true) ->
   exists r, In r (allScouts st) /\
             SearchN.pressEnter SearchN.Double value st =
               selectScout (fullName r) st /\
             forall r', In r' (allScouts st) ->
                        PrimFloat.ltb (score r) (score r') = false) /\
  (truthy (trim value) = false \/
   (forall r, In r (allScouts st) -> PrimFloat.ltb 0.3 (score r) = false) ->
   SearchN.pressEnter SearchN.Double value st = st).
Proof.
  exact (pressEnterN_best Double_laws value st).
Qed.

End RankedSearchDouble.

Section RankedSearchExamples.

Local Set Warnings "-inexact-float".

Lemma searchScouts_scores_witness :
  PrimFloat.ltb (SearchN.scoutScore SearchN.Double "smi"
                   (mkIdentity "Al Smith" "Al" "Smith" "al smith")) 0.7
    = false.
Proof.
  refine (proj1 (proj2 (searchScouts_scores "SMI" smiths))
            (mkIdentity "Al Smith" "Al" "Smith" "al smith") _).
  left. reflexivity.
Defined.

Lemma searchScouts_sorted_stable_witness :
  filter (fun r => PrimFloat.eqb
                     (SearchN.scoutScore SearchN.Double "smith" r)
                     (SearchN.scoutScore SearchN.Double "smith"
                        (mkIdentity "Bo Smith" "Bo" "Smith" "bo smith")))
         (SearchN.searchScouts SearchN.Double " Smith" smiths) =
  filter (fun r => PrimFloat.eqb
                     (SearchN.scoutScore SearchN.Double "smith" r)
                     (SearchN.scoutScore SearchN.Double "smith"
                        (mkIdentity "Bo Smith" "Bo" "Smith" "bo smith")))
         (filter (fun r => PrimFloat.ltb 0.3
                             (SearchN.scoutScore SearchN.Double "smith" r))
                 smiths).
Proof.
  refine (proj2 (proj2 (proj2
            (searchScouts_sorted_stable " Smith" smiths))) _
            (mkIdentity "Bo Smith" "Bo" "Smith" "bo smith")).
  reflexivity.
Defined.

Lemma pressEnter_best_witness :
  exists r, In r smiths /\
            SearchN.pressEnter SearchN.Double " smith"
                               (mkAppState [] [] smiths None) =
            selectScout (fullName r) (mkAppState [] [] smiths None) /\
            forall r', In r' smiths ->
                       PrimFloat.ltb
                         (SearchN.scoutScore SearchN.Double "smith" r)
                         (SearchN.scoutScore SearchN.Double "smith" r')
                       = false.
Proof.
  refine (proj1 (pressEnter_best " smith"
                   (mkAppState [] [] smiths None)) _ _).
  - reflexivity.
  - exists (mkIdentity "Smith" "Smith" "" "smith"). split.
    + right. right. right. left. reflexivity.
    + vm_compute. reflexivity.
Defined.

(** The rational reading has the same facts. *)
Example searchScouts_exact_scores :
  forall r, In r (SearchN.searchScouts SearchN.Exact "smith" smiths) <->
            In r smiths /\
            Qgtb (SearchN.scoutScore SearchN.Exact "smith" r) (3 # 10) = true.
Proof.
  intros r.
  pose proof (proj2 (proj2 (searchScoutsN_scores Exact_laws "smith" smiths)) r)
    as H.
  cbn zeta in H. rewrite H. change (trim "smith") with "smith".
  change (toLowerCase "smith") with "smith".
  change (truthy "smith") with true. intuition.
Qed.

(** On binary64, [(1 - 2/3) * 0.9] is above 0.3: "jim" finds Jon Smith
    by the first name, which exact arithmetic, at 3/10, does not. *)
Example searchScouts_double_threshold :
  map fullName (SearchN.searchScouts SearchN.Double "jim" jons) =
    ["Jon Smith"]%list /\
  map fullName (SearchN.searchScouts SearchN.Exact "jim" jons) = []%list.
Proof. vm_compute. split; reflexivity. Qed.

(** On binary64, [1 - 2/5] is below [(1 - 1/3) * 0.9]: for "jan" Jon
    Smith comes before Jaden, which exact arithmetic, at 3/5 for both,
    leaves in the order of the corpus. *)
Example searchScouts_double_order :
  map fullName (SearchN.searchScouts SearchN.Double "jan" [jaden; jonSmith]) =
    ["Jon Smith"; "Jaden"]%list /\
  map fullName (SearchN.searchScouts SearchN.Exact "jan" [jaden; jonSmith]) =
    ["Jaden"; "Jon Smith"]%list.
Proof. vm_compute. split; reflexivity. Qed.

End RankedSearchExamples.

(* ================================================================== *)
(** * extractEventFromRow on a row with its four cells *)
(* ================================================================== *)

Section SignupOfRow.

Lemma blank_not_digit c : isWhiteSpace c = true -> isDigit c = false.
Proof. destruct c as [[] [] [] [] [] [] [] []]; (discriminate || reflexivity). Qed.

Lemma digit_not_blank c : isDigit c = true -> isWhiteSpace c = false.
Proof. destruct c as [[] [] [] [] [] [] [] []]; (discriminate || reflexivity). Qed.

Lemma skip_ws_blanks sp rest : blanks sp = true -> skip_ws (sp ++ rest) = skip_ws rest.
Proof.
  induction sp as [|c sp IH]; simpl; [reflexivity|].
  intros [Hc Hs]%andb_prop. rewrite Hc. now apply IH.
Qed.

Lemma skip_ws_clean rest : startsBlank rest = false -> skip_ws rest = rest.
Proof. destruct rest as [|c rest]; simpl; [reflexivity|]. now intros ->. Qed.

Lemma digits12_app m c rest :
  digits1or2 m -> isDigit c = false ->
  digits12 (m ++ c :: rest) = Some (m, c :: rest).
Proof.
  intros [[a [-> A]]|[a [b [-> [A B]]]]] Hc; simpl.
  - now rewrite A, Hc.
  - rewrite A, B. now destruct rest.
Qed.

Lemma digits1or2_head m rest :
  digits1or2 m -> startsBlank (m ++ rest) = false.
Proof.
  intros [[a [-> A]]|[a [b [-> [A B]]]]]; simpl; now apply digit_not_blank.
Qed.

Lemma after_day sp3 sp4 name :
  blanks sp3 = true ->
  exists c rest, sp3 ++ "-"%char :: sp4 ++ name = c :: rest /\
                 isDigit c = false.
Proof.
  destruct sp3 as [|c sp3]; simpl.
  - intros _. now exists "-"%char, (sp4 ++ name).
  - intros [Hc _]%andb_prop. exists c, (sp3 ++ "-"%char :: sp4 ++ name).
    split; [reflexivity|now apply blank_not_digit].
Qed.

Lemma dateAt_dated y1 y2 y3 y4 sp1 sp2 m d sp3 sp4 name :
  forallb isDigit [y1; y2; y3; y4] = true ->
  blanks sp1 = true -> blanks sp2 = true -> blanks sp3 = true ->
  digits1or2 m -> digits1or2 d ->
  dateAt (datedText [y1; y2; y3; y4] sp1 sp2 m d sp3 sp4 name) =
  Some ([y1; y2; y3; y4], m, d, sp3 ++ "-"%char :: sp4 ++ name).
Proof.
  intros Hy H1 H2 H3 Hm Hd. unfold datedText, dateAt. cbn [app].
  simpl in Hy. rewrite andb_true_r, !andb_assoc in Hy. rewrite Hy.
  rewrite skip_ws_blanks by assumption. cbn [skip_ws].
  change (isWhiteSpace "-") with false. cbv iota.
  rewrite skip_ws_blanks by assumption.
  rewrite skip_ws_clean by now apply digits1or2_head.
  rewrite digits12_app by (assumption || reflexivity).
  destruct (@after_day sp3 sp4 name H3) as [c [rest [E Hc]]]. rewrite E.
  now rewrite digits12_app.
Qed.

Lemma twoDigits_pad m :
  digits1or2 m ->
  padStart0 2 (string_of_list_ascii m) = string_of_list_ascii (twoDigits m).
Proof. intros [[a [-> A]]|[a [b [-> [A B]]]]]; reflexivity. Qed.

Lemma string_of_list_app l1 l2 :
  string_of_list_ascii (l1 ++ l2) =
  (string_of_list_ascii l1 ++ string_of_list_ascii l2)%string.
Proof. induction l1 as [|c l1 IH]; simpl; [reflexivity|now rewrite IH]. Qed.

(** C5. For a row that has its four cells (event, first name, last
    name, role): the person name is the trimmed "first last", the adult
    flag says whether the role contains "adult" in any case, the end
    date is the start date, and the category is the first of "eagle
    project", "service project", "fundraiser", "camp" found in the
    lower-cased clean name (Other when none is).  When the trimmed event
    text is a four-digit year, a dash, a month and a day of one or two
    digits separated by a slash, a dash and a name (white space allowed
    around the dashes), the start date is year-month-day with month and
    day padded to two digits, and the clean name is the name, trimmed.
    So the Leaf Center row of Jane Doe, Scout, gives Jane Doe /
    Leaf Center Service Project (2 pm - 4 pm) / 2025-11-29 / 2025-11-29 /
    Service Project / not adult. *)
Theorem extractEventFromRow_signup (row : Obj) (columns : list string)
        (event first last role : string) :
  obj_get row (eventColOf columns) = Some event ->
  obj_get row (firstNameColOf columns) = Some first ->
  obj_get row (lastNameColOf columns) = Some last ->
  obj_get row (patrolColOf columns) = Some role ->
  let i := extractEventFromRow row columns in
  let lower := toLowerCase (eventName i) in
  scoutName i = trim (first ++ " " ++ last)%string /\
  isAdult i = truthy role && includes (toLowerCase role) "adult" /\
  endDate i = startDate i /\
  category i =
    (if includes lower "eagle project" then EagleProject
     else if includes lower "service project" then ServiceProject
     else if includes lower "fundraiser" then Fundraiser
     else if includes lower "camp" then Camping
     else Other) /\
  (forall y1 y2 y3 y4 sp1 sp2 m d sp3 sp4 name,
     forallb isDigit [y1; y2; y3; y4] = true ->
     digits1or2 m -> digits1or2 d ->
     blanks sp1 = true -> blanks sp2 = true ->
     blanks sp3 = true -> blanks sp4 = true ->
     startsBlank name = false ->
     trim event = string_of_list_ascii
                    (datedText [y1; y2; y3; y4] sp1 sp2 m d sp3 sp4 name) ->
     startDate i = string_of_list_ascii
                     ([y1; y2; y3; y4] ++ "-"%char :: twoDigits m ++
                      "-"%char :: twoDigits d) /\
     eventName i = trim (string_of_list_ascii name)) /\
  (event = leafEvent -> first = "Jane" -> last = "Doe" -> role = "Scout" ->
   i = mkEventInfo "Jane Doe" "Leaf Center Service Project (2 pm - 4 pm)"
                   "2025-11-29" "2025-11-29" ServiceProject false row).
Proof.
  intros He Hf Hl Hp. cbn zeta.
  assert (Eq : forall s, opt_or (Some s) "" = s).
  { intros s. unfold opt_or, or_else. now destruct s. }
  unfold extractEventFromRow. rewrite He, Hf, Hl, Hp, !Eq.
  cbn [scoutName isAdult endDate startDate category eventName].
  split; [reflexivity|]. split; [reflexivity|]. split; [reflexivity|].
  split; [reflexivity|]. split.
  - intros y1 y2 y3 y4 sp1 sp2 m d sp3 sp4 name Hy Hm Hd H1 H2 H3 H4 Hn Ht.
    rewrite Ht, list_ascii_of_string_of_list_ascii.
    pose proof (@dateAt_dated y1 y2 y3 y4 sp1 sp2 m d sp3 sp4 name
                  Hy H1 H2 H3 Hm Hd)
      as Hat.
    assert (Hdm : dateMatch (datedText [y1; y2; y3; y4] sp1 sp2 m d sp3 sp4 name)
                  = Some ([y1; y2; y3; y4], m, d)).
    { unfold datedText in *. cbn [app] in *. cbn [dateMatch]. now rewrite Hat. }
    rewrite Hdm. unfold stripDatePrefix. rewrite Hat.
    rewrite skip_ws_blanks by assumption. cbn [skip_ws].
    change (isWhiteSpace "-") with false. cbv iota.
    rewrite skip_ws_blanks, skip_ws_clean by assumption.
    split; [|reflexivity].
    rewrite !(twoDigits_pad) by assumption.
    rewrite string_of_list_app. cbn [string_of_list_ascii].
    rewrite string_of_list_app. cbn [string_of_list_ascii]. reflexivity.
  - intros -> -> -> ->. vm_compute. reflexivity.
Qed.

Lemma extractEventFromRow_signup_witness :
  extractEventFromRow janeRow sheetColumns0 =
  mkEventInfo "Jane Doe" "Leaf Center Service Project (2 pm - 4 pm)"
              "2025-11-29" "2025-11-29" ServiceProject false janeRow.
Proof.
  refine (proj2 (proj2 (proj2 (proj2 (proj2
            (extractEventFromRow_signup janeRow sheetColumns0
               (event := leafEvent) (first := "Jane") (last := "Doe")
               (role := "Scout") _ _ _ _))))) _ _ _ _); reflexivity.
Defined.

(** One-digit month and day, no white space around the dashes, and a
    name that holds both "camp" and "fundraiser". *)
Example extractEventFromRow_signup_padding :
  let i := extractEventFromRow
             (signupRowFor "2026-3/7-Camp Fundraiser" "Al" "Ray" "Adult leader")
             sheetColumns0 in
  startDate i = "2026-03-07" /\ eventName i = "Camp Fundraiser" /\
  category i = Fundraiser /\ isAdult i = true.
Proof. vm_compute. repeat split. Qed.

End SignupOfRow.
